(** * MoarVM core: callsite interning, the index hash table and the
      GC orchestrator's block transition.

    A shallow embedding of [src/core/callsite.c], of the index hash table
    ([hash_allocate_common], [MVM_index_hash_build], [hash_insert_internal],
    [maybe_grow_hash], [MVM_index_hash_insert_nocheck]) and of
    [MVM_gc_mark_thread_blocked], with the properties the specification
    states about them. *)

From Stdlib Require Import ZArith List String Ascii Lia Bool Permutation.
From stdpp Require Import base list strings.

Local Open Scope Z_scope.

(** Outcome of a C routine: a normal return, a raised VM exception or fatal
    abort (carrying its kind), or undefined behaviour of the C program (an
    access outside an allocation, a freed or NULL pointer dereferenced). *)
Inductive outcome (E A : Type) : Type :=
| Ok (a : A)
| Throw (e : E)
| Undefined.
Arguments Ok {E A} a.
Arguments Throw {E A} e.
Arguments Undefined {E A}.

Definition obind {E A B} (m : outcome E A) (k : A -> outcome E B) : outcome E B :=
  match m with
  | Ok a => k a
  | Throw e => Throw e
  | Undefined => Undefined
  end.

Definition of_option {E A} (o : option A) : outcome E A :=
  match o with
  | Some a => Ok a
  | None => Undefined
  end.

Declare Scope outcome_scope.
Delimit Scope outcome_scope with outcome.
Notation "'do' x <- m ; k" := (obind m (fun x => k))
  (at level 10, x pattern, m at level 100, k at level 200) : outcome_scope.
Local Open Scope outcome_scope.

(** Unsigned C integer conversions. *)
Definition u8 (z : Z) : Z := z mod 256.
Definition u16 (z : Z) : Z := z mod 65536.
Definition u32 (z : Z) : Z := z mod 4294967296.

(* ===================================================================== *)
(** * Callsites *)
(* ===================================================================== *)

Module Callsite.

(** [MVMCallsite]: [arg_flags] is the byte array (by value, it is owned by the
    descriptor), [arg_names] is [None] for a NULL pointer, [with_invocant] is
    the owned companion.  Strings are compared by [MVM_string_equal], which is
    equality of their contents, so an [MVMString *] is modelled by its
    contents. *)
Inductive MVMCallsite : Type := Build_MVMCallsite {
  arg_flags : list Z;
  flag_count : Z;
  arg_count : Z;
  num_pos : Z;
  has_flattening : Z;
  is_interned : Z;
  with_invocant : option MVMCallsite;
  arg_names : option (list string)
}.

Definition set_is_interned (v : Z) (cs : MVMCallsite) : MVMCallsite :=
  Build_MVMCallsite (arg_flags cs) (flag_count cs) (arg_count cs) (num_pos cs)
    (has_flattening cs) v (with_invocant cs) (arg_names cs).

(** Modelled from the spec: the tunable [ARITY_LIMIT] ("max interned arity;
    also bucket growth step", typical value 8); the macro
    [MVM_INTERN_ARITY_LIMIT] is declared in a header outside the sources. *)
Definition MVM_INTERN_ARITY_LIMIT : Z := 8.

(** Modelled from the spec: [MVM_callsite_num_nameds], an inline helper of a
    header outside the sources.  The data model gives one name per named
    argument and [flag_count - num_pos] of them. *)
Definition MVM_callsite_num_nameds (cs : MVMCallsite) : Z :=
  flag_count cs - num_pos cs.

(** A pointer to a descriptor is an index into the heap of descriptors; a
    freed cell holds [None].  [by_arity] is the interning store: bucket [n]
    lists the interned descriptors of [n] flags in insertion order
    ([num_by_arity[n]] is the bucket's length). *)
Definition ptr := nat.

Record MVMInstance : Type := Build_MVMInstance {
  heap : list (option MVMCallsite);
  by_arity : list (list ptr)
}.

Definition deref (h : list (option MVMCallsite)) (p : ptr) : option MVMCallsite :=
  mjoin (h !! p).

Definition MVM_free (h : list (option MVMCallsite)) (p : ptr) : list (option MVMCallsite) :=
  <[p := None]> h.

Definition MVM_malloc (h : list (option MVMCallsite)) (cs : MVMCallsite)
  : list (option MVMCallsite) * ptr :=
  (h ++ [Some cs], length h).

(** [memcmp(a, b, n) == 0]; reading past either array is undefined. *)
Definition memcmp_eq (a b : list Z) (n : nat) : option bool :=
  if (n <=? length a)%nat && (n <=? length b)%nat
  then Some (bool_decide (take n a = take n b))
  else None.

(** The loop [for (i = 0; i < num_nameds; i++)] of [callsites_equal], from
    index [i] with [count] iterations left. *)
Fixpoint names_equal_from (n1 n2 : option (list string)) (i count : nat) : option bool :=
  match count with
  | O => Some true
  | S count' =>
      match n1, n2 with
      | Some l1, Some l2 =>
          match l1 !! i, l2 !! i with
          | Some x, Some y =>
              if String.eqb x y then names_equal_from n1 n2 (S i) count'
              else Some false
          | _, _ => None
          end
      | _, _ => None
      end
  end.

Definition callsites_equal (cs1 cs2 : MVMCallsite) (num_flags num_nameds : Z)
  : option bool :=
  match (if num_flags =? 0 then Some true
         else memcmp_eq (arg_flags cs1) (arg_flags cs2) (Z.to_nat num_flags)) with
  | None => None
  | Some false => Some false
  | Some true =>
      names_equal_from (arg_names cs1) (arg_names cs2) 0 (Z.to_nat num_nameds)
  end.

(** The search loop of [MVM_callsite_try_intern] over one bucket: the first
    entry equal to [cs], if any. *)
Fixpoint find_intern (h : list (option MVMCallsite)) (bucket : list ptr)
    (cs : MVMCallsite) (num_flags num_nameds : Z) : option (option ptr) :=
  match bucket with
  | [] => Some None
  | q :: rest =>
      match deref h q with
      | None => None
      | Some e =>
          match callsites_equal e cs num_flags num_nameds with
          | None => None
          | Some true => Some (Some q)
          | Some false => find_intern h rest cs num_flags num_nameds
          end
      end
  end.

Definition MVM_callsite_try_intern (st : MVMInstance) (cs_ptr : ptr)
  : option (MVMInstance * ptr) :=
  match deref (heap st) cs_ptr with
  | None => None
  | Some cs =>
      let num_flags := flag_count cs in
      let num_nameds := MVM_callsite_num_nameds cs in
      if negb (has_flattening cs =? 0) then Some (st, cs_ptr)
      else if num_flags >=? MVM_INTERN_ARITY_LIMIT then Some (st, cs_ptr)
      else if (num_nameds >? 0) && negb (bool_decide (is_Some (arg_names cs)))
      then Some (st, cs_ptr)
      else
        match by_arity st !! Z.to_nat num_flags with
        | None => None
        | Some bucket =>
            match find_intern (heap st) bucket cs num_flags num_nameds with
            | None => None
            | Some (Some q) =>
                Some (Build_MVMInstance (MVM_free (heap st) cs_ptr) (by_arity st), q)
            | Some None =>
                Some (Build_MVMInstance
                        (<[cs_ptr := Some (set_is_interned 1 cs)]> (heap st))
                        (<[Z.to_nat num_flags := bucket ++ [cs_ptr]]> (by_arity st)),
                      cs_ptr)
            end
        end
  end.

(** [MVM_callsite_copy]: the clone of [cs], companion included.  With
    [flag_count = 0] the clone's [arg_flags] pointer is left unset; it has no
    readable element. *)
Fixpoint copy_value (cs : MVMCallsite) : option MVMCallsite :=
  let flags :=
    if flag_count cs =? 0 then Some []
    else if (Z.to_nat (flag_count cs) <=? length (arg_flags cs))%nat
         then Some (take (Z.to_nat (flag_count cs)) (arg_flags cs)) else None in
  let names :=
    match arg_names cs with
    | Some l =>
        let num_named := Z.to_nat (MVM_callsite_num_nameds cs) in
        if (num_named <=? length l)%nat then Some (Some (take num_named l)) else None
    | None => Some None
    end in
  let invocant :=
    match with_invocant cs with
    | Some w => match copy_value w with Some w' => Some (Some w') | None => None end
    | None => Some None
    end in
  match flags, names, invocant with
  | Some f, Some n, Some w =>
      Some (Build_MVMCallsite f (flag_count cs) (arg_count cs) (num_pos cs)
              (has_flattening cs) (is_interned cs) w n)
  | _, _, _ => None
  end.

Definition MVM_callsite_copy (st : MVMInstance) (p : ptr)
  : option (MVMInstance * ptr) :=
  match deref (heap st) p with
  | None => None
  | Some cs =>
      match copy_value cs with
      | None => None
      | Some c =>
          let '(h, q) := MVM_malloc (heap st) c in
          Some (Build_MVMInstance h (by_arity st), q)
      end
  end.

Inductive callsite_error : Type :=
| UnknownCommon
| OutOfRange
| HasFlattening.

(** A descriptor as [MVM_calloc] returns it: every field zero or NULL. *)
Definition calloc_callsite : MVMCallsite :=
  Build_MVMCallsite [] 0 0 0 0 0 None None.

Definition copy_nameds (to from : MVMCallsite) : option MVMCallsite :=
  match arg_names from with
  | Some l =>
      let num_names := Z.to_nat (u32 (flag_count from - num_pos from)) in
      if (num_names <=? length l)%nat
      then Some (Build_MVMCallsite (arg_flags to) (flag_count to) (arg_count to)
                   (num_pos to) (has_flattening to) (is_interned to)
                   (with_invocant to) (Some (take num_names l)))
      else None
  | None => Some to
  end.

(** One store [dst[to] = v] into an allocation of [length dst] bytes. *)
Definition store_flag (dst : list Z) (to : nat) (v : Z) : option (list Z) :=
  if (to <? length dst)%nat then Some (<[to := u8 v]> dst) else None.

(** The copying loop of [MVM_callsite_drop_positional], at source index
    [from] with [count] iterations left. *)
Fixpoint drop_loop (src : list Z) (idx : Z) (from count : nat)
    (dst : list Z) (to : nat) : option (list Z) :=
  match count with
  | O => Some dst
  | S count' =>
      if Z.of_nat from =? idx then drop_loop src idx (S from) count' dst to
      else
        match src !! from with
        | None => None
        | Some v =>
            match store_flag dst to v with
            | None => None
            | Some dst' => drop_loop src idx (S from) count' dst' (S to)
            end
        end
  end.

Definition MVM_callsite_drop_positional (st : MVMInstance) (p : ptr) (idx : Z)
  : outcome callsite_error (MVMInstance * ptr) :=
  do cs <- of_option (deref (heap st) p);
  if idx >=? num_pos cs then Throw OutOfRange
  else if negb (has_flattening cs =? 0) then Throw HasFlattening
  else
    let new_num_pos := u16 (num_pos cs - 1) in
    let new_flag_count := u16 (flag_count cs - 1) in
    let new_arg_count := u16 (arg_count cs - 1) in
    let buffer := replicate (Z.to_nat new_flag_count) 0 in
    do flags <- of_option
        (drop_loop (arg_flags cs) idx 0 (Z.to_nat (flag_count cs)) buffer 0);
    let new_callsite :=
      Build_MVMCallsite flags new_flag_count new_arg_count new_num_pos 0 0 None None in
    do new_callsite <- of_option (copy_nameds new_callsite cs);
    let '(h, q) := MVM_malloc (heap st) new_callsite in
    of_option (MVM_callsite_try_intern (Build_MVMInstance h (by_arity st)) q).

(** The copying loop of [MVM_callsite_insert_positional]; it returns the
    buffer together with the final [from] and [to]. *)
Fixpoint insert_loop (src : list Z) (idx flag : Z) (from count : nat)
    (dst : list Z) (to : nat) : option (list Z * nat * nat) :=
  match count with
  | O => Some (dst, from, to)
  | S count' =>
      match (if Z.of_nat from =? idx
             then option_map (fun d => (d, S to)) (store_flag dst to flag)
             else Some (dst, to)) with
      | None => None
      | Some (dst1, to1) =>
          match src !! from with
          | None => None
          | Some v =>
              match store_flag dst1 to1 v with
              | None => None
              | Some dst2 => insert_loop src idx flag (S from) count' dst2 (S to1)
              end
          end
      end
  end.

Definition MVM_callsite_insert_positional (st : MVMInstance) (p : ptr)
    (idx flag : Z) : outcome callsite_error (MVMInstance * ptr) :=
  do cs <- of_option (deref (heap st) p);
  if idx >? num_pos cs then Throw OutOfRange
  else if negb (has_flattening cs =? 0) then Throw HasFlattening
  else
    let new_num_pos := u16 (num_pos cs + 1) in
    let new_flag_count := u16 (flag_count cs + 1) in
    let new_arg_count := u16 (arg_count cs + 1) in
    let buffer := replicate (Z.to_nat new_flag_count) 0 in
    do r <- of_option
        (insert_loop (arg_flags cs) idx flag 0 (Z.to_nat (flag_count cs)) buffer 0);
    let '(flags, from, to) := r in
    do flags <- of_option
        (if Z.of_nat from =? idx then store_flag flags to flag else Some flags);
    let new_callsite :=
      Build_MVMCallsite flags new_flag_count new_arg_count new_num_pos 0 0 None None in
    do new_callsite <- of_option (copy_nameds new_callsite cs);
    let '(h, q) := MVM_malloc (heap st) new_callsite in
    of_option (MVM_callsite_try_intern (Build_MVMInstance h (by_arity st)) q).

(** ** Well-formed descriptors and stores

    The shape invariant of the descriptors the VM builds: the counts describe
    the flag array, the leading [num_pos] flags are positional and the others
    carry the named bit, and each named argument takes two argument slots (its
    name and its value). *)

(** Modelled from the spec: the "named" modifier bit of an argument flag
    ([MVM_CALLSITE_ARG_NAMED], declared in a header outside the sources). *)
Definition MVM_CALLSITE_ARG_NAMED : Z := 32.

Definition is_named_flag (f : Z) : bool :=
  negb (Z.land f MVM_CALLSITE_ARG_NAMED =? 0).

Record callsite_wf (cs : MVMCallsite) : Prop := Build_callsite_wf {
  wf_flag_count : flag_count cs = Z.of_nat (length (arg_flags cs));
  wf_flag_count_u16 : flag_count cs < 65536;
  wf_bytes : forall i f, arg_flags cs !! i = Some f -> 0 <= f < 256;
  wf_num_pos : 0 <= num_pos cs <= flag_count cs;
  wf_positional : forall i f, arg_flags cs !! i = Some f ->
      is_named_flag f = bool_decide (num_pos cs <= Z.of_nat i);
  wf_arg_count : arg_count cs = num_pos cs + 2 * (flag_count cs - num_pos cs);
  wf_arg_count_u16 : arg_count cs < 65536;
  wf_names : forall l, arg_names cs = Some l ->
      length l = Z.to_nat (flag_count cs - num_pos cs)
}.

(** What [try_intern] requires of a descriptor before it looks at the store. *)
Definition internable (cs : MVMCallsite) : Prop :=
  has_flattening cs = 0 /\
  flag_count cs < MVM_INTERN_ARITY_LIMIT /\
  (MVM_callsite_num_nameds cs > 0 -> is_Some (arg_names cs)).

Definition in_store (st : MVMInstance) (q : ptr) : Prop :=
  exists n bucket, by_arity st !! n = Some bucket /\ q ∈ bucket.

(** The store has one bucket per arity below the limit, and every pointer in
    bucket [n] is a live, well-formed, internable descriptor of [n] flags. *)
Definition interns_wf (st : MVMInstance) : Prop :=
  length (by_arity st) = Z.to_nat MVM_INTERN_ARITY_LIMIT /\
  forall n bucket q, by_arity st !! n = Some bucket -> q ∈ bucket ->
    exists e, deref (heap st) q = Some e /\ callsite_wf e /\ internable e /\
              flag_count e = Z.of_nat n.

(** Equality under interning, in the specification's words: the same flag
    bytes and pairwise equal names (no names when the array is absent). *)
Definition names_of (cs : MVMCallsite) : list string :=
  default [] (arg_names cs).

Definition structurally_equal (a b : MVMCallsite) : Prop :=
  arg_flags a = arg_flags b /\ names_of a = names_of b.

Definition structurally_equalb (a b : MVMCallsite) : bool :=
  bool_decide (arg_flags a = arg_flags b) && bool_decide (names_of a = names_of b).

(** The first pointer of a bucket whose descriptor is structurally equal to
    [cs]: what the search loop of [try_intern] is specified to find. *)
Definition first_match (h : list (option MVMCallsite)) (bucket : list ptr)
    (cs : MVMCallsite) : option ptr :=
  List.find (fun q => match deref h q with
                      | Some e => structurally_equalb e cs
                      | None => false
                      end) bucket.

(** Executable versions of the invariants, for concrete descriptors and
    stores. *)
Fixpoint positional_okb (np : Z) (i : nat) (l : list Z) : bool :=
  match l with
  | [] => true
  | f :: l' =>
      Bool.eqb (is_named_flag f) (np <=? Z.of_nat i) && positional_okb np (S i) l'
  end.

Definition callsite_wfb (cs : MVMCallsite) : bool :=
  (flag_count cs =? Z.of_nat (length (arg_flags cs)))
  && (flag_count cs <? 65536)
  && forallb (fun f => (0 <=? f) && (f <? 256)) (arg_flags cs)
  && (0 <=? num_pos cs) && (num_pos cs <=? flag_count cs)
  && positional_okb (num_pos cs) 0 (arg_flags cs)
  && (arg_count cs =? num_pos cs + 2 * (flag_count cs - num_pos cs))
  && (arg_count cs <? 65536)
  && match arg_names cs with
     | Some l => Nat.eqb (length l) (Z.to_nat (flag_count cs - num_pos cs))
     | None => true
     end.

Definition internableb (cs : MVMCallsite) : bool :=
  (has_flattening cs =? 0)
  && (flag_count cs <? MVM_INTERN_ARITY_LIMIT)
  && ((MVM_callsite_num_nameds cs <=? 0)
      || match arg_names cs with Some _ => true | None => false end).

Fixpoint buckets_okb (h : list (option MVMCallsite)) (n : nat)
    (buckets : list (list ptr)) : bool :=
  match buckets with
  | [] => true
  | bucket :: rest =>
      forallb (fun q => match deref h q with
                        | Some e => callsite_wfb e && internableb e
                                    && (flag_count e =? Z.of_nat n)
                        | None => false
                        end) bucket
      && buckets_okb h (S n) rest
  end.

Definition interns_wfb (st : MVMInstance) : bool :=
  Nat.eqb (length (by_arity st)) (Z.to_nat MVM_INTERN_ARITY_LIMIT)
  && buckets_okb (heap st) 0 (by_arity st).

Definition in_storeb (st : MVMInstance) (q : ptr) : bool :=
  existsb (fun bucket => existsb (Nat.eqb q) bucket) (by_arity st).

(** The list [l] without its element at position [i]. *)
Definition remove_at {A} (i : nat) (l : list A) : list A :=
  take i l ++ drop (S i) l.

(** The list [l] with [x] put at position [i]. *)
Definition insert_at {A} (i : nat) (x : A) (l : list A) : list A :=
  take i l ++ x :: drop i l.

(** ** The common callsites *)

(** Modelled from the spec: the argument kinds [OBJ], [INT], [NUM] and [STR]
    of an argument flag ([MVM_CALLSITE_ARG_OBJ] and the like, declared in a
    header outside the sources). *)
Definition MVM_CALLSITE_ARG_OBJ : Z := 1.
Definition MVM_CALLSITE_ARG_INT : Z := 2.
Definition MVM_CALLSITE_ARG_NUM : Z := 4.
Definition MVM_CALLSITE_ARG_STR : Z := 8.

(** Modelled from the spec: the nine common callsite IDs, "stable integer
    identifiers 0...8", in the order the specification and the [switch] of
    [MVM_callsite_get_common] list them ([MVMCommonCallsiteID], declared in a
    header outside the sources). *)
Definition MVM_CALLSITE_ID_ZERO_ARITY : Z := 0.
Definition MVM_CALLSITE_ID_OBJ : Z := 1.
Definition MVM_CALLSITE_ID_OBJ_OBJ : Z := 2.
Definition MVM_CALLSITE_ID_OBJ_INT : Z := 3.
Definition MVM_CALLSITE_ID_OBJ_NUM : Z := 4.
Definition MVM_CALLSITE_ID_OBJ_STR : Z := 5.
Definition MVM_CALLSITE_ID_INT_INT : Z := 6.
Definition MVM_CALLSITE_ID_OBJ_OBJ_STR : Z := 7.
Definition MVM_CALLSITE_ID_OBJ_OBJ_OBJ : Z := 8.

(** The static descriptors, as their initialisers give them. *)
Definition zero_arity_callsite : MVMCallsite :=
  Build_MVMCallsite [] 0 0 0 0 0 None None.
Definition obj_callsite : MVMCallsite :=
  Build_MVMCallsite [MVM_CALLSITE_ARG_OBJ] 1 1 1 0 0 None None.
Definition obj_obj_callsite : MVMCallsite :=
  Build_MVMCallsite [MVM_CALLSITE_ARG_OBJ; MVM_CALLSITE_ARG_OBJ] 2 2 2 0 0 None None.
Definition obj_int_callsite : MVMCallsite :=
  Build_MVMCallsite [MVM_CALLSITE_ARG_OBJ; MVM_CALLSITE_ARG_INT] 2 2 2 0 0 None None.
Definition obj_num_callsite : MVMCallsite :=
  Build_MVMCallsite [MVM_CALLSITE_ARG_OBJ; MVM_CALLSITE_ARG_NUM] 2 2 2 0 0 None None.
Definition obj_str_callsite : MVMCallsite :=
  Build_MVMCallsite [MVM_CALLSITE_ARG_OBJ; MVM_CALLSITE_ARG_STR] 2 2 2 0 0 None None.
Definition int_int_callsite : MVMCallsite :=
  Build_MVMCallsite [MVM_CALLSITE_ARG_INT; MVM_CALLSITE_ARG_INT] 2 2 2 0 0 None None.
Definition obj_obj_str_callsite : MVMCallsite :=
  Build_MVMCallsite
    [MVM_CALLSITE_ARG_OBJ; MVM_CALLSITE_ARG_OBJ; MVM_CALLSITE_ARG_STR]
    3 3 3 0 0 None None.
Definition obj_obj_obj_callsite : MVMCallsite :=
  Build_MVMCallsite
    [MVM_CALLSITE_ARG_OBJ; MVM_CALLSITE_ARG_OBJ; MVM_CALLSITE_ARG_OBJ]
    3 3 3 0 0 None None.

(** The addresses of the static descriptors: they are the first nine cells
    of the heap, in the order of their declarations. *)
Definition zero_arity_callsite_ptr : ptr := 0%nat.
Definition obj_callsite_ptr : ptr := 1%nat.
Definition obj_obj_callsite_ptr : ptr := 2%nat.
Definition obj_int_callsite_ptr : ptr := 3%nat.
Definition obj_num_callsite_ptr : ptr := 4%nat.
Definition obj_str_callsite_ptr : ptr := 5%nat.
Definition int_int_callsite_ptr : ptr := 6%nat.
Definition obj_obj_str_callsite_ptr : ptr := 7%nat.
Definition obj_obj_obj_callsite_ptr : ptr := 8%nat.

Definition static_callsites : list (option MVMCallsite) :=
  [Some zero_arity_callsite; Some obj_callsite; Some obj_obj_callsite;
   Some obj_int_callsite; Some obj_num_callsite; Some obj_str_callsite;
   Some int_int_callsite; Some obj_obj_str_callsite; Some obj_obj_obj_callsite].

Definition MVM_callsite_get_common (id : Z) : outcome callsite_error ptr :=
  if id =? MVM_CALLSITE_ID_ZERO_ARITY then Ok zero_arity_callsite_ptr
  else if id =? MVM_CALLSITE_ID_OBJ then Ok obj_callsite_ptr
  else if id =? MVM_CALLSITE_ID_OBJ_OBJ then Ok obj_obj_callsite_ptr
  else if id =? MVM_CALLSITE_ID_OBJ_INT then Ok obj_int_callsite_ptr
  else if id =? MVM_CALLSITE_ID_OBJ_NUM then Ok obj_num_callsite_ptr
  else if id =? MVM_CALLSITE_ID_OBJ_STR then Ok obj_str_callsite_ptr
  else if id =? MVM_CALLSITE_ID_INT_INT then Ok int_int_callsite_ptr
  else if id =? MVM_CALLSITE_ID_OBJ_OBJ_STR then Ok obj_obj_str_callsite_ptr
  else if id =? MVM_CALLSITE_ID_OBJ_OBJ_OBJ then Ok obj_obj_obj_callsite_ptr
  else Throw UnknownCommon.

Definition MVM_callsite_is_common (cs : ptr) : bool :=
  Nat.eqb cs zero_arity_callsite_ptr
  || Nat.eqb cs obj_callsite_ptr
  || Nat.eqb cs obj_obj_callsite_ptr
  || Nat.eqb cs obj_str_callsite_ptr
  || Nat.eqb cs obj_int_callsite_ptr
  || Nat.eqb cs obj_num_callsite_ptr
  || Nat.eqb cs int_int_callsite_ptr
  || Nat.eqb cs obj_obj_str_callsite_ptr
  || Nat.eqb cs obj_obj_obj_callsite_ptr.

(** [ptr = &static; MVM_callsite_try_intern(tc, &ptr);] : the local [ptr] is
    dropped after the call. *)
Definition intern_static (st : option MVMInstance) (p : ptr) : option MVMInstance :=
  match st with
  | None => None
  | Some st => option_map fst (MVM_callsite_try_intern st p)
  end.

Definition MVM_callsite_initialize_common (st : MVMInstance) : option MVMInstance :=
  let st := intern_static (Some st) zero_arity_callsite_ptr in
  let st := intern_static st obj_callsite_ptr in
  let st := intern_static st obj_obj_callsite_ptr in
  let st := intern_static st obj_int_callsite_ptr in
  let st := intern_static st obj_num_callsite_ptr in
  let st := intern_static st obj_str_callsite_ptr in
  let st := intern_static st int_int_callsite_ptr in
  let st := intern_static st obj_obj_str_callsite_ptr in
  intern_static st obj_obj_obj_callsite_ptr.

(** [MVM_callsite_destroy]: the arrays and the companion are owned by the
    descriptor and go with its cell. *)
Definition MVM_callsite_destroy (st : MVMInstance) (p : ptr) : option MVMInstance :=
  match deref (heap st) p with
  | None => None
  | Some _ => Some (Build_MVMInstance (MVM_free (heap st) p) (by_arity st))
  end.

(** No two entries of a bucket are structurally equal: the store holds one
    descriptor per shape. *)
Definition interns_unique (st : MVMInstance) : Prop :=
  forall n bucket i j qi qj ei ej,
    by_arity st !! n = Some bucket ->
    bucket !! i = Some qi -> bucket !! j = Some qj ->
    deref (heap st) qi = Some ei -> deref (heap st) qj = Some ej ->
    structurally_equal ei ej -> i = j.

(** A descriptor whose companions, all the way down, are well formed. *)
Fixpoint deep_wf (cs : MVMCallsite) : Prop :=
  callsite_wf cs /\
  match with_invocant cs with
  | Some w => deep_wf w
  | None => True
  end.

(** ** Concrete descriptors and stores *)

Definition bucket_ok (h : list (option MVMCallsite)) (bucket : list ptr) (n : Z) : Prop :=
  forall q, q ∈ bucket ->
    exists e, deref h q = Some e /\ callsite_wf e /\ internable e /\ flag_count e = n.

Definition interned_obj : MVMCallsite :=
  Build_MVMCallsite [1] 1 1 1 0 1 None None.

Definition copy_demo_state : MVMInstance :=
  Build_MVMInstance [Some interned_obj] [[]; [0%nat]; []; []; []; []; []; []].

Definition obj_int_str : MVMCallsite :=
  Build_MVMCallsite [1; 2; 8] 3 3 3 0 0 None None.

Definition obj_str : MVMCallsite :=
  Build_MVMCallsite [1; 8] 2 2 2 0 1 None None.

Definition flattening_obj : MVMCallsite :=
  Build_MVMCallsite [1] 1 1 1 1 0 None None.

(** A store holding the interned shape [OBJ, STR], with two caller-owned
    [OBJ, INT, STR] descriptors and a flattening one. *)
Definition demo_state : MVMInstance :=
  Build_MVMInstance
    [Some obj_str; Some obj_int_str; Some obj_int_str; Some flattening_obj]
    [[]; []; [0%nat]; []; []; []; []; []].

End Callsite.

(* ===================================================================== *)
(** * The index hash table *)
(* ===================================================================== *)

Module IndexHash.

Definition INDEX_MIN_SIZE_BASE_2 : Z := 3.

(** Modelled from the spec: the tunable [MAX_PROBE_DISTANCE] (255), the macro
    [MVM_HASH_MAX_PROBE_DISTANCE] of a header outside the sources. *)
Definition MVM_HASH_MAX_PROBE_DISTANCE : Z := 255.

(** Modelled from the spec: the tunable [LOAD_FACTOR] (0.75), the macro
    [MVM_INDEX_HASH_LOAD_FACTOR] of a header outside the sources, as the
    fraction 3/4.  The two places that use it multiply an unsigned 32-bit
    value by it (or by its inverse) in double arithmetic and truncate; on
    32-bit operands that is the truncated exact quotient. *)
Definition LOAD_FACTOR_NUM : Z := 3.
Definition LOAD_FACTOR_DEN : Z := 4.

Inductive hash_error : Type :=
| RecursiveGrow      (* "oops, attempt to recursively call grow when adding" *)
| DuplicateKey       (* "insert duplicate for" *)
| AssertionFailed.

(** [MVMIndexHashTableControl] with the two arrays of its allocation:
    [metadata] holds the byte of every slot followed by the sentinel (the
    rounding pad behind the sentinel is not part of the model: an access
    there is reported as [Undefined]); [entries] holds the [index] field of
    every slot's entry, by slot number (in memory they descend from the
    control structure). *)
Record MVMIndexHashTableControl : Type := Build_MVMIndexHashTableControl {
  official_size_log2 : Z;
  key_right_shift : Z;
  max_items : Z;
  cur_items : Z;
  max_probe_distance : Z;
  max_probe_distance_limit : Z;
  metadata : list Z;
  entries : list Z
}.

(** Modelled from the spec: "official_size = 1 << official_size_log2"
    ([MVM_index_hash_official_size], an inline helper of a header outside the
    sources). *)
Definition MVM_index_hash_official_size (control : MVMIndexHashTableControl) : Z :=
  Z.shiftl 1 (official_size_log2 control).

(** Modelled from the spec: the number of slots a resize walks
    ([MVM_index_hash_kompromat], an inline helper of a header outside the
    sources): the official size plus the probe distance in force. *)
Definition MVM_index_hash_kompromat (control : MVMIndexHashTableControl) : Z :=
  MVM_index_hash_official_size control + max_probe_distance control.

(** [1 << official_size_log2] is an [int] shift: it is defined while the
    result fits. *)
Definition hash_allocate_common (key_right_shift official_size_log2 : Z)
  : outcome hash_error MVMIndexHashTableControl :=
  if official_size_log2 <? 31 then
    let official_size := Z.shiftl 1 official_size_log2 in
    let max_items := official_size * LOAD_FACTOR_NUM / LOAD_FACTOR_DEN in
    let max_probe_distance_limit :=
      if MVM_HASH_MAX_PROBE_DISTANCE - 1 <? u32 (max_items - 1)
      then u8 (MVM_HASH_MAX_PROBE_DISTANCE - 1)
      else u8 (max_items - 1) in
    let allocated_items := Z.to_nat (official_size + max_probe_distance_limit) in
    Ok (Build_MVMIndexHashTableControl official_size_log2 key_right_shift
          max_items 0 max_probe_distance_limit max_probe_distance_limit
          (replicate allocated_items 0 ++ [1])
          (replicate allocated_items 0))
  else Undefined.

(** Modelled from the spec: [MVM_round_up_log_base2], a helper outside the
    sources, is the [ceil_log2] of the specification. *)
Definition MVM_round_up_log_base2 (v : Z) : Z := Z.log2_up v.

(** [entries * (1.0 / LOAD_FACTOR)] converted to [MVMuint32]: the conversion
    of a double that does not fit is undefined. *)
Definition MVM_index_hash_build (entries : Z)
  : outcome hash_error MVMIndexHashTableControl :=
  do initial_size_base2 <-
    (if entries =? 0 then Ok INDEX_MIN_SIZE_BASE_2
     else
       let min_needed := entries * LOAD_FACTOR_DEN / LOAD_FACTOR_NUM in
       if min_needed <? 4294967296 then
         let initial_size_base2 := MVM_round_up_log_base2 min_needed in
         if initial_size_base2 <? INDEX_MIN_SIZE_BASE_2
         then Ok INDEX_MIN_SIZE_BASE_2 else Ok initial_size_base2
       else Undefined);
  hash_allocate_common (u8 (64 - initial_size_base2)) (u8 initial_size_base2).

Section Insert.

(** The 64-bit hash of a key ([MVM_string_hash_code], outside the sources). *)
Variable MVM_string_hash_code : string -> Z.

(** Modelled from the spec: [MVM_index_hash_create_loop_state], an inline
    helper outside the sources: "the home slot for key k is
    hash(k) >> key_right_shift", and "probe distance starts at 1 at the home
    slot".  It returns the home slot and the initial probe distance. *)
Definition MVM_index_hash_create_loop_state (control : MVMIndexHashTableControl)
    (key : string) : nat * Z :=
  (Z.to_nat (Z.shiftr (MVM_string_hash_code key mod 2 ^ 64) (key_right_shift control)), 1).

(** The "make room" loop [do ... while (old_probe_distance)]: from position
    [pos] holding [old_probe_distance], it returns the metadata, the position
    of the gap and [max_items]. *)
Fixpoint find_me_a_gap (fuel : nat) (mpd : Z) (md : list Z) (pos : nat)
    (old_probe_distance : Z) (max_items : Z) : option (list Z * nat * Z) :=
  match fuel with
  | O => None
  | S fuel' =>
      let new_probe_distance := u8 (1 + old_probe_distance) in
      let max_items := if new_probe_distance =? mpd then 0 else max_items in
      match md !! S pos with
      | None => None
      | Some old =>
          let md := <[S pos := new_probe_distance]> md in
          if old =? 0 then Some (md, S pos, max_items)
          else find_me_a_gap fuel' mpd md (S pos) old max_items
      end
  end.

(** [memmove] of the entries of slots [slot .. gap - 1] to the slots
    [slot + 1 .. gap]. *)
Definition move_entries (ents : list Z) (slot gap : nat) : option (list Z) :=
  if (gap <? length ents)%nat
  then Some (take (S slot) ents ++ take (gap - slot) (drop slot ents)
             ++ drop (S gap) ents)
  else None.

(** The probe loop [while (1)] of [hash_insert_internal], at [slot] with
    probe distance [pd]. *)
Fixpoint insert_probe (fuel : nat) (control : MVMIndexHashTableControl)
    (idx : Z) (slot : nat) (pd : Z)
  : outcome hash_error MVMIndexHashTableControl :=
  match fuel with
  | O => Undefined
  | S fuel' =>
      do m <- of_option (metadata control !! slot);
      if m <? pd then
        do room <-
          (if m =? 0 then Ok (metadata control, entries control, max_items control)
           else
             do g <- of_option
                 (find_me_a_gap (length (metadata control))
                    (max_probe_distance control) (metadata control) slot m
                    (max_items control));
             let '(md, gap, mi) := g in
             do ents <- of_option (move_entries (entries control) slot gap);
             Ok (md, ents, mi));
        let '(md, ents, mi) := room in
        let mi := if pd =? max_probe_distance control then 0 else mi in
        if (slot <? length ents)%nat then
          Ok (Build_MVMIndexHashTableControl
                (official_size_log2 control) (key_right_shift control)
                mi (u32 (cur_items control + 1))
                (max_probe_distance control) (max_probe_distance_limit control)
                (<[slot := u8 pd]> md) (<[slot := idx]> ents))
        else Undefined
      else
        do _ <-
          (if m =? pd then
             do e <- of_option (entries control !! slot);
             if e =? idx then Throw DuplicateKey else Ok tt
           else Ok tt);
        let pd := pd + 1 in
        let slot := S slot in
        if negb (pd <=? max_probe_distance control + 1) then Throw AssertionFailed
        else if negb (Z.of_nat slot
                      <? MVM_index_hash_official_size control + max_items control)
        then Throw AssertionFailed
        else if negb (Z.of_nat slot <? MVM_index_hash_official_size control + 256)
        then Throw AssertionFailed
        else insert_probe fuel' control idx slot pd
  end.

Definition hash_insert_internal (control : MVMIndexHashTableControl)
    (list : list string) (idx : Z)
  : outcome hash_error MVMIndexHashTableControl :=
  if cur_items control >=? max_items control then Throw RecursiveGrow
  else
    do key <- of_option (list !! Z.to_nat idx);
    let '(slot, pd) := MVM_index_hash_create_loop_state control key in
    insert_probe (length (metadata control)) control idx slot pd.

(** The loop of [maybe_grow_hash] over the old slots, from [bucket] on:
    [old_metadata] is what is left of the old metadata to walk. *)
Fixpoint reinsert_from (old_metadata old_entries : list Z) (bucket : nat)
    (list : list string) (control : MVMIndexHashTableControl)
  : outcome hash_error MVMIndexHashTableControl :=
  match old_metadata with
  | [] => Ok control
  | m :: old_metadata' =>
      do control <-
        (if m =? 0 then Ok control
         else
           do e <- of_option (old_entries !! bucket);
           hash_insert_internal control list e);
      reinsert_from old_metadata' old_entries (S bucket) list control
  end.

Definition maybe_grow_hash (control : MVMIndexHashTableControl)
    (list : list string) : outcome hash_error MVMIndexHashTableControl :=
  let entries_in_use := Z.to_nat (MVM_index_hash_kompromat control) in
  do new_control <- hash_allocate_common
      (u8 (key_right_shift control - 1)) (u8 (official_size_log2 control + 1));
  if (entries_in_use <=? length (metadata control))%nat then
    reinsert_from (take entries_in_use (metadata control)) (entries control) 0
      list new_control
  else Undefined.

Definition MVM_index_hash_insert_nocheck (control : MVMIndexHashTableControl)
    (list : list string) (idx : Z)
  : outcome hash_error MVMIndexHashTableControl :=
  if cur_items control >=? max_items control then
    do new_control <- maybe_grow_hash control list;
    hash_insert_internal new_control list idx
  else hash_insert_internal control list idx.

(** Inserting the indices [idxs] one after the other. *)
Fixpoint insert_all (control : MVMIndexHashTableControl) (list : list string)
    (idxs : Datatypes.list Z) : outcome hash_error MVMIndexHashTableControl :=
  match idxs with
  | [] => Ok control
  | idx :: idxs' =>
      do control <- MVM_index_hash_insert_nocheck control list idx;
      insert_all control list idxs'
  end.

End Insert.

(** The metadata a "make room" pass leaves: every byte of the run [seg] is
    written, incremented, one slot further on. *)
Definition bump (x : Z) : Z := u8 (1 + x).

(** The table an insertion leaves when the candidate takes [slot]: the run
    [seg] of occupied slots from [slot] up to the gap has moved one slot on. *)
Definition placed (c : MVMIndexHashTableControl) (idx pd : Z)
    (M1 seg M2 E1 Eseg E2 : list Z) : MVMIndexHashTableControl :=
  Build_MVMIndexHashTableControl
    (official_size_log2 c) (key_right_shift c)
    (if pd =? max_probe_distance c then 0
     else if existsb (fun x => bump x =? max_probe_distance c) seg then 0
          else max_items c)
    (u32 (cur_items c + 1))
    (max_probe_distance c) (max_probe_distance_limit c)
    (M1 ++ u8 pd :: map bump seg ++ M2) (E1 ++ idx :: Eseg ++ E2).

(** The indices the table holds: the entries of the slots whose metadata
    byte is not zero, in slot order (the sentinel has no entry). *)
Fixpoint occupied (md ents : list Z) : list Z :=
  match md, ents with
  | m :: md', e :: ents' =>
      if m =? 0 then occupied md' ents' else e :: occupied md' ents'
  | _, _ => []
  end.

Definition contents (control : MVMIndexHashTableControl) : list Z :=
  occupied (metadata control) (entries control).

(** The number of slots of the allocation. *)
Definition allocated_items (control : MVMIndexHashTableControl) : Z :=
  MVM_index_hash_official_size control + max_probe_distance_limit control.

(** The invariant of a table between two operations: the sizes are those
    the allocator set up, every slot's byte is a probe distance of at most
    [max_probe_distance] whose home slot lies in the official part, and as
    long as [max_items] has not been zeroed no probe distance has reached
    [max_probe_distance]. *)
Record table_inv (control : MVMIndexHashTableControl) : Prop := Build_table_inv {
  inv_log2 : 3 <= official_size_log2 control < 31;
  inv_shift : key_right_shift control = 64 - official_size_log2 control;
  inv_limit : max_probe_distance control = max_probe_distance_limit control;
  inv_distance : 1 <= max_probe_distance control <= 254;
  inv_max_items : max_items control = 0 \/
                  max_probe_distance control < max_items control < 4294967296;
  inv_cur_items : 0 <= cur_items control;
  inv_metadata_length :
    Z.of_nat (length (metadata control)) = allocated_items control + 1;
  inv_entries_length :
    Z.of_nat (length (entries control)) = allocated_items control;
  inv_slots : forall i m, metadata control !! i = Some m ->
      Z.of_nat i < allocated_items control ->
      0 <= m <= max_probe_distance control /\
      (m <> 0 -> Z.of_nat i + 1 - m < MVM_index_hash_official_size control);
  inv_guard : max_items control <> 0 ->
      forall i m, metadata control !! i = Some m ->
        Z.of_nat i < allocated_items control -> m < max_probe_distance control
}.

(** ** The Robin-Hood invariants of a table

    The home slot of a key, as [MVM_index_hash_create_loop_state] computes
    it for the table's current shift. *)
Definition home_slot (hash : string -> Z) (control : MVMIndexHashTableControl)
    (key : string) : Z :=
  Z.of_nat (fst (MVM_index_hash_create_loop_state hash control key)).

(** "The invariant of the hash is that probe distances are never out of
    order": going one slot on, the probe distance grows by one at most. *)
Definition robin_hood_ordered (control : MVMIndexHashTableControl) : Prop :=
  forall i m m',
    metadata control !! i = Some m -> metadata control !! S i = Some m' ->
    Z.of_nat (S i) < allocated_items control -> m' <= m + 1.

(** Every occupied slot holds the index of a key of [list], at its probe
    distance from that key's home slot. *)
Definition keys_at_home (hash : string -> Z) (list : list string)
    (control : MVMIndexHashTableControl) : Prop :=
  forall i m e,
    metadata control !! i = Some m -> m <> 0 -> entries control !! i = Some e ->
    Z.of_nat i < allocated_items control ->
    exists key, list !! Z.to_nat e = Some key /\
                Z.of_nat i + 1 - m = home_slot hash control key.

(** The state of a table between two public operations. *)
Definition table_ok (hash : string -> Z) (list : list string)
    (control : MVMIndexHashTableControl) : Prop :=
  table_inv control /\ robin_hood_ordered control /\
  keys_at_home hash list control /\
  cur_items control = Z.of_nat (length (contents control)).

(** An outcome within the defined behaviour of the routines and without a
    failed assertion: a table that satisfies the invariants, or one of the two
    fatal errors of [hash_insert_internal]. *)
Definition safe_outcome (hash : string -> Z) (list : list string)
    (r : outcome hash_error MVMIndexHashTableControl) : Prop :=
  (exists c', r = Ok c' /\ table_ok hash list c') \/
  r = Throw DuplicateKey \/ r = Throw RecursiveGrow.

(** An executable version of the invariant, for concrete tables. *)
Fixpoint slots_okb (size mpd : Z) (guard : bool) (i : nat) (md : list Z) : bool :=
  match md with
  | [] => true
  | m :: md' =>
      (0 <=? m) && (m <=? mpd)
      && ((m =? 0) || (Z.of_nat i + 1 - m <? size))
      && (negb guard || (m <? mpd))
      && slots_okb size mpd guard (S i) md'
  end.

Definition table_invb (control : MVMIndexHashTableControl) : bool :=
  (3 <=? official_size_log2 control) && (official_size_log2 control <? 31)
  && (key_right_shift control =? 64 - official_size_log2 control)
  && (max_probe_distance control =? max_probe_distance_limit control)
  && (1 <=? max_probe_distance control) && (max_probe_distance control <=? 254)
  && ((max_items control =? 0)
      || ((max_probe_distance control <? max_items control)
          && (max_items control <? 4294967296)))
  && (0 <=? cur_items control)
  && (Z.of_nat (length (metadata control)) =? allocated_items control + 1)
  && (Z.of_nat (length (entries control)) =? allocated_items control)
  && slots_okb (MVM_index_hash_official_size control) (max_probe_distance control)
       (negb (max_items control =? 0)) 0
       (take (Z.to_nat (allocated_items control)) (metadata control)).

(** The specification's size of a fresh table, in its own words:
    [max(MIN, ceil_log2(expected_entries / LOAD_FACTOR))], where
    [ceil_log2 (p / q)] is the least [k >= 0] with [p / q <= 2 ^ k]. *)
Fixpoint ceil_log2_search (fuel : nat) (k p q : Z) : Z :=
  match fuel with
  | O => k
  | S fuel' => if p <=? q * 2 ^ k then k else ceil_log2_search fuel' (k + 1) p q
  end.

Definition ceil_log2_ratio (p q : Z) : Z := ceil_log2_search 64 0 p q.

Definition spec_initial_size_base2 (expected_entries : Z) : Z :=
  Z.max INDEX_MIN_SIZE_BASE_2
    (ceil_log2_ratio (expected_entries * LOAD_FACTOR_DEN) LOAD_FACTOR_NUM).

(** The specification's walk of a resize, in its own words: "walk the old
    slots in order and re-insert each occupied entry".  The indices [idxs],
    taken in order, go through the internal insertion one after the other. *)
Fixpoint spec_reinsert_in_order (hash : string -> Z)
    (control : MVMIndexHashTableControl) (list : list string)
    (idxs : Datatypes.list Z) : outcome hash_error MVMIndexHashTableControl :=
  match idxs with
  | [] => Ok control
  | idx :: idxs' =>
      do control <- hash_insert_internal hash control list idx;
      spec_reinsert_in_order hash control list idxs'
  end.

(** ** Concrete tables

    Keys that all hash to the same value (so that they share their home
    slot in every table), and the tables they lead to. *)
Definition colliding_hash (key : string) : Z := 0.

(** A hash that sends the key of index 254 to home slot 253 of a table of
    512 slots (506 of a table of 1024) and every other key to home slot 0. *)
Definition split_hash (key : string) : Z :=
  match key with
  | String a EmptyString =>
      if Nat.eqb (nat_of_ascii a) 254 then 253 * 2 ^ 55 else 0
  | _ => 0
  end.

Definition single_char_keys (n : nat) : list string :=
  map (fun i => String (ascii_of_nat i) EmptyString) (seq 0 n).

Definition first_indices (n : nat) : list Z := map Z.of_nat (seq 0 n).

Definition table_of (r : outcome hash_error MVMIndexHashTableControl)
  : MVMIndexHashTableControl :=
  match r with
  | Ok c => c
  | _ => Build_MVMIndexHashTableControl 0 0 0 0 0 0 [] []
  end.

Definition table_built_0 : MVMIndexHashTableControl :=
  Eval vm_compute in table_of (MVM_index_hash_build 0).

Definition table_built_100 : MVMIndexHashTableControl :=
  Eval vm_compute in table_of (MVM_index_hash_build 100).

Definition table_one_key : MVMIndexHashTableControl :=
  Eval vm_compute in
    table_of (insert_all colliding_hash table_built_0 (single_char_keys 2) [0]).

Definition table_four_keys : MVMIndexHashTableControl :=
  Eval vm_compute in
    table_of (insert_all colliding_hash table_built_0 (single_char_keys 5)
                (first_indices 4)).

Definition table_12_from_0 : MVMIndexHashTableControl :=
  Eval vm_compute in
    table_of (insert_all colliding_hash table_built_0 (single_char_keys 12)
                (first_indices 12)).

Definition table_12_from_100 : MVMIndexHashTableControl :=
  Eval vm_compute in
    table_of (insert_all colliding_hash table_built_100 (single_char_keys 12)
                (first_indices 12)).

End IndexHash.

(* ===================================================================== *)
(** * The index hash table: the backing blocks *)
(* ===================================================================== *)

Module IndexHashMemory.
Import IndexHash.

(** The single allocation behind a table (entries, control structure and
    metadata) is one cell of the memory; a pointer to a control structure
    stands for the address of its cell, and a freed cell is [None]. *)
Definition ptr : Type := nat.

Definition memory : Type := list (option MVMIndexHashTableControl).

Definition deref (mem : memory) (p : ptr) : option MVMIndexHashTableControl :=
  mjoin (mem !! p).

Definition MVM_malloc (mem : memory) (block : MVMIndexHashTableControl)
  : memory * ptr :=
  (mem ++ [Some block], length mem).

Definition MVM_free (mem : memory) (p : ptr) : memory := <[p := None]> mem.

(** [hash_demolish_internal] reads the size of the allocation from the
    control structure, steps back to the start of the block and frees it. *)
Definition hash_demolish_internal (mem : memory) (control : ptr) : option memory :=
  match deref mem control with
  | Some _ => Some (MVM_free mem control)
  | None => None
  end.

Section Grow.

Variable MVM_string_hash_code : string -> Z.

(** [maybe_grow_hash] on the memory: the new block is allocated, the walk
    over the old slots inserts into it, the old block is freed and the
    pointer to the new control structure is returned. *)
Definition maybe_grow_hash (mem : memory) (control : ptr) (list : list string)
  : outcome hash_error (memory * ptr) :=
  do control_orig <- of_option (deref mem control);
  let entries_in_use := Z.to_nat (MVM_index_hash_kompromat control_orig) in
  do new_block <- hash_allocate_common
      (u8 (key_right_shift control_orig - 1))
      (u8 (official_size_log2 control_orig + 1));
  let '(mem, new_control) := MVM_malloc mem new_block in
  if (entries_in_use <=? length (metadata control_orig))%nat then
    do new_block <- reinsert_from MVM_string_hash_code
        (take entries_in_use (metadata control_orig)) (entries control_orig) 0
        list new_block;
    let mem := <[new_control := Some new_block]> mem in
    do mem <- of_option (hash_demolish_internal mem control);
    Ok (mem, new_control)
  else Undefined.

End Grow.

End IndexHashMemory.

(* ===================================================================== *)
(** * The GC orchestrator: blocking a thread *)
(* ===================================================================== *)

Module GCOrch.

Inductive MVMGCStatus : Type :=
| MVMGCStatus_NONE
| MVMGCStatus_INTERRUPT
| MVMGCStatus_UNABLE
| MVMGCStatus_STOLEN.

Definition MVMGCStatus_eqb (a b : MVMGCStatus) : bool :=
  match a, b with
  | MVMGCStatus_NONE, MVMGCStatus_NONE
  | MVMGCStatus_INTERRUPT, MVMGCStatus_INTERRUPT
  | MVMGCStatus_UNABLE, MVMGCStatus_UNABLE
  | MVMGCStatus_STOLEN, MVMGCStatus_STOLEN => true
  | _, _ => false
  end.

(** The part of the shared state the routine touches: the thread's status
    word and the instance's count of enlisted threads. *)
Record gc_state : Type := Build_gc_state {
  gc_status : MVMGCStatus;
  starting_gc : Z
}.

(** [apr_atomic_cas32 (mem, with, cmp)]: one atomic step; it returns the new
    content of the word and the value it held. *)
Definition apr_atomic_cas32 (mem with_ cmp : MVMGCStatus) : MVMGCStatus * MVMGCStatus :=
  if MVMGCStatus_eqb mem cmp then (with_, mem) else (mem, mem).

(** How a call of [MVM_gc_mark_thread_blocked] ends: it returns, it goes on
    into [MVM_gc_enter_from_interupt], or it panics. *)
Inductive blocked_result : Type :=
| Blocked
| EnteredFromInterrupt
| Panicked.

(** The first step of [MVM_gc_enter_from_interupt]: the thread counts itself
    in ([apr_atomic_inc32]); the wait for the other threads and the
    collection that follow are outside this model. *)
Definition MVM_gc_enter_from_interupt (s : gc_state) : gc_state :=
  Build_gc_state (gc_status s) (u32 (starting_gc s + 1)).

(** [MVM_gc_mark_thread_blocked].  The status word is shared: [others] is
    what the other threads do to it between the failed CAS and the plain
    read [tc->gc_status] that follows. *)
Definition MVM_gc_mark_thread_blocked (s : gc_state)
    (others : MVMGCStatus -> MVMGCStatus) : gc_state * blocked_result :=
  let '(word, old) :=
    apr_atomic_cas32 (gc_status s) MVMGCStatus_UNABLE MVMGCStatus_NONE in
  if MVMGCStatus_eqb old MVMGCStatus_NONE
  then (Build_gc_state word (starting_gc s), Blocked)
  else
    let observed := others word in
    let s' := Build_gc_state observed (starting_gc s) in
    if MVMGCStatus_eqb observed MVMGCStatus_INTERRUPT
    then (MVM_gc_enter_from_interupt s', EnteredFromInterrupt)
    else (s', Panicked).

(** ** Signalling, unblocking and the run started from the allocator *)

(** No other thread writes the status word during the call. *)
Definition no_others (step : nat) (word : MVMGCStatus) : MVMGCStatus := word.

(** [signal_one_thread] on the status word of its target: [others n] is what
    the other threads (the target among them) do to the word before the
    [n]-th CAS of the call; [fuel] bounds the rounds of the [while (1)]. *)
Fixpoint signal_one_thread (fuel : nat) (others : nat -> MVMGCStatus -> MVMGCStatus)
    (step : nat) (s : gc_state) : option gc_state :=
  match fuel with
  | O => None
  | S fuel' =>
      let '(word, old) :=
        apr_atomic_cas32 (others step (gc_status s))
          MVMGCStatus_INTERRUPT MVMGCStatus_NONE in
      if MVMGCStatus_eqb old MVMGCStatus_NONE
      then Some (Build_gc_state word (starting_gc s))
      else
        let '(word, old) :=
          apr_atomic_cas32 (others (S step) word)
            MVMGCStatus_STOLEN MVMGCStatus_UNABLE in
        if MVMGCStatus_eqb old MVMGCStatus_UNABLE
        then Some (Build_gc_state word (u32 (starting_gc s + 1)))
        else signal_one_thread fuel' others (S (S step))
               (Build_gc_state word (starting_gc s))
  end.

(** [MVM_gc_mark_thread_unblocked]: the CAS is retried, the thread yielding
    in between, until it finds [UNABLE]. *)
Fixpoint MVM_gc_mark_thread_unblocked (fuel : nat)
    (others : nat -> MVMGCStatus -> MVMGCStatus) (step : nat) (s : gc_state)
  : option gc_state :=
  match fuel with
  | O => None
  | S fuel' =>
      let '(word, old) :=
        apr_atomic_cas32 (others step (gc_status s))
          MVMGCStatus_NONE MVMGCStatus_UNABLE in
      if MVMGCStatus_eqb old MVMGCStatus_UNABLE
      then Some (Build_gc_state word (starting_gc s))
      else MVM_gc_mark_thread_unblocked fuel' others (S step)
             (Build_gc_state word (starting_gc s))
  end.

(** The instance as the orchestrator sees it: the status word of the main
    thread and of each user thread, and the three counters. *)
Record MVMInstance : Type := Build_MVMInstance {
  main_thread : MVMGCStatus;
  user_threads : list MVMGCStatus;
  ins_starting_gc : Z;
  expected_gc_threads : Z;
  gc_seq_number : Z
}.

(** A thread context: the main thread's, or that of user thread [i]. *)
Inductive thread_id : Type :=
| MainThread
| UserThread (i : nat).

Definition is_main (tc : thread_id) : bool :=
  match tc with MainThread => true | UserThread _ => false end.

Definition is_user (tc : thread_id) (i : nat) : bool :=
  match tc with MainThread => false | UserThread j => Nat.eqb i j end.

(** The loop of [signal_all_but] over the user threads from index [i] on,
    the other threads being suspended; it returns their status words and
    [starting_gc]. *)
Fixpoint signal_users (fuel : nat) (tc : thread_id) (i : nat)
    (threads : list MVMGCStatus) (starting : Z) : option (list MVMGCStatus * Z) :=
  match threads with
  | [] => Some ([], starting)
  | w :: rest =>
      match (if is_user tc i then Some (Build_gc_state w starting)
             else signal_one_thread fuel no_others 0 (Build_gc_state w starting)) with
      | None => None
      | Some s =>
          match signal_users fuel tc (S i) rest (starting_gc s) with
          | None => None
          | Some (rest', starting') => Some (gc_status s :: rest', starting')
          end
      end
  end.

Definition signal_all_but (fuel : nat) (tc : thread_id) (ins : MVMInstance)
  : option MVMInstance :=
  match (if is_main tc then Some (Build_gc_state (main_thread ins) (ins_starting_gc ins))
         else signal_one_thread fuel no_others 0
                (Build_gc_state (main_thread ins) (ins_starting_gc ins))) with
  | None => None
  | Some s =>
      match signal_users fuel tc 0 (user_threads ins) (starting_gc s) with
      | None => None
      | Some (users, starting) =>
          Some (Build_MVMInstance (gc_status s) users starting
                  (expected_gc_threads ins) (gc_seq_number ins))
      end
  end.

(** [wait_for_all_threads] spins until the two counters agree; with the
    other threads suspended they do not change, so the wait either passes at
    once or never ends. *)
Definition wait_for_all_threads (ins : MVMInstance) : option MVMInstance :=
  if ins_starting_gc ins =? expected_gc_threads ins then Some ins else None.

(** [MVM_gc_enter_from_allocator] run by thread [tc] while the other threads
    are suspended.  The mutex calls succeed, and the collection itself
    ([run_gc]) works on the nursery, which is not part of this state. *)
Definition MVM_gc_enter_from_allocator (fuel : nat) (tc : thread_id)
    (ins : MVMInstance) : option MVMInstance :=
  let num_gc_threads := u32 (Z.of_nat (length (user_threads ins)) + 1) in
  if expected_gc_threads ins =? 0 then
    let ins := Build_MVMInstance (main_thread ins) (user_threads ins)
                 (u32 (ins_starting_gc ins + 1)) num_gc_threads
                 (u32 (gc_seq_number ins + 1)) in
    match signal_all_but fuel tc ins with
    | None => None
    | Some ins =>
        match wait_for_all_threads ins with
        | None => None
        | Some ins =>
            Some (Build_MVMInstance (main_thread ins) (user_threads ins) 0 0
                    (gc_seq_number ins))
        end
    end
  else
    wait_for_all_threads
      (Build_MVMInstance (main_thread ins) (user_threads ins)
         (u32 (ins_starting_gc ins + 1)) (expected_gc_threads ins)
         (gc_seq_number ins)).

End GCOrch.

(* ===================================================================== *)
(** * Properties of the callsite store *)
(* ===================================================================== *)

Section CallsiteProperties.
Import Callsite.

Lemma deref_Some (h : list (option MVMCallsite)) (p : ptr) (cs : MVMCallsite) :
  deref h p = Some cs <-> h !! p = Some (Some cs).
Proof.
  unfold deref. destruct (h !! p) as [[c|]|]; simpl; split; congruence.
Qed.

Lemma deref_malloc_old (h : list (option MVMCallsite)) (c : MVMCallsite) (p : ptr) :
  (p < length h)%nat -> deref (h ++ [Some c]) p = deref h p.
Proof.
  intros Hp. unfold deref. now rewrite lookup_app_l.
Qed.

Lemma deref_malloc_new (h : list (option MVMCallsite)) (c : MVMCallsite) :
  deref (h ++ [Some c]) (length h) = Some c.
Proof.
  unfold deref. rewrite lookup_app_r by lia. now rewrite Nat.sub_diag.
Qed.

Lemma deref_lt (h : list (option MVMCallsite)) (p : ptr) (cs : MVMCallsite) :
  deref h p = Some cs -> (p < length h)%nat.
Proof.
  intros H. apply deref_Some in H. eapply lookup_lt_Some; eauto.
Qed.

Lemma copy_value_is_interned (cs c : MVMCallsite) :
  copy_value cs = Some c -> is_interned c = is_interned cs.
Proof.
  destruct cs as [fl fc ac np hf ii w nm]. simpl.
  repeat (match goal with
          | |- context [match ?x with _ => _ end] => destruct x
          end; simpl; try discriminate).
  all: intros H; inversion H; reflexivity.
Qed.

(** C2, as amended: the descriptor returned by [copy] carries the
    [is_interned] flag of the original (so it is unmarked exactly when the
    original is), it lives in a fresh cell, and the interning store is left
    as it was. *)
Theorem copy_keeps_is_interned (st st' : MVMInstance) (p q : ptr) (cs : MVMCallsite) :
  deref (heap st) p = Some cs ->
  MVM_callsite_copy st p = Some (st', q) ->
  exists c, deref (heap st') q = Some c /\
            is_interned c = is_interned cs /\
            q = length (heap st) /\
            by_arity st' = by_arity st.
Proof.
  intros Hp Hc. unfold MVM_callsite_copy in Hc. rewrite Hp in Hc.
  destruct (copy_value cs) as [c|] eqn:Hv; [|discriminate].
  simpl in Hc. inversion Hc; subst; clear Hc. simpl.
  exists c. split; [apply deref_malloc_new|].
  split; [eapply copy_value_is_interned; eauto|]. split; reflexivity.
Qed.

Lemma copy_keeps_is_interned_witness :
  exists c, deref (heap (Build_MVMInstance
                           [Some interned_obj; Some interned_obj]
                           (by_arity copy_demo_state))) 1%nat = Some c /\
            is_interned c = is_interned interned_obj /\
            1%nat = length (heap copy_demo_state) /\
            by_arity copy_demo_state = by_arity copy_demo_state.
Proof.
  exact (copy_keeps_is_interned copy_demo_state
           (Build_MVMInstance [Some interned_obj; Some interned_obj]
              (by_arity copy_demo_state))
           0%nat 1%nat interned_obj eq_refl eq_refl).
Defined.

(** C2 as the specification words it (the copy is never marked interned)
    fails: the copy of a descriptor marked interned is marked interned. *)
Lemma copy_not_interned_counterexample :
  ~ (forall st st' p q, MVM_callsite_copy st p = Some (st', q) ->
       exists c, deref (heap st') q = Some c /\ is_interned c = 0).
Proof.
  intros H.
  destruct (H copy_demo_state
              (Build_MVMInstance [Some interned_obj; Some interned_obj]
                 (by_arity copy_demo_state)) 0%nat 1%nat eq_refl)
    as (c & Hc & Hi).
  vm_compute in Hc. inversion Hc; subst. vm_compute in Hi. discriminate.
Qed.

(** C7: [try_intern] leaves the store, the heap and the caller's pointer as
    they were exactly when the descriptor has flattening, or has
    [ARITY_LIMIT] flags or more, or has named arguments but no names. *)
Theorem try_intern_noop_iff (st : MVMInstance) (p : ptr) (cs : MVMCallsite) :
  deref (heap st) p = Some cs ->
  (MVM_callsite_try_intern st p = Some (st, p) <->
   (has_flattening cs <> 0 \/
    flag_count cs >= MVM_INTERN_ARITY_LIMIT \/
    (MVM_callsite_num_nameds cs > 0 /\ arg_names cs = None))).
Proof.
  intros Hp. unfold MVM_callsite_try_intern. rewrite Hp.
  destruct (has_flattening cs =? 0) eqn:Hf; simpl.
  2:{ apply Z.eqb_neq in Hf. split; auto. }
  apply Z.eqb_eq in Hf.
  destruct (flag_count cs >=? MVM_INTERN_ARITY_LIMIT) eqn:Ha.
  { split; auto. intros _. right; left. lia. }
  destruct (MVM_callsite_num_nameds cs >? 0) eqn:Hn; simpl.
  - destruct (arg_names cs) as [l|] eqn:Hnames.
    + rewrite bool_decide_true by eauto. simpl.
      split.
      * intros H. exfalso.
        destruct (by_arity st !! Z.to_nat (flag_count cs)) as [bucket|] eqn:Hb;
          [|discriminate].
        destruct (find_intern _ _ _ _ _) as [[q|]|]; try discriminate.
        -- inversion H as [[Hst Hq]]. destruct st as [h ba]; simpl in *.
           inversion Hst as [Hh]. apply deref_Some in Hp.
           assert (Hl : (<[p:=None]> h) !! p = Some None).
           { apply list_lookup_insert_eq. eapply lookup_lt_Some; eauto. }
           unfold MVM_free in Hh. rewrite Hh in Hl. congruence.
        -- inversion H as [Hst]. destruct st as [h ba]; simpl in *.
           inversion Hst as [[Hh Hba]].
           assert (Hl : (<[Z.to_nat (flag_count cs) := bucket ++ [p]]> ba)
                          !! Z.to_nat (flag_count cs) = Some (bucket ++ [p])).
           { apply list_lookup_insert_eq. eapply lookup_lt_Some; eauto. }
           rewrite Hba in Hl. rewrite Hb in Hl. inversion Hl as [Hl'].
           apply (f_equal length) in Hl'. rewrite length_app in Hl'. simpl in Hl'. lia.
      * intros [H|[H|[_ H]]]; [congruence|lia|discriminate].
    + rewrite bool_decide_false by (intros [? ?]; discriminate). simpl.
      split; auto. intros _. right; right. split; [lia|reflexivity].
  - split.
    + intros H. exfalso.
      destruct (by_arity st !! Z.to_nat (flag_count cs)) as [bucket|] eqn:Hb;
        [|discriminate].
      destruct (find_intern _ _ _ _ _) as [[q|]|]; try discriminate.
      * inversion H as [[Hst Hq]]. destruct st as [h ba]; simpl in *.
        inversion Hst as [Hh]. apply deref_Some in Hp.
        assert (Hl : (<[p:=None]> h) !! p = Some None).
        { apply list_lookup_insert_eq. eapply lookup_lt_Some; eauto. }
        unfold MVM_free in Hh. rewrite Hh in Hl. congruence.
      * inversion H as [Hst]. destruct st as [h ba]; simpl in *.
        inversion Hst as [[Hh Hba]].
        assert (Hl : (<[Z.to_nat (flag_count cs) := bucket ++ [p]]> ba)
                       !! Z.to_nat (flag_count cs) = Some (bucket ++ [p])).
        { apply list_lookup_insert_eq. eapply lookup_lt_Some; eauto. }
        rewrite Hba in Hl. rewrite Hb in Hl. inversion Hl as [Hl'].
        apply (f_equal length) in Hl'. rewrite length_app in Hl'. simpl in Hl'. lia.
    + intros [H|[H|[H _]]]; [congruence|lia|lia].
Qed.

(** *** What [callsites_equal] decides on well-formed descriptors *)

Lemma names_equal_from_spec (l1 l2 : list string) (count i : nat) :
  (i + count <= length l1)%nat -> (i + count <= length l2)%nat ->
  names_equal_from (Some l1) (Some l2) i count
  = Some (bool_decide (take count (drop i l1) = take count (drop i l2))).
Proof.
  revert i. induction count as [|c IH]; intros i H1 H2.
  - reflexivity.
  - cbn [names_equal_from].
    destruct (lookup_lt_is_Some_2 l1 i) as [x Hx]; [lia|].
    destruct (lookup_lt_is_Some_2 l2 i) as [y Hy]; [lia|].
    rewrite Hx, Hy.
    rewrite (drop_S _ _ _ Hx), (drop_S _ _ _ Hy). simpl.
    destruct (String.eqb x y) eqn:Hxy.
    + apply String.eqb_eq in Hxy. subst y.
      rewrite IH by lia. f_equal. apply bool_decide_ext.
      split; intros H; [now rewrite H | now inversion H].
    + apply String.eqb_neq in Hxy.
      rewrite bool_decide_false; [reflexivity|]. intros H. now inversion H.
Qed.

Lemma wf_num_pos_of_flags (a b : MVMCallsite) :
  callsite_wf a -> callsite_wf b -> arg_flags a = arg_flags b ->
  num_pos a = num_pos b /\ flag_count a = flag_count b /\ arg_count a = arg_count b.
Proof.
  intros Ha Hb Hfl.
  assert (Hfc : flag_count a = flag_count b).
  { rewrite (wf_flag_count _ Ha), (wf_flag_count _ Hb). now rewrite Hfl. }
  assert (Hnp : num_pos a = num_pos b).
  { assert (Hgen : forall x y, callsite_wf x -> callsite_wf y ->
                     arg_flags x = arg_flags y -> flag_count x = flag_count y ->
                     num_pos x < num_pos y -> False).
    { intros x y Hx Hy Hxy Hc Hlt.
      pose proof (wf_num_pos _ Hx) as Px. pose proof (wf_num_pos _ Hy) as Py.
      destruct (lookup_lt_is_Some_2 (arg_flags x) (Z.to_nat (num_pos x))) as [f Hf].
      { pose proof (wf_flag_count _ Hy). pose proof (wf_flag_count _ Hx). lia. }
      pose proof (wf_positional _ Hx _ _ Hf) as Q1.
      rewrite Hxy in Hf.
      pose proof (wf_positional _ Hy _ _ Hf) as Q2.
      rewrite bool_decide_true in Q1 by lia.
      rewrite bool_decide_false in Q2 by lia. congruence. }
    destruct (Z.lt_trichotomy (num_pos a) (num_pos b)) as [H|[H|H]]; auto.
    - exfalso. eapply (Hgen a b); eauto.
    - exfalso. eapply (Hgen b a); eauto. }
  repeat split; auto.
  rewrite (wf_arg_count _ Ha), (wf_arg_count _ Hb). lia.
Qed.

Lemma names_of_nil (cs : MVMCallsite) :
  callsite_wf cs -> MVM_callsite_num_nameds cs <= 0 -> names_of cs = [].
Proof.
  intros Hwf Hn. unfold names_of. destruct (arg_names cs) as [l|] eqn:Hl; simpl; auto.
  pose proof (wf_names _ Hwf _ Hl) as Hlen. unfold MVM_callsite_num_nameds in Hn.
  apply length_zero_iff_nil. rewrite Hlen. lia.
Qed.

Lemma structurally_equalb_spec (a b : MVMCallsite) :
  structurally_equalb a b = true <-> structurally_equal a b.
Proof.
  unfold structurally_equalb, structurally_equal.
  rewrite andb_true_iff, !bool_decide_eq_true. reflexivity.
Qed.

Lemma callsites_equal_spec (e cs : MVMCallsite) :
  callsite_wf e -> callsite_wf cs -> internable e -> internable cs ->
  flag_count e = flag_count cs ->
  callsites_equal e cs (flag_count cs) (MVM_callsite_num_nameds cs)
  = Some (structurally_equalb e cs).
Proof.
  intros He Hc Ie Ic Hfc. unfold callsites_equal, structurally_equalb.
  pose proof (wf_flag_count _ He) as Le. pose proof (wf_flag_count _ Hc) as Lc.
  assert (Hm : (if flag_count cs =? 0 then Some true
                else memcmp_eq (arg_flags e) (arg_flags cs) (Z.to_nat (flag_count cs)))
               = Some (bool_decide (arg_flags e = arg_flags cs))).
  { destruct (flag_count cs =? 0) eqn:Hz.
    - apply Z.eqb_eq in Hz. f_equal. symmetry. apply bool_decide_eq_true.
      assert (length (arg_flags e) = 0%nat) as E1 by lia.
      assert (length (arg_flags cs) = 0%nat) as E2 by lia.
      apply length_zero_iff_nil in E1, E2. congruence.
    - unfold memcmp_eq.
      replace (Z.to_nat (flag_count cs) <=? length (arg_flags e))%nat with true
        by (symmetry; apply Nat.leb_le; lia).
      replace (Z.to_nat (flag_count cs) <=? length (arg_flags cs))%nat with true
        by (symmetry; apply Nat.leb_le; lia).
      simpl. rewrite !take_ge by lia. reflexivity. }
  rewrite Hm. clear Hm.
  destruct (bool_decide (arg_flags e = arg_flags cs)) eqn:Hfl; simpl; [|reflexivity].
  apply bool_decide_eq_true in Hfl.
  destruct (wf_num_pos_of_flags e cs He Hc Hfl) as (Hnp & _ & _).
  destruct (Z_le_gt_dec (MVM_callsite_num_nameds cs) 0) as [Hk|Hk].
  - replace (Z.to_nat (MVM_callsite_num_nameds cs)) with 0%nat by lia. simpl.
    rewrite (names_of_nil cs Hc Hk).
    rewrite (names_of_nil e He) by (unfold MVM_callsite_num_nameds in *; lia).
    reflexivity.
  - destruct Ie as (_ & _ & Pe). destruct Ic as (_ & _ & Pc).
    destruct (Pc Hk) as [l2 Hl2].
    destruct Pe as [l1 Hl1]; [unfold MVM_callsite_num_nameds in *; lia|].
    pose proof (wf_names _ He _ Hl1) as N1. pose proof (wf_names _ Hc _ Hl2) as N2.
    unfold names_of. rewrite Hl1, Hl2. simpl.
    unfold MVM_callsite_num_nameds in *.
    rewrite names_equal_from_spec by (simpl; lia).
    rewrite !drop_0, !take_ge by lia. reflexivity.
Qed.

(** *** The search loop and [try_intern] on a well-formed store *)

Lemma find_intern_spec (h : list (option MVMCallsite)) (bucket : list ptr)
    (cs : MVMCallsite) :
  bucket_ok h bucket (flag_count cs) -> callsite_wf cs -> internable cs ->
  find_intern h bucket cs (flag_count cs) (MVM_callsite_num_nameds cs)
  = Some (first_match h bucket cs).
Proof.
  intros Hb Hwf Hi. induction bucket as [|q rest IH]; [reflexivity|].
  destruct (Hb q) as (e & He & We & Ie & Fe); [left|].
  cbn [find_intern first_match List.find]. rewrite He.
  rewrite (callsites_equal_spec e cs We Hwf Ie Hi Fe).
  destruct (structurally_equalb e cs); [reflexivity|].
  apply IH. intros q' Hq'. apply Hb. now right.
Qed.

Lemma internable_guards (cs : MVMCallsite) :
  internable cs ->
  negb (has_flattening cs =? 0) = false /\
  (flag_count cs >=? MVM_INTERN_ARITY_LIMIT) = false /\
  (MVM_callsite_num_nameds cs >? 0) && negb (bool_decide (is_Some (arg_names cs))) = false.
Proof.
  intros (Hf & Ha & Hn). repeat split.
  - rewrite Hf. reflexivity.
  - rewrite Z.geb_leb. apply Z.leb_gt. lia.
  - destruct (MVM_callsite_num_nameds cs >? 0) eqn:E; [|reflexivity]. simpl.
    rewrite bool_decide_true; [reflexivity|]. apply Hn. now apply Z.gtb_gt.
Qed.

Lemma store_bucket_exists (st : MVMInstance) (cs : MVMCallsite) :
  interns_wf st -> callsite_wf cs -> internable cs ->
  exists bucket, by_arity st !! Z.to_nat (flag_count cs) = Some bucket.
Proof.
  intros [Hlen _] Hwf (_ & Ha & _).
  apply lookup_lt_is_Some_2. rewrite Hlen.
  pose proof (wf_flag_count _ Hwf). lia.
Qed.

(** [try_intern] on an internable descriptor: the first structurally equal
    entry of its bucket replaces it (and it is freed), or it is appended to
    the bucket and marked. *)
Lemma try_intern_spec (st : MVMInstance) (p : ptr) (cs : MVMCallsite)
    (bucket : list ptr) :
  interns_wf st -> deref (heap st) p = Some cs -> callsite_wf cs -> internable cs ->
  by_arity st !! Z.to_nat (flag_count cs) = Some bucket ->
  MVM_callsite_try_intern st p
  = Some (match first_match (heap st) bucket cs with
          | Some q => (Build_MVMInstance (MVM_free (heap st) p) (by_arity st), q)
          | None =>
              (Build_MVMInstance
                 (<[p := Some (set_is_interned 1 cs)]> (heap st))
                 (<[Z.to_nat (flag_count cs) := bucket ++ [p]]> (by_arity st)), p)
          end).
Proof.
  intros Hst Hp Hwf Hi Hb. unfold MVM_callsite_try_intern. rewrite Hp.
  destruct (internable_guards cs Hi) as (G1 & G2 & G3). rewrite G1, G2, G3, Hb.
  rewrite find_intern_spec; auto.
  - destruct (first_match (heap st) bucket cs); reflexivity.
  - intros q Hq. destruct Hst as [_ Hst].
    destruct (Hst _ _ _ Hb Hq) as (e & He & We & Ie & Fe).
    exists e. split; [|split; [|split]]; auto. rewrite Fe.
    pose proof (wf_flag_count _ Hwf). lia.
Qed.

Lemma first_match_Some (h : list (option MVMCallsite)) (bucket : list ptr)
    (cs : MVMCallsite) (q : ptr) :
  first_match h bucket cs = Some q ->
  q ∈ bucket /\ exists e, deref h q = Some e /\ structurally_equal e cs.
Proof.
  unfold first_match. intros H. apply find_some in H. destruct H as [Hin Hq].
  split; [now apply list_elem_of_In|].
  destruct (deref h q) as [e|]; [|discriminate].
  exists e. split; [reflexivity|]. now apply structurally_equalb_spec.
Qed.

Lemma first_match_ext (h h' : list (option MVMCallsite)) (bucket : list ptr)
    (cs cs' : MVMCallsite) :
  (forall q, q ∈ bucket -> deref h' q = deref h q) ->
  structurally_equal cs cs' ->
  first_match h' bucket cs' = first_match h bucket cs.
Proof.
  intros Hh [Hf Hn]. unfold first_match.
  induction bucket as [|q rest IH]; [reflexivity|].
  cbn [List.find]. rewrite (Hh q) by left.
  assert (Hs : forall e, structurally_equalb e cs' = structurally_equalb e cs).
  { intros e. unfold structurally_equalb. now rewrite Hf, Hn. }
  destruct (deref h q) as [e|].
  - rewrite Hs. destruct (structurally_equalb e cs); [reflexivity|].
    apply IH. intros q' Hq'. apply Hh. now right.
  - apply IH. intros q' Hq'. apply Hh. now right.
Qed.

Lemma first_match_snoc (h : list (option MVMCallsite)) (bucket : list ptr)
    (cs e : MVMCallsite) (p : ptr) :
  first_match h bucket cs = None ->
  deref h p = Some e -> structurally_equal e cs ->
  first_match h (bucket ++ [p]) cs = Some p.
Proof.
  intros Hnone Hp He. unfold first_match in *.
  induction bucket as [|q rest IH]; cbn [List.find app] in *.
  - rewrite Hp. apply structurally_equalb_spec in He. now rewrite He.
  - destruct (match deref h q with Some e0 => structurally_equalb e0 cs | None => false end);
      [discriminate|]. now apply IH.
Qed.

Lemma set_is_interned_wf (v : Z) (cs : MVMCallsite) :
  callsite_wf cs -> callsite_wf (set_is_interned v cs).
Proof. intros [? ? ? ? ? ? ? ?]. constructor; assumption. Qed.

Lemma deref_insert_ne (h : list (option MVMCallsite)) (p r : ptr) (v : option MVMCallsite) :
  r <> p -> deref (<[p := v]> h) r = deref h r.
Proof.
  intros Hne. unfold deref. rewrite list_lookup_insert_ne by congruence. reflexivity.
Qed.

Lemma deref_insert_eq (h : list (option MVMCallsite)) (p : ptr) (v : option MVMCallsite) :
  (p < length h)%nat -> deref (<[p := v]> h) p = v.
Proof.
  intros Hlt. unfold deref. rewrite list_lookup_insert_eq by assumption. reflexivity.
Qed.

(** The two ways [try_intern] ends on an internable descriptor the store does
    not hold yet, with what each leaves behind. *)
Lemma try_intern_cases (st : MVMInstance) (p : ptr) (cs : MVMCallsite) :
  interns_wf st -> deref (heap st) p = Some cs -> callsite_wf cs -> internable cs ->
  ~ in_store st p ->
  exists bucket st' p',
    by_arity st !! Z.to_nat (flag_count cs) = Some bucket /\
    MVM_callsite_try_intern st p = Some (st', p') /\
    interns_wf st' /\
    length (heap st') = length (heap st) /\
    (forall r, r <> p -> deref (heap st') r = deref (heap st) r) /\
    ((first_match (heap st) bucket cs = Some p' /\ by_arity st' = by_arity st /\
      deref (heap st') p = None)
     \/
     (first_match (heap st) bucket cs = None /\ p' = p /\
      by_arity st' = <[Z.to_nat (flag_count cs) := bucket ++ [p]]> (by_arity st) /\
      deref (heap st') p = Some (set_is_interned 1 cs))).
Proof.
  intros Hst Hp Hwf Hi Hns.
  destruct (store_bucket_exists st cs Hst Hwf Hi) as [bucket Hb].
  pose proof (try_intern_spec st p cs bucket Hst Hp Hwf Hi Hb) as Hspec.
  pose proof (deref_lt _ _ _ Hp) as Hlt.
  exists bucket.
  destruct (first_match (heap st) bucket cs) as [q|] eqn:Hfm.
  - eexists _, q. split; [exact Hb|]. split; [exact Hspec|]. simpl.
    split; [|split; [|split]].
    + destruct Hst as [Hlen Hst]. split; [exact Hlen|]. simpl.
      intros n bk r Hn Hr. destruct (Hst n bk r Hn Hr) as (e & He & Hrest).
      exists e. split; [|exact Hrest].
      unfold MVM_free. rewrite deref_insert_ne; [exact He|].
      intros ->. apply Hns. now exists n, bk.
    + unfold MVM_free. now rewrite length_insert.
    + intros r Hr. unfold MVM_free. now apply deref_insert_ne.
    + left. split; [reflexivity|]. split; [reflexivity|].
      unfold MVM_free. now apply deref_insert_eq.
  - eexists _, p. split; [exact Hb|]. split; [exact Hspec|]. simpl.
    split; [|split; [|split]].
    + destruct Hst as [Hlen Hst]. split; [simpl; now rewrite length_insert|]. simpl.
      intros n bk r Hn Hr.
      destruct (decide (n = Z.to_nat (flag_count cs))) as [->|Hne].
      * rewrite list_lookup_insert_eq in Hn by (eapply lookup_lt_Some; eauto).
        inversion Hn; subst bk. apply elem_of_app in Hr. destruct Hr as [Hr|Hr].
        -- destruct (Hst _ _ r Hb Hr) as (e & He & Hrest).
           exists e. split; [|exact Hrest]. rewrite deref_insert_ne; [exact He|].
           intros ->. apply Hns. now exists (Z.to_nat (flag_count cs)), bucket.
        -- apply list_elem_of_singleton in Hr. subst r.
           exists (set_is_interned 1 cs). rewrite deref_insert_eq by assumption.
           split; [reflexivity|]. split; [now apply set_is_interned_wf|].
           split; [exact Hi|]. simpl.
           pose proof (wf_flag_count _ Hwf). lia.
      * rewrite list_lookup_insert_ne in Hn by congruence.
        destruct (Hst n bk r Hn Hr) as (e & He & Hrest).
        exists e. split; [|exact Hrest]. rewrite deref_insert_ne; [exact He|].
        intros ->. apply Hns. now exists n, bk.
    + now rewrite length_insert.
    + intros r Hr. now apply deref_insert_ne.
    + right. split; [reflexivity|]. split; [reflexivity|]. split; [reflexivity|].
      now apply deref_insert_eq.
Qed.

Lemma structurally_equal_sym (a b : MVMCallsite) :
  structurally_equal a b -> structurally_equal b a.
Proof. intros [? ?]. split; congruence. Qed.

Lemma structurally_equal_trans (a b c : MVMCallsite) :
  structurally_equal a b -> structurally_equal b c -> structurally_equal a c.
Proof. intros [? ?] [? ?]. split; congruence. Qed.

Lemma structurally_equal_interned (v : Z) (a : MVMCallsite) :
  structurally_equal (set_is_interned v a) a.
Proof. split; reflexivity. Qed.

(** C1 (intern identity): two distinct caller-owned descriptors [a] and [b],
    both well-formed, without flattening, of fewer than [ARITY_LIMIT] flags
    and with their names present, are interned one after the other; both calls
    return, and the two resulting pointers are equal exactly when the
    descriptors are structurally equal (same flag bytes, pairwise equal
    names). *)
Theorem intern_identity (st : MVMInstance) (a b : ptr) (ca cb : MVMCallsite) :
  interns_wf st ->
  deref (heap st) a = Some ca -> deref (heap st) b = Some cb ->
  a <> b -> ~ in_store st a -> ~ in_store st b ->
  callsite_wf ca -> callsite_wf cb -> internable ca -> internable cb ->
  exists st1 a' st2 b',
    MVM_callsite_try_intern st a = Some (st1, a') /\
    MVM_callsite_try_intern st1 b = Some (st2, b') /\
    (a' = b' <-> structurally_equal ca cb).
Proof.
  intros Hst Ha Hb Hab Hnsa Hnsb Wa Wb Ia Ib.
  destruct (try_intern_cases st a ca Hst Ha Wa Ia Hnsa)
    as (bka & st1 & a' & Hbka & Hta & Hst1 & Hlen1 & Hframe1 & Hcase1).
  assert (Hb1 : deref (heap st1) b = Some cb) by (rewrite Hframe1; auto).
  assert (Hnsb1 : ~ in_store st1 b).
  { intros (n & bk & Hn & Hin). destruct Hcase1 as [(_ & Hba & _)|(_ & _ & Hba & _)].
    - rewrite Hba in Hn. apply Hnsb. now exists n, bk.
    - rewrite Hba in Hn.
      destruct (decide (n = Z.to_nat (flag_count ca))) as [->|Hne].
      + rewrite list_lookup_insert_eq in Hn by (eapply lookup_lt_Some; eauto).
        inversion Hn; subst bk. apply elem_of_app in Hin. destruct Hin as [Hin|Hin].
        * apply Hnsb. now exists (Z.to_nat (flag_count ca)), bka.
        * apply list_elem_of_singleton in Hin. congruence.
      + rewrite list_lookup_insert_ne in Hn by congruence.
        apply Hnsb. now exists n, bk. }
  destruct (try_intern_cases st1 b cb Hst1 Hb1 Wb Ib Hnsb1)
    as (bkb & st2 & b' & Hbkb & Htb & Hst2 & Hlen2 & Hframe2 & Hcase2).
  exists st1, a', st2, b'. split; [exact Hta|]. split; [exact Htb|].
  (* what the first call's result points to, seen from [st1] *)
  assert (Ha' : exists ea, deref (heap st1) a' = Some ea /\ structurally_equal ea ca /\
                          in_store st1 a').
  { destruct Hcase1 as [(Hfm & Hba & _)|(_ & -> & Hba & Hd)].
    - destruct (first_match_Some _ _ _ _ Hfm) as (Hin & ea & Hea & Heq).
      exists ea. split; [|split; [exact Heq|]].
      + rewrite Hframe1; [exact Hea|]. intros ->. apply Hnsa.
        now exists (Z.to_nat (flag_count ca)), bka.
      + exists (Z.to_nat (flag_count ca)), bka. now rewrite Hba.
    - exists (set_is_interned 1 ca). split; [exact Hd|].
      split; [apply structurally_equal_interned|].
      exists (Z.to_nat (flag_count ca)), (bka ++ [a]). rewrite Hba. split.
      + apply list_lookup_insert_eq. eapply lookup_lt_Some; eauto.
      + apply elem_of_app. right. now apply list_elem_of_singleton. }
  destruct Ha' as (ea & Hea & Heqa & Hina).
  split.
  - (* equal pointers: the descriptors are structurally equal *)
    intros <-. destruct Hcase2 as [(Hfm & _ & _)|(_ & -> & _ & _)].
    + destruct (first_match_Some _ _ _ _ Hfm) as (_ & eb & Heb & Heqb).
      rewrite Hea in Heb. inversion Heb; subst eb.
      eapply structurally_equal_trans; [|exact Heqb].
      now apply structurally_equal_sym.
    + contradiction.
  - (* structurally equal descriptors: the same pointer *)
    intros Heq.
    assert (Hfc : flag_count cb = flag_count ca).
    { destruct Heq as [Hfl _].
      now destruct (wf_num_pos_of_flags ca cb Wa Wb Hfl) as (_ & -> & _). }
    rewrite Hfc in Hbkb.
    assert (Hfmb : first_match (heap st1) bkb cb = Some a').
    { destruct Hcase1 as [(Hfm & Hba & _)|(Hfm & -> & Hba & Hd)].
      - rewrite Hba, Hbka in Hbkb. inversion Hbkb; subst bkb.
        rewrite (first_match_ext (heap st) (heap st1) bka ca cb); auto.
        intros q Hq. apply Hframe1. intros ->. apply Hnsa.
        now exists (Z.to_nat (flag_count ca)), bka.
      - rewrite Hba in Hbkb.
        rewrite list_lookup_insert_eq in Hbkb by (eapply lookup_lt_Some; eauto).
        inversion Hbkb; subst bkb.
        eapply first_match_snoc; [|exact Hd|].
        + rewrite (first_match_ext (heap st) (heap st1) bka ca cb); auto.
          intros q Hq. apply Hframe1. intros ->. apply Hnsa.
          now exists (Z.to_nat (flag_count ca)), bka.
        + eapply structurally_equal_trans; [apply structurally_equal_interned|exact Heq]. }
    destruct Hcase2 as [(Hfm & _ & _)|(Hfm & _ & _ & _)]; congruence.
Qed.

(** *** The executable invariants are sound *)

Lemma positional_okb_sound (np : Z) (l : list Z) (i : nat) :
  positional_okb np i l = true ->
  forall j f, l !! j = Some f ->
    is_named_flag f = bool_decide (np <= Z.of_nat (i + j)).
Proof.
  revert i. induction l as [|x l IH]; intros i H j f Hj; [discriminate|].
  cbn [positional_okb] in H. apply andb_true_iff in H. destruct H as [H1 H2].
  destruct j as [|j]; simpl in Hj.
  - inversion Hj; subst x. apply Bool.eqb_prop in H1. rewrite H1.
    replace (i + 0)%nat with i by lia.
    destruct (Z.leb_spec np (Z.of_nat i)).
    + now rewrite bool_decide_true.
    + now rewrite bool_decide_false by lia.
  - replace (i + S j)%nat with (S i + j)%nat by lia. eapply IH; eauto.
Qed.

Lemma callsite_wfb_sound (cs : MVMCallsite) :
  callsite_wfb cs = true -> callsite_wf cs.
Proof.
  unfold callsite_wfb. rewrite !andb_true_iff.
  intros ((((((((H1 & H2) & H3) & H4) & H5) & H6) & H7) & H8) & H9).
  constructor.
  - now apply Z.eqb_eq.
  - now apply Z.ltb_lt.
  - intros i f Hf. rewrite forallb_forall in H3.
    assert (Hin : In f (arg_flags cs)).
    { apply list_elem_of_In. eapply list_elem_of_lookup_2; eauto. }
    specialize (H3 f Hin). apply andb_true_iff in H3. lia.
  - lia.
  - intros i f Hf. now apply (positional_okb_sound _ _ 0%nat H6 i f).
  - now apply Z.eqb_eq.
  - now apply Z.ltb_lt.
  - intros l Hl. rewrite Hl in H9. now apply Nat.eqb_eq.
Qed.

Lemma internableb_sound (cs : MVMCallsite) :
  internableb cs = true -> internable cs.
Proof.
  unfold internableb. rewrite !andb_true_iff, orb_true_iff.
  intros ((H1 & H2) & H3). split; [now apply Z.eqb_eq|]. split; [now apply Z.ltb_lt|].
  intros Hn. destruct H3 as [H3|H3]; [lia|].
  destruct (arg_names cs); [eauto|discriminate].
Qed.

Lemma buckets_okb_sound (h : list (option MVMCallsite)) (buckets : list (list ptr))
    (n : nat) :
  buckets_okb h n buckets = true ->
  forall k bucket q, buckets !! k = Some bucket -> q ∈ bucket ->
    exists e, deref h q = Some e /\ callsite_wf e /\ internable e /\
              flag_count e = Z.of_nat (n + k).
Proof.
  revert n. induction buckets as [|b rest IH]; intros n H k bucket q Hk Hq;
    [discriminate|].
  cbn [buckets_okb] in H. apply andb_true_iff in H. destruct H as [H1 H2].
  destruct k as [|k]; simpl in Hk.
  - inversion Hk; subst b. rewrite forallb_forall in H1.
    specialize (H1 q (proj1 (list_elem_of_In _ _) Hq)).
    destruct (deref h q) as [e|]; [|discriminate].
    rewrite !andb_true_iff in H1. destruct H1 as ((W & I) & F).
    exists e. split; [reflexivity|]. split; [now apply callsite_wfb_sound|].
    split; [now apply internableb_sound|].
    replace (n + 0)%nat with n by lia. now apply Z.eqb_eq.
  - replace (n + S k)%nat with (S n + k)%nat by lia. eapply IH; eauto.
Qed.

Lemma interns_wfb_sound (st : MVMInstance) :
  interns_wfb st = true -> interns_wf st.
Proof.
  unfold interns_wfb. rewrite andb_true_iff. intros [H1 H2]. split.
  - now apply Nat.eqb_eq.
  - intros n bucket q Hn Hq.
    exact (buckets_okb_sound _ _ 0%nat H2 n bucket q Hn Hq).
Qed.

Lemma in_storeb_sound (st : MVMInstance) (q : ptr) :
  in_storeb st q = false -> ~ in_store st q.
Proof.
  intros H (n & bucket & Hn & Hq).
  assert (in_storeb st q = true); [|congruence].
  unfold in_storeb. apply existsb_exists. exists bucket. split.
  - apply list_elem_of_In. eapply list_elem_of_lookup_2; eauto.
  - apply existsb_exists. exists q. split; [now apply list_elem_of_In|].
    apply Nat.eqb_refl.
Qed.

(** *** The copying loops of the derivation operators *)

Lemma lookup_remove_at {A} (i j : nat) (l : list A) :
  (i < length l)%nat ->
  remove_at i l !! j = if (j <? i)%nat then l !! j else l !! S j.
Proof.
  intros Hi. unfold remove_at.
  destruct (Nat.ltb_spec j i) as [Hj|Hj].
  - rewrite lookup_app_l by (rewrite length_take; lia).
    now rewrite lookup_take_lt.
  - rewrite lookup_app_r by (rewrite length_take; lia).
    rewrite length_take, lookup_drop. f_equal. lia.
Qed.

Lemma length_remove_at {A} (i : nat) (l : list A) :
  (i < length l)%nat -> length (remove_at i l) = (length l - 1)%nat.
Proof.
  intros Hi. unfold remove_at. rewrite length_app, length_take, length_drop. lia.
Qed.

Lemma lookup_insert_at {A} (i j : nat) (x : A) (l : list A) :
  (i <= length l)%nat ->
  insert_at i x l !! j
  = if (j <? i)%nat then l !! j
    else if (j =? i)%nat then Some x else l !! (j - 1)%nat.
Proof.
  intros Hi. unfold insert_at.
  destruct (Nat.ltb_spec j i) as [Hj|Hj].
  - rewrite lookup_app_l by (rewrite length_take; lia).
    now rewrite lookup_take_lt.
  - rewrite lookup_app_r by (rewrite length_take; lia).
    rewrite length_take. replace (i `min` length l)%nat with i by lia.
    destruct (Nat.eqb_spec j i) as [->|Hne].
    + now rewrite Nat.sub_diag.
    + destruct (j - i)%nat as [|k] eqn:Hk; [lia|]. simpl.
      rewrite lookup_drop. f_equal. lia.
Qed.

Lemma length_insert_at {A} (i : nat) (x : A) (l : list A) :
  (i <= length l)%nat -> length (insert_at i x l) = S (length l).
Proof.
  intros Hi. unfold insert_at. rewrite length_app, length_take. simpl.
  rewrite length_drop. lia.
Qed.

Lemma u8_byte (v : Z) : 0 <= v < 256 -> u8 v = v.
Proof. intros H. unfold u8. now apply Z.mod_small. Qed.

Lemma drop_loop_spec (src : list Z) (i : nat) (count from : nat) (dst : list Z) (to : nat) :
  (forall k f, src !! k = Some f -> 0 <= f < 256) ->
  (i < length src)%nat ->
  (from + count = length src)%nat ->
  S (length dst) = length src ->
  to = (if (from <=? i)%nat then from else from - 1)%nat ->
  exists D, drop_loop src (Z.of_nat i) from count dst to = Some D /\
            length D = length dst /\
            forall j, D !! j = if (j <? to)%nat then dst !! j else remove_at i src !! j.
Proof.
  intros Hbytes Hi. revert from dst to.
  induction count as [|c IH]; intros from dst to Hfc Hlen Hto.
  - exists dst. split; [reflexivity|]. split; [reflexivity|]. intros j.
    destruct (Nat.ltb_spec j to) as [Hj|Hj]; [reflexivity|].
    assert (from = length src) by lia. subst from.
    destruct (Nat.leb_spec (length src) i); [lia|].
    rewrite !lookup_ge_None_2; [reflexivity| |]; [rewrite length_remove_at|]; lia.
  - cbn [drop_loop].
    destruct (Z.eqb_spec (Z.of_nat from) (Z.of_nat i)) as [Heq|Hne].
    + apply Nat2Z.inj in Heq. subst from.
      rewrite Nat.leb_refl in Hto. subst to.
      destruct (IH (S i) dst i) as (D & HD & HL & Hlk); [lia|lia| |].
      * destruct (Nat.leb_spec (S i) i); lia.
      * exists D. auto.
    + assert (Hfi : from <> i) by congruence.
      destruct (lookup_lt_is_Some_2 src from) as [v Hv]; [lia|]. rewrite Hv.
      assert (Hto_lt : (to < length dst)%nat).
      { subst to. destruct (Nat.leb_spec from i); lia. }
      unfold store_flag. destruct (Nat.ltb_spec to (length dst)) as [_|?]; [|lia].
      rewrite (u8_byte v) by eauto.
      destruct (IH (S from) (<[to := v]> dst) (S to)) as (D & HD & HL & Hlk).
      * lia.
      * rewrite length_insert. lia.
      * subst to. destruct (Nat.leb_spec from i), (Nat.leb_spec (S from) i); lia.
      * exists D. split; [exact HD|]. split; [now rewrite HL, length_insert|].
        intros j. rewrite Hlk.
        destruct (Nat.ltb_spec j (S to)) as [Hj|Hj], (Nat.ltb_spec j to) as [Hj'|Hj'];
          try lia; try reflexivity.
        -- now rewrite list_lookup_insert_ne by lia.
        -- assert (j = to) by lia. subst j.
           rewrite list_lookup_insert_eq by lia.
           rewrite lookup_remove_at by lia. rewrite <- Hv.
           subst to. destruct (Nat.leb_spec from i) as [H1|H1].
           ++ destruct (Nat.ltb_spec from i); [reflexivity|lia].
           ++ destruct (Nat.ltb_spec (from - 1) i); [lia|]. f_equal. lia.
Qed.

Lemma insert_loop_spec (src : list Z) (i : nat) (flag : Z) (count from : nat)
    (dst : list Z) (to : nat) :
  (forall k f, src !! k = Some f -> 0 <= f < 256) ->
  (i <= length src)%nat ->
  (from + count = length src)%nat ->
  length dst = S (length src) ->
  to = (if (from <=? i)%nat then from else S from) ->
  let T := (if (i <? length src)%nat then S (length src) else length src) in
  exists D, insert_loop src (Z.of_nat i) flag from count dst to
            = Some (D, length src, T) /\
            length D = length dst /\
            forall j, D !! j = if (j <? to)%nat || (T <=? j)%nat then dst !! j
                               else insert_at i (u8 flag) src !! j.
Proof.
  intros Hbytes Hi. revert from dst to.
  induction count as [|c IH]; intros from dst to Hfc Hlen Hto T.
  - assert (from = length src) by lia. subst from.
    assert (HtoT : to = T).
    { subst to T. destruct (Nat.leb_spec (length src) i), (Nat.ltb_spec i (length src)); lia. }
    clear Hto. rewrite HtoT. exists dst. split; [reflexivity|]. split; [reflexivity|]. intros j.
    destruct (Nat.ltb_spec j T), (Nat.leb_spec T j); try lia; reflexivity.
  - cbn [insert_loop].
    destruct (lookup_lt_is_Some_2 src from) as [v Hv]; [lia|].
    assert (Hvb : u8 v = v) by (apply u8_byte; eauto).
    destruct (Z.eqb_spec (Z.of_nat from) (Z.of_nat i)) as [Heq|Hne].
    + apply Nat2Z.inj in Heq. subst from.
      rewrite Nat.leb_refl in Hto. subst to.
      assert (HT : T = S (length src)).
      { subst T. destruct (Nat.ltb_spec i (length src)); lia. }
      unfold store_flag at 1.
      destruct (Nat.ltb_spec i (length dst)) as [_|?]; [|lia]. cbn [option_map].
      rewrite Hv. unfold store_flag.
      rewrite length_insert.
      destruct (Nat.ltb_spec (S i) (length dst)) as [_|?]; [|lia].
      rewrite Hvb.
      destruct (IH (S i) (<[S i := v]> (<[i := u8 flag]> dst)) (S (S i)))
        as (D & HD & HL & Hlk).
      * lia.
      * rewrite !length_insert. lia.
      * destruct (Nat.leb_spec (S i) i); lia.
      * exists D. split; [exact HD|]. split; [now rewrite HL, !length_insert|].
        intros j. rewrite Hlk. fold T. rewrite HT.
        destruct (Nat.ltb_spec j (S (S i))) as [Hj|Hj], (Nat.ltb_spec j i) as [Hj'|Hj'],
          (Nat.leb_spec (S (length src)) j) as [Hj''|Hj'']; try lia; cbn [orb];
          try reflexivity.
        -- rewrite !list_lookup_insert_ne by lia. reflexivity.
        -- rewrite lookup_insert_at by lia.
           destruct (Nat.ltb_spec j i); [lia|].
           destruct (Nat.eqb_spec j i) as [->|Hji].
           ++ rewrite list_lookup_insert_ne by lia.
              now rewrite list_lookup_insert_eq by lia.
           ++ assert (j = S i) by lia. subst j.
              rewrite list_lookup_insert_eq by (rewrite length_insert; lia).
              rewrite <- Hv. f_equal. lia.
        -- rewrite !list_lookup_insert_ne by lia. reflexivity.
    + assert (Hfi : from <> i) by congruence.
      assert (Hto_lt : (to < T)%nat /\ (to < length dst)%nat).
      { subst to T. destruct (Nat.leb_spec from i), (Nat.ltb_spec i (length src)); lia. }
      rewrite Hv. unfold store_flag.
      destruct (Nat.ltb_spec to (length dst)) as [_|?]; [|lia].
      rewrite Hvb.
      destruct (IH (S from) (<[to := v]> dst) (S to)) as (D & HD & HL & Hlk).
      * lia.
      * rewrite length_insert. lia.
      * subst to. destruct (Nat.leb_spec from i), (Nat.leb_spec (S from) i); lia.
      * exists D. split; [exact HD|]. split; [now rewrite HL, length_insert|].
        intros j. rewrite Hlk. fold T.
        destruct (Nat.ltb_spec j (S to)) as [Hj|Hj], (Nat.ltb_spec j to) as [Hj'|Hj'],
          (Nat.leb_spec T j) as [Hj''|Hj'']; try lia; cbn [orb]; try reflexivity.
        -- now rewrite list_lookup_insert_ne by lia.
        -- assert (j = to) by lia. subst j.
           rewrite list_lookup_insert_eq by lia.
           rewrite lookup_insert_at by lia. rewrite <- Hv.
           subst to. destruct (Nat.leb_spec from i) as [H1|H1].
           ++ destruct (Nat.ltb_spec from i); [reflexivity|lia].
           ++ destruct (Nat.ltb_spec (S from) i); [lia|].
              destruct (Nat.eqb_spec (S from) i); [lia|]. f_equal. lia.
        -- now rewrite list_lookup_insert_ne by lia.
Qed.

(** *** Interning a freshly built descriptor *)

Lemma try_intern_guarded (st : MVMInstance) (p : ptr) (cs : MVMCallsite) :
  deref (heap st) p = Some cs ->
  has_flattening cs <> 0 \/ flag_count cs >= MVM_INTERN_ARITY_LIMIT \/
  (MVM_callsite_num_nameds cs > 0 /\ arg_names cs = None) ->
  MVM_callsite_try_intern st p = Some (st, p).
Proof.
  intros Hp Hg. unfold MVM_callsite_try_intern. rewrite Hp.
  destruct (has_flattening cs =? 0) eqn:Hf; [|reflexivity]. cbn [negb].
  apply Z.eqb_eq in Hf.
  destruct (flag_count cs >=? MVM_INTERN_ARITY_LIMIT) eqn:Ha; [reflexivity|].
  rewrite Z.geb_leb in Ha. apply Z.leb_gt in Ha.
  destruct Hg as [Hg|[Hg|[Hg1 Hg2]]]; [congruence|lia|].
  apply Z.gtb_gt in Hg1. rewrite Hg1, Hg2.
  rewrite bool_decide_false by (intros [? ?]; discriminate). reflexivity.
Qed.

Lemma internable_dec (cs : MVMCallsite) :
  has_flattening cs = 0 ->
  internable cs \/
  (flag_count cs >= MVM_INTERN_ARITY_LIMIT \/
   (MVM_callsite_num_nameds cs > 0 /\ arg_names cs = None)).
Proof.
  intros Hf. unfold internable.
  destruct (Z_lt_dec (flag_count cs) MVM_INTERN_ARITY_LIMIT) as [Ha|Ha]; [|right; left; lia].
  destruct (arg_names cs) as [l|] eqn:Hn.
  - left. split; [exact Hf|]. split; [exact Ha|]. eauto.
  - destruct (Z_gt_dec (MVM_callsite_num_nameds cs) 0) as [Hk|Hk].
    + right. right. auto.
    + left. split; [exact Hf|]. split; [exact Ha|]. intros; lia.
Qed.

(** A freshly allocated, well-formed, non-flattening descriptor [nc] is handed
    to [try_intern]: the call returns a live well-formed descriptor that is
    structurally equal to [nc], the store stays well-formed and the cells
    that were live before are untouched. *)
Lemma intern_fresh (st : MVMInstance) (nc : MVMCallsite) :
  interns_wf st -> callsite_wf nc -> has_flattening nc = 0 ->
  exists st' r c,
    MVM_callsite_try_intern
      (Build_MVMInstance (heap st ++ [Some nc]) (by_arity st)) (length (heap st))
    = Some (st', r) /\
    interns_wf st' /\ deref (heap st') r = Some c /\ callsite_wf c /\
    has_flattening c = 0 /\ structurally_equal c nc /\
    (forall p, (p < length (heap st))%nat -> deref (heap st') p = deref (heap st) p).
Proof.
  intros Hst Hwf Hf.
  set (st0 := Build_MVMInstance (heap st ++ [Some nc]) (by_arity st)).
  assert (Hst0 : interns_wf st0).
  { destruct Hst as [Hlen Hst]. split; [exact Hlen|]. simpl.
    intros n bk q Hn Hq. destruct (Hst n bk q Hn Hq) as (e & He & Hrest).
    exists e. split; [|exact Hrest].
    rewrite deref_malloc_old; [exact He|]. eapply deref_lt; eauto. }
  assert (Hq0 : deref (heap st0) (length (heap st)) = Some nc) by apply deref_malloc_new.
  assert (Hns : ~ in_store st0 (length (heap st))).
  { intros (n & bk & Hn & Hq). destruct Hst as [_ Hst].
    destruct (Hst n bk _ Hn Hq) as (e & He & _). apply deref_lt in He. lia. }
  destruct (internable_dec nc Hf) as [Hi|Hg].
  - destruct (try_intern_cases st0 _ nc Hst0 Hq0 Hwf Hi Hns)
      as (bk & st' & r & Hbk & Ht & Hst' & Hlen' & Hframe & Hcase).
    exists st', r.
    assert (Hold : forall p, (p < length (heap st))%nat ->
                     deref (heap st') p = deref (heap st) p).
    { intros p Hp. rewrite Hframe by lia. simpl. now apply deref_malloc_old. }
    destruct Hcase as [(Hfm & Hba & _)|(_ & -> & _ & Hd)].
    + destruct (first_match_Some _ _ _ _ Hfm) as (Hin & e & He & Heq).
      destruct Hst0 as [_ Hst0]. destruct (Hst0 _ _ _ Hbk Hin) as (e' & He' & We & Ie & _).
      rewrite He in He'. inversion He'; subst e'.
      exists e. split; [exact Ht|]. split; [exact Hst'|].
      split.
      { rewrite Hframe; [exact He|]. intros ->. apply Hns.
        now exists (Z.to_nat (flag_count nc)), bk. }
      split; [exact We|]. split; [apply Ie|]. split; [exact Heq|exact Hold].
    + exists (set_is_interned 1 nc). split; [exact Ht|]. split; [exact Hst'|].
      split; [exact Hd|]. split; [now apply set_is_interned_wf|].
      split; [exact Hf|]. split; [apply structurally_equal_interned|exact Hold].
  - exists st0, (length (heap st)), nc.
    split; [apply try_intern_guarded with (cs := nc); auto|].
    split; [exact Hst0|]. split; [exact Hq0|]. split; [exact Hwf|].
    split; [exact Hf|]. split; [split; reflexivity|].
    intros p Hp. simpl. now apply deref_malloc_old.
Qed.

(** *** [drop_positional] *)

Lemma u16_small (v : Z) : 0 <= v < 65536 -> u16 v = v.
Proof. intros H. unfold u16. now apply Z.mod_small. Qed.

Lemma u32_small (v : Z) : 0 <= v < 4294967296 -> u32 v = v.
Proof. intros H. unfold u32. now apply Z.mod_small. Qed.

Lemma copy_nameds_wf (to from : MVMCallsite) :
  callsite_wf from ->
  copy_nameds to from
  = Some (Build_MVMCallsite (arg_flags to) (flag_count to) (arg_count to)
            (num_pos to) (has_flattening to) (is_interned to)
            (with_invocant to)
            (match arg_names from with Some l => Some l | None => arg_names to end)).
Proof.
  intros Hwf. unfold copy_nameds. destruct (arg_names from) as [l|] eqn:Hl.
  - pose proof (wf_names _ Hwf _ Hl) as Hlen.
    pose proof (wf_num_pos _ Hwf). pose proof (wf_flag_count_u16 _ Hwf).
    rewrite u32_small by lia.
    destruct (Nat.leb_spec (Z.to_nat (flag_count from - num_pos from)) (length l)); [|lia].
    now rewrite take_ge by lia.
  - now destruct to.
Qed.

Lemma drop_positional_built (st : MVMInstance) (p : ptr) (cs : MVMCallsite) (idx : Z) :
  deref (heap st) p = Some cs -> callsite_wf cs ->
  0 <= idx < num_pos cs -> has_flattening cs = 0 ->
  exists nc,
    MVM_callsite_drop_positional st p idx
    = of_option (MVM_callsite_try_intern
                   (Build_MVMInstance (heap st ++ [Some nc]) (by_arity st))
                   (length (heap st))) /\
    callsite_wf nc /\ has_flattening nc = 0 /\
    arg_flags nc = remove_at (Z.to_nat idx) (arg_flags cs) /\
    num_pos nc = num_pos cs - 1 /\ flag_count nc = flag_count cs - 1 /\
    arg_count nc = arg_count cs - 1 /\ arg_names nc = arg_names cs.
Proof.
  intros Hp Hwf Hidx Hf.
  pose proof (wf_flag_count _ Hwf) as Hfc. pose proof (wf_flag_count_u16 _ Hwf) as Hfc16.
  pose proof (wf_num_pos _ Hwf) as Hnp. pose proof (wf_arg_count _ Hwf) as Hac.
  pose proof (wf_arg_count_u16 _ Hwf) as Hac16.
  set (i := Z.to_nat idx).
  assert (Hi : (i < length (arg_flags cs))%nat) by lia.
  destruct (drop_loop_spec (arg_flags cs) i (Z.to_nat (flag_count cs)) 0%nat
              (replicate (Z.to_nat (flag_count cs - 1)) 0) 0%nat)
    as (D & HD & HL & Hlk).
  { apply (wf_bytes _ Hwf). }
  { exact Hi. }
  { lia. }
  { rewrite length_replicate. lia. }
  { reflexivity. }
  assert (HDeq : D = remove_at i (arg_flags cs)).
  { apply list_eq. intros j. rewrite Hlk. reflexivity. }
  subst D.
  replace (Z.of_nat i) with idx in HD by lia.
  exists (Build_MVMCallsite (remove_at i (arg_flags cs)) (flag_count cs - 1)
            (arg_count cs - 1) (num_pos cs - 1) 0 0 None (arg_names cs)).
  split.
  - unfold MVM_callsite_drop_positional. rewrite Hp. cbn [of_option obind].
    destruct (Z.geb_spec idx (num_pos cs)) as [?|_]; [lia|].
    rewrite Hf. cbn [Z.eqb negb].
    rewrite !u16_small by lia. rewrite HD. cbn [of_option obind].
    rewrite copy_nameds_wf by assumption. cbn [of_option obind].
    cbn [arg_flags flag_count arg_count num_pos has_flattening is_interned
         with_invocant arg_names MVM_malloc].
    now destruct (arg_names cs).
  - split; [|cbn; repeat split; reflexivity].
    constructor; cbn [arg_flags flag_count arg_count num_pos arg_names].
    + rewrite length_remove_at by assumption. lia.
    + lia.
    + intros j f Hj. rewrite lookup_remove_at in Hj by assumption.
      destruct (j <? i)%nat; eapply (wf_bytes _ Hwf); eauto.
    + lia.
    + intros j f Hj. rewrite lookup_remove_at in Hj by assumption.
      destruct (Nat.ltb_spec j i) as [Hji|Hji].
      * rewrite (wf_positional _ Hwf _ _ Hj).
        rewrite !bool_decide_false by lia. reflexivity.
      * rewrite (wf_positional _ Hwf _ _ Hj). apply bool_decide_ext. lia.
    + lia.
    + lia.
    + intros l Hl. rewrite (wf_names _ Hwf _ Hl). lia.
Qed.

Lemma drop_positional_ok (st : MVMInstance) (p : ptr) (cs : MVMCallsite) (idx : Z) :
  interns_wf st -> deref (heap st) p = Some cs -> callsite_wf cs ->
  0 <= idx < num_pos cs -> has_flattening cs = 0 ->
  exists st' r c,
    MVM_callsite_drop_positional st p idx = Ok (st', r) /\
    interns_wf st' /\ deref (heap st') r = Some c /\ callsite_wf c /\
    has_flattening c = 0 /\
    arg_flags c = remove_at (Z.to_nat idx) (arg_flags cs) /\
    num_pos c = num_pos cs - 1 /\ flag_count c = flag_count cs - 1 /\
    arg_count c = arg_count cs - 1 /\ names_of c = names_of cs.
Proof.
  intros Hst Hp Hwf Hidx Hf.
  destruct (drop_positional_built st p cs idx Hp Hwf Hidx Hf)
    as (nc & Hrun & Wnc & Fnc & Hfl & Hnp & Hfc & Hac & Hnm).
  destruct (intern_fresh st nc Hst Wnc Fnc)
    as (st' & r & c & Ht & Hst' & Hr & Wc & Fc & [Efl Enm] & _).
  exists st', r, c. rewrite Hrun, Ht. split; [reflexivity|].
  destruct (wf_num_pos_of_flags c nc Wc Wnc Efl) as (E1 & E2 & E3).
  repeat (split; [first [assumption | congruence]|]).
  rewrite Enm. unfold names_of. now rewrite Hnm.
Qed.

(** C8: [drop_positional] throws [OutOfRange] exactly when
    [idx >= num_pos] (this test comes first), throws [HasFlattening] exactly
    when the index is in range and the descriptor has flattening, and
    otherwise returns a live descriptor whose flags are those of [cs] without
    position [idx], whose [num_pos], [flag_count] and [arg_count] are one
    smaller, and whose names are those of [cs]. *)
Theorem drop_positional_spec (st : MVMInstance) (p : ptr) (cs : MVMCallsite) (idx : Z) :
  interns_wf st -> deref (heap st) p = Some cs -> callsite_wf cs -> 0 <= idx ->
  (MVM_callsite_drop_positional st p idx = Throw OutOfRange <-> idx >= num_pos cs) /\
  (MVM_callsite_drop_positional st p idx = Throw HasFlattening <->
   idx < num_pos cs /\ has_flattening cs <> 0) /\
  (idx < num_pos cs -> has_flattening cs = 0 ->
   exists st' r c,
     MVM_callsite_drop_positional st p idx = Ok (st', r) /\
     deref (heap st') r = Some c /\
     arg_flags c = remove_at (Z.to_nat idx) (arg_flags cs) /\
     num_pos c = num_pos cs - 1 /\ flag_count c = flag_count cs - 1 /\
     arg_count c = arg_count cs - 1 /\ names_of c = names_of cs).
Proof.
  intros Hst Hp Hwf Hidx.
  assert (Hrange : idx >= num_pos cs ->
                   MVM_callsite_drop_positional st p idx = Throw OutOfRange).
  { intros H. unfold MVM_callsite_drop_positional. rewrite Hp. cbn [of_option obind].
    destruct (Z.geb_spec idx (num_pos cs)); [reflexivity|lia]. }
  assert (Hflat : idx < num_pos cs -> has_flattening cs <> 0 ->
                  MVM_callsite_drop_positional st p idx = Throw HasFlattening).
  { intros H H'. unfold MVM_callsite_drop_positional. rewrite Hp. cbn [of_option obind].
    destruct (Z.geb_spec idx (num_pos cs)); [lia|].
    destruct (Z.eqb_spec (has_flattening cs) 0); [contradiction|reflexivity]. }
  assert (Hok : idx < num_pos cs -> has_flattening cs = 0 ->
                exists st' r c,
                  MVM_callsite_drop_positional st p idx = Ok (st', r) /\
                  deref (heap st') r = Some c /\
                  arg_flags c = remove_at (Z.to_nat idx) (arg_flags cs) /\
                  num_pos c = num_pos cs - 1 /\ flag_count c = flag_count cs - 1 /\
                  arg_count c = arg_count cs - 1 /\ names_of c = names_of cs).
  { intros H H'.
    destruct (drop_positional_ok st p cs idx Hst Hp Hwf (conj Hidx H) H')
      as (st' & r & c & E & _ & Hr & _ & _ & R).
    exists st', r, c. auto. }
  split; [|split; [|exact Hok]].
  - split; [|exact Hrange]. intros E.
    destruct (Z_lt_ge_dec idx (num_pos cs)) as [Hlt|Hge]; [exfalso|exact Hge].
    destruct (Z.eq_dec (has_flattening cs) 0) as [Hz|Hnz].
    + destruct (Hok Hlt Hz) as (? & ? & ? & E' & _). congruence.
    + rewrite (Hflat Hlt Hnz) in E. discriminate.
  - split; [|intros [H H']; now apply Hflat]. intros E.
    destruct (Z_lt_ge_dec idx (num_pos cs)) as [Hlt|Hge].
    + split; [exact Hlt|]. intros Hz.
      destruct (Hok Hlt Hz) as (? & ? & ? & E' & _). congruence.
    + rewrite (Hrange Hge) in E. discriminate.
Qed.

(** *** [insert_positional] *)

Lemma insert_positional_built (st : MVMInstance) (p : ptr) (cs : MVMCallsite)
    (idx flag : Z) :
  deref (heap st) p = Some cs -> callsite_wf cs ->
  0 <= idx <= num_pos cs -> has_flattening cs = 0 ->
  0 <= flag < 256 -> is_named_flag flag = false ->
  flag_count cs + 1 < 65536 -> arg_count cs + 1 < 65536 ->
  exists nc,
    MVM_callsite_insert_positional st p idx flag
    = of_option (MVM_callsite_try_intern
                   (Build_MVMInstance (heap st ++ [Some nc]) (by_arity st))
                   (length (heap st))) /\
    callsite_wf nc /\ has_flattening nc = 0 /\
    arg_flags nc = insert_at (Z.to_nat idx) flag (arg_flags cs) /\
    arg_names nc = arg_names cs.
Proof.
  intros Hp Hwf Hidx Hf Hflag Hpos Hfc16 Hac16.
  pose proof (wf_flag_count _ Hwf) as Hfc.
  pose proof (wf_num_pos _ Hwf) as Hnp. pose proof (wf_arg_count _ Hwf) as Hac.
  set (i := Z.to_nat idx).
  assert (Hi : (i <= length (arg_flags cs))%nat) by lia.
  destruct (insert_loop_spec (arg_flags cs) i flag (Z.to_nat (flag_count cs)) 0%nat
              (replicate (Z.to_nat (flag_count cs + 1)) 0) 0%nat)
    as (D & HD & HL & Hlk).
  { apply (wf_bytes _ Hwf). }
  { exact Hi. }
  { lia. }
  { rewrite length_replicate. lia. }
  { reflexivity. }
  rewrite length_replicate in HL.
  rewrite (u8_byte flag Hflag) in Hlk.
  replace (Z.of_nat i) with idx in HD by lia.
  set (I := insert_at i flag (arg_flags cs)).
  assert (Hfinal : (if Z.of_nat (length (arg_flags cs)) =? idx
                    then store_flag D
                           (if (i <? length (arg_flags cs))%nat
                            then S (length (arg_flags cs)) else length (arg_flags cs)) flag
                    else Some D) = Some I).
  { destruct (Z.eqb_spec (Z.of_nat (length (arg_flags cs))) idx) as [He|Hne].
    - assert (i = length (arg_flags cs)) by lia.
      destruct (Nat.ltb_spec i (length (arg_flags cs))) as [?|_]; [lia|].
      unfold store_flag. destruct (Nat.ltb_spec (length (arg_flags cs)) (length D)); [|lia].
      rewrite (u8_byte flag Hflag). f_equal. apply list_eq. intros j.
      destruct (decide (j = length (arg_flags cs))) as [->|Hj].
      + rewrite list_lookup_insert_eq by lia. unfold I.
        rewrite lookup_insert_at by lia.
        destruct (Nat.ltb_spec (length (arg_flags cs)) i); [lia|].
        destruct (Nat.eqb_spec (length (arg_flags cs)) i); [reflexivity|lia].
      + rewrite list_lookup_insert_ne by congruence. rewrite Hlk.
        destruct (Nat.ltb_spec i (length (arg_flags cs))) as [?|_]; [lia|].
        replace (j <? 0)%nat with false by (symmetry; apply Nat.ltb_ge; lia).
        cbn [orb].
        destruct (Nat.leb_spec (length (arg_flags cs)) j) as [Hge|Hlt]; [|reflexivity].
        rewrite !lookup_ge_None_2; [reflexivity| |].
        * unfold I. rewrite length_insert_at by lia. lia.
        * rewrite length_replicate. lia.
    - assert (i < length (arg_flags cs))%nat by lia.
      f_equal. apply list_eq. intros j. rewrite Hlk.
      destruct (Nat.ltb_spec i (length (arg_flags cs))) as [_|?]; [|lia].
      replace (j <? 0)%nat with false by (symmetry; apply Nat.ltb_ge; lia).
      cbn [orb].
      destruct (Nat.leb_spec (S (length (arg_flags cs))) j) as [Hge|Hlt]; [|reflexivity].
      rewrite !lookup_ge_None_2; [reflexivity| |].
      + unfold I. rewrite length_insert_at by lia. lia.
      + rewrite length_replicate. lia. }
  exists (Build_MVMCallsite I (flag_count cs + 1) (arg_count cs + 1) (num_pos cs + 1)
            0 0 None (arg_names cs)).
  split.
  - unfold MVM_callsite_insert_positional. rewrite Hp. cbn [of_option obind].
    destruct (Z.gtb_spec idx (num_pos cs)) as [?|_]; [lia|].
    rewrite Hf. cbn [Z.eqb negb].
    rewrite !u16_small by lia. rewrite HD. cbn [of_option obind].
    rewrite Hfinal. cbn [of_option obind].
    rewrite copy_nameds_wf by assumption. cbn [of_option obind].
    cbn [arg_flags flag_count arg_count num_pos has_flattening is_interned
         with_invocant arg_names MVM_malloc].
    now destruct (arg_names cs).
  - split; [|cbn; repeat split; reflexivity].
    constructor; cbn [arg_flags flag_count arg_count num_pos arg_names].
    + unfold I. rewrite length_insert_at by assumption. lia.
    + lia.
    + intros j f Hj. unfold I in Hj. rewrite lookup_insert_at in Hj by assumption.
      destruct (j <? i)%nat; [eapply (wf_bytes _ Hwf); eauto|].
      destruct (j =? i)%nat; [inversion Hj; subst; lia|eapply (wf_bytes _ Hwf); eauto].
    + lia.
    + intros j f Hj. unfold I in Hj. rewrite lookup_insert_at in Hj by assumption.
      destruct (Nat.ltb_spec j i) as [Hji|Hji].
      * rewrite (wf_positional _ Hwf _ _ Hj).
        rewrite !bool_decide_false by lia. reflexivity.
      * destruct (Nat.eqb_spec j i) as [->|Hne].
        -- inversion Hj; subst f. rewrite Hpos.
           now rewrite bool_decide_false by lia.
        -- rewrite (wf_positional _ Hwf _ _ Hj). apply bool_decide_ext. lia.
    + lia.
    + lia.
    + intros l Hl. rewrite (wf_names _ Hwf _ Hl). lia.
Qed.

Lemma insert_at_remove_at {A} (i : nat) (x : A) (l : list A) :
  l !! i = Some x -> insert_at i x (remove_at i l) = l.
Proof.
  intros Hx. pose proof (lookup_lt_Some _ _ _ Hx) as Hi.
  apply list_eq. intros j.
  rewrite lookup_insert_at by (rewrite length_remove_at; lia).
  destruct (Nat.ltb_spec j i) as [Hj|Hj].
  - rewrite lookup_remove_at by lia.
    destruct (Nat.ltb_spec j i); [reflexivity|lia].
  - destruct (Nat.eqb_spec j i) as [->|Hne]; [now rewrite Hx|].
    rewrite lookup_remove_at by lia.
    destruct (Nat.ltb_spec (j - 1) i); [lia|]. f_equal. lia.
Qed.

(** C9 (derivation soundness): for a well-formed descriptor [cs] without
    flattening and an index below [num_pos], dropping the positional at
    [idx] and inserting [cs->arg_flags[idx]] back at [idx] both return, and
    the resulting descriptor is interned-equal to [cs]: the same flag bytes
    and pairwise equal names. *)
Theorem derivation_soundness (st : MVMInstance) (p : ptr) (cs : MVMCallsite)
    (idx flag : Z) :
  interns_wf st -> deref (heap st) p = Some cs -> callsite_wf cs ->
  0 <= idx < num_pos cs -> has_flattening cs = 0 ->
  arg_flags cs !! Z.to_nat idx = Some flag ->
  exists st1 r st2 r' c',
    MVM_callsite_drop_positional st p idx = Ok (st1, r) /\
    MVM_callsite_insert_positional st1 r idx flag = Ok (st2, r') /\
    deref (heap st2) r' = Some c' /\
    structurally_equal c' cs.
Proof.
  intros Hst Hp Hwf Hidx Hf Hflag.
  destruct (drop_positional_ok st p cs idx Hst Hp Hwf Hidx Hf)
    as (st1 & r & c & Hdrop & Hst1 & Hr & Wc & Fc & Hfl & Hnp & Hfc & Hac & Hnm).
  pose proof (wf_flag_count_u16 _ Hwf). pose proof (wf_arg_count_u16 _ Hwf).
  assert (Hpos : is_named_flag flag = false).
  { rewrite (wf_positional _ Hwf _ _ Hflag). apply bool_decide_eq_false. lia. }
  destruct (insert_positional_built st1 r c idx flag Hr Wc) as
    (nc & Hrun & Wnc & Fnc & Hfl' & Hnm'); try lia; auto.
  { eapply (wf_bytes _ Hwf); eauto. }
  destruct (intern_fresh st1 nc Hst1 Wnc Fnc)
    as (st2 & r' & c' & Ht & _ & Hr' & _ & _ & [Efl Enm] & _).
  exists st1, r, st2, r', c'. split; [exact Hdrop|].
  split; [now rewrite Hrun, Ht|]. split; [exact Hr'|].
  split.
  - rewrite Efl, Hfl', Hfl. now apply insert_at_remove_at.
  - rewrite Enm. unfold names_of in *. now rewrite Hnm'.
Qed.

(** *** Concrete instances *)

Lemma intern_identity_witness :
  exists st1 a' st2 b',
    MVM_callsite_try_intern demo_state 1%nat = Some (st1, a') /\
    MVM_callsite_try_intern st1 2%nat = Some (st2, b') /\
    (a' = b' <-> structurally_equal obj_int_str obj_int_str).
Proof.
  apply (intern_identity demo_state 1%nat 2%nat obj_int_str obj_int_str).
  - apply interns_wfb_sound. vm_compute. reflexivity.
  - reflexivity.
  - reflexivity.
  - lia.
  - apply in_storeb_sound. vm_compute. reflexivity.
  - apply in_storeb_sound. vm_compute. reflexivity.
  - apply callsite_wfb_sound. vm_compute. reflexivity.
  - apply callsite_wfb_sound. vm_compute. reflexivity.
  - apply internableb_sound. vm_compute. reflexivity.
  - apply internableb_sound. vm_compute. reflexivity.
Defined.

Lemma try_intern_noop_iff_witness :
  MVM_callsite_try_intern demo_state 3%nat = Some (demo_state, 3%nat) <->
  (has_flattening flattening_obj <> 0 \/
   flag_count flattening_obj >= MVM_INTERN_ARITY_LIMIT \/
   (MVM_callsite_num_nameds flattening_obj > 0 /\ arg_names flattening_obj = None)).
Proof.
  apply (try_intern_noop_iff demo_state 3%nat flattening_obj). reflexivity.
Defined.

Lemma drop_positional_spec_witness :
  exists st' r c,
    MVM_callsite_drop_positional demo_state 1%nat 1 = Ok (st', r) /\
    deref (heap st') r = Some c /\
    arg_flags c = [1; 8] /\
    num_pos c = 2 /\ flag_count c = 2 /\ arg_count c = 2 /\ names_of c = [].
Proof.
  refine (proj2 (proj2 (drop_positional_spec demo_state 1%nat obj_int_str 1 _ _ _ _)) _ _).
  - apply interns_wfb_sound. vm_compute. reflexivity.
  - reflexivity.
  - apply callsite_wfb_sound. vm_compute. reflexivity.
  - lia.
  - simpl. lia.
  - reflexivity.
Defined.

Lemma derivation_soundness_witness :
  exists st1 r st2 r' c',
    MVM_callsite_drop_positional demo_state 1%nat 1 = Ok (st1, r) /\
    MVM_callsite_insert_positional st1 r 1 2 = Ok (st2, r') /\
    deref (heap st2) r' = Some c' /\
    structurally_equal c' obj_int_str.
Proof.
  apply (derivation_soundness demo_state 1%nat obj_int_str 1 2).
  - apply interns_wfb_sound. vm_compute. reflexivity.
  - reflexivity.
  - apply callsite_wfb_sound. vm_compute. reflexivity.
  - simpl. lia.
  - reflexivity.
  - reflexivity.
Defined.

(** The specification's scenario 4: dropping position 1 of [OBJ, INT, STR]
    returns the descriptor [OBJ, STR] that the store already holds. *)
Example drop_positional_scenario :
  exists st', MVM_callsite_drop_positional demo_state 1%nat 1 = Ok (st', 0%nat).
Proof. eexists. vm_compute. reflexivity. Qed.

End CallsiteProperties.

(* ===================================================================== *)
(** * Properties of the index hash table *)
(* ===================================================================== *)

Section HashProperties.
Import IndexHash.

Variable MVM_string_hash_code : string -> Z.

Lemma official_size_pow2 (c : MVMIndexHashTableControl) :
  0 <= official_size_log2 c ->
  MVM_index_hash_official_size c = 2 ^ official_size_log2 c.
Proof.
  intros H. unfold MVM_index_hash_official_size.
  rewrite Z.shiftl_mul_pow2 by assumption. lia.
Qed.

Lemma pow2_bounds (k : Z) : 3 <= k < 31 -> 8 <= 2 ^ k <= 1073741824.
Proof.
  intros H. split.
  - change 8 with (2 ^ 3). apply Z.pow_le_mono_r; lia.
  - change 1073741824 with (2 ^ 30). apply Z.pow_le_mono_r; lia.
Qed.

Lemma pow2_mult4 (k : Z) : 2 <= k -> 2 ^ k = 4 * 2 ^ (k - 2).
Proof.
  intros H. replace k with (2 + (k - 2)) at 1 by lia.
  rewrite Z.pow_add_r by lia. reflexivity.
Qed.

Lemma occupied_app (md1 md2 e1 e2 : list Z) :
  length md1 = length e1 ->
  occupied (md1 ++ md2) (e1 ++ e2) = occupied md1 e1 ++ occupied md2 e2.
Proof.
  revert e1. induction md1 as [|m md1 IH]; intros [|e e1] Hlen; try discriminate.
  - reflexivity.
  - simpl in *. rewrite IH by lia. now destruct (m =? 0).
Qed.

Lemma occupied_zeros (n : nat) (tl e2 : list Z) :
  occupied (replicate n 0 ++ tl) (replicate n 0 ++ e2) = occupied tl e2.
Proof. induction n as [|n IH]; [reflexivity|]. simpl. exact IH. Qed.

Lemma lookup_replicate_app_sentinel (n i : nat) (m : Z) :
  (replicate n 0 ++ [1]) !! i = Some m -> (i < n)%nat -> m = 0.
Proof.
  intros H Hi. rewrite lookup_app_l in H by (rewrite length_replicate; lia).
  apply lookup_replicate in H. tauto.
Qed.

(** A fresh table of an admissible size satisfies the invariant and is
    empty. *)
Lemma hash_allocate_common_inv (log2 : Z) :
  3 <= log2 < 31 ->
  exists c, hash_allocate_common (64 - log2) log2 = Ok c /\
            table_inv c /\ contents c = [] /\
            official_size_log2 c = log2 /\ key_right_shift c = 64 - log2 /\
            cur_items c = 0 /\ 0 < max_items c.
Proof.
  intros Hk. unfold hash_allocate_common.
  destruct (Z.ltb_spec log2 31) as [_|?]; [|lia].
  rewrite Z.shiftl_mul_pow2 by lia. rewrite Z.mul_1_l.
  pose proof (pow2_bounds log2 Hk) as HS.
  rewrite (pow2_mult4 log2) in * by lia.
  set (w := 2 ^ (log2 - 2)) in *.
  replace (4 * w * LOAD_FACTOR_NUM / LOAD_FACTOR_DEN) with (3 * w).
  2:{ unfold LOAD_FACTOR_NUM, LOAD_FACTOR_DEN.
      replace (4 * w * 3) with (3 * w * 4) by lia. now rewrite Z.div_mul. }
  rewrite (u32_small (3 * w - 1)) by lia.
  set (L := if MVM_HASH_MAX_PROBE_DISTANCE - 1 <? 3 * w - 1
            then u8 (MVM_HASH_MAX_PROBE_DISTANCE - 1) else u8 (3 * w - 1)).
  assert (HL : 1 <= L <= 254 /\ L < 3 * w).
  { subst L. unfold MVM_HASH_MAX_PROBE_DISTANCE.
    destruct (Z.ltb_spec (255 - 1) (3 * w - 1)).
    - change (u8 (255 - 1)) with 254. lia.
    - unfold u8. rewrite Z.mod_small by lia. lia. }
  eexists. split; [reflexivity|].
  split; [|split; [|repeat split; cbn; lia]].
  - constructor; cbn [official_size_log2 key_right_shift max_items cur_items
                      max_probe_distance max_probe_distance_limit metadata entries];
      unfold allocated_items, MVM_index_hash_official_size;
      cbn [official_size_log2 max_probe_distance_limit];
      rewrite ?Z.shiftl_mul_pow2, ?Z.mul_1_l by lia;
      rewrite ?(pow2_mult4 log2) by lia; fold w.
    + lia.
    + reflexivity.
    + reflexivity.
    + lia.
    + right. lia.
    + lia.
    + rewrite length_app, length_replicate. simpl. lia.
    + rewrite length_replicate. lia.
    + intros i m Hm Hi. apply lookup_replicate_app_sentinel in Hm; [|lia]. subst m.
      split; [lia|]. intros; lia.
    + intros _ i m Hm Hi. apply lookup_replicate_app_sentinel in Hm; lia.
  - unfold contents. cbn [metadata entries].
    rewrite <- (app_nil_r (replicate _ 0)) at 2. rewrite occupied_zeros. reflexivity.
Qed.

(** The home slot of any key lies in the official part of the table. *)
Lemma home_slot_bound (c : MVMIndexHashTableControl) (key : string) :
  table_inv c ->
  Z.of_nat (fst (MVM_index_hash_create_loop_state MVM_string_hash_code c key))
  < MVM_index_hash_official_size c.
Proof.
  intros Hinv. pose proof (inv_log2 _ Hinv) as Hk.
  rewrite official_size_pow2 by lia.
  unfold MVM_index_hash_create_loop_state. cbn [fst].
  rewrite (inv_shift _ Hinv).
  set (h := MVM_string_hash_code key mod 2 ^ 64).
  assert (Hh : 0 <= h < 2 ^ 64) by (apply Z.mod_pos_bound; lia).
  rewrite Z.shiftr_div_pow2 by lia.
  assert (0 <= h / 2 ^ (64 - official_size_log2 c)).
  { apply Z.div_pos; [lia|]. apply Z.pow_pos_nonneg; lia. }
  rewrite Z2Nat.id by assumption.
  apply Z.div_lt_upper_bound; [apply Z.pow_pos_nonneg; lia|].
  rewrite <- Z.pow_add_r by lia.
  replace (64 - official_size_log2 c + official_size_log2 c) with 64 by lia. lia.
Qed.

(** *** Making room *)

Lemma lookup_after_cell (M1 rest : list Z) (cell : Z) :
  (M1 ++ cell :: rest) !! S (length M1) = rest !! 0%nat.
Proof.
  rewrite lookup_app_r by lia. now replace (S (length M1) - length M1)%nat with 1%nat by lia.
Qed.

Lemma insert_after_cell (M1 rest : list Z) (cell v : Z) :
  <[S (length M1) := v]> (M1 ++ cell :: rest) = M1 ++ cell :: <[0%nat := v]> rest.
Proof.
  replace (S (length M1)) with (length M1 + 1)%nat by lia.
  now rewrite insert_app_r.
Qed.

Lemma snoc_cell (M1 rest : list Z) (cell : Z) :
  M1 ++ cell :: rest = (M1 ++ [cell]) ++ rest.
Proof. now rewrite <- app_assoc. Qed.

Lemma find_me_a_gap_spec (mpd : Z) (seg : list Z) :
  forall (fuel : nat) (M1 M2 : list Z) (cell old mi : Z),
    Forall (fun x => x <> 0) seg ->
    (length seg < fuel)%nat ->
    find_me_a_gap fuel mpd (M1 ++ cell :: seg ++ 0 :: M2) (length M1) old mi
    = Some (M1 ++ cell :: map bump (old :: seg) ++ M2,
            (length M1 + S (length seg))%nat,
            if existsb (fun x => bump x =? mpd) (old :: seg) then 0 else mi).
Proof.
  induction seg as [|x seg IH]; intros fuel M1 M2 cell old mi Hnz Hfuel.
  - destruct fuel as [|fuel]; [simpl in Hfuel; lia|]. cbn [find_me_a_gap app].
    rewrite lookup_after_cell, insert_after_cell.
    cbn [lookup list_lookup Z.eqb insert list_insert map app existsb length].
    rewrite orb_false_r. fold (bump old).
    replace (length M1 + 1)%nat with (S (length M1)) by lia. reflexivity.
  - destruct fuel as [|fuel]; [simpl in Hfuel; lia|]. cbn [find_me_a_gap app].
    inversion Hnz as [|? ? Hx Hseg]; subst.
    rewrite lookup_after_cell, insert_after_cell.
    cbn [lookup list_lookup insert list_insert].
    destruct (Z.eqb_spec x 0) as [?|_]; [contradiction|].
    fold (bump old).
    rewrite (snoc_cell M1 (bump old :: seg ++ 0 :: M2) cell).
    replace (S (length M1)) with (length (M1 ++ [cell]))
      by (rewrite length_app; simpl; lia).
    rewrite (IH fuel (M1 ++ [cell]) M2 (bump old) x) by (simpl in Hfuel; auto; lia).
    rewrite <- !app_assoc. cbn [app map existsb length].
    rewrite length_app. cbn [length].
    replace (length M1 + 1 + S (length seg))%nat
      with (length M1 + S (S (length seg)))%nat by lia.
    destruct (bump old =? mpd); cbn [orb].
    + now destruct ((bump x =? mpd) || existsb (fun x0 => bump x0 =? mpd) seg).
    + reflexivity.
Qed.

Lemma split_first_zero (l : list Z) (i : nat) :
  l !! i = Some 0 ->
  exists seg rest, l = seg ++ 0 :: rest /\ Forall (fun x => x <> 0) seg /\
                   (length seg <= i)%nat.
Proof.
  revert i. induction l as [|x l IH]; intros i Hi; [discriminate|].
  destruct (Z.eq_dec x 0) as [->|Hx].
  - exists [], l. split; [reflexivity|]. split; [constructor|simpl; lia].
  - destruct i as [|i]; simpl in Hi; [congruence|].
    destruct (IH i Hi) as (seg & rest & -> & Hnz & Hlen).
    exists (x :: seg), rest. split; [reflexivity|].
    split; [now constructor|simpl; lia].
Qed.

Lemma move_entries_spec (E1 Eseg E2 : list Z) (e0 x : Z) :
  move_entries (E1 ++ e0 :: Eseg ++ x :: E2) (length E1)
    (length E1 + S (length Eseg))
  = Some (E1 ++ e0 :: e0 :: Eseg ++ E2).
Proof.
  unfold move_entries.
  destruct (Nat.ltb_spec (length E1 + S (length Eseg))
              (length (E1 ++ e0 :: Eseg ++ x :: E2))) as [_|H].
  2:{ rewrite length_app in H. cbn [length] in H. rewrite length_app in H.
      cbn [length] in H. lia. }
  f_equal.
  assert (H1 : take (S (length E1)) (E1 ++ e0 :: Eseg ++ x :: E2) = E1 ++ [e0]).
  { rewrite (snoc_cell E1). apply take_app_length'. rewrite length_app. simpl. lia. }
  assert (H2 : take (length E1 + S (length Eseg) - length E1)
                 (drop (length E1) (E1 ++ e0 :: Eseg ++ x :: E2)) = e0 :: Eseg).
  { rewrite drop_app_length.
    change (e0 :: Eseg ++ x :: E2) with ((e0 :: Eseg) ++ x :: E2).
    apply take_app_length'. simpl. lia. }
  assert (H3 : drop (S (length E1 + S (length Eseg))) (E1 ++ e0 :: Eseg ++ x :: E2) = E2).
  { replace (E1 ++ e0 :: Eseg ++ x :: E2) with ((E1 ++ e0 :: Eseg ++ [x]) ++ E2).
    - apply drop_app_length'. rewrite length_app. cbn [length].
      rewrite length_app. simpl. lia.
    - rewrite <- !app_assoc. cbn [app]. rewrite <- !app_assoc. reflexivity. }
  rewrite H1, H2, H3. rewrite <- app_assoc. reflexivity.
Qed.

Lemma insert_probe_place (fuel : nat) (c : MVMIndexHashTableControl) (idx pd : Z)
    (M1 seg M2 E1 Eseg E2 : list Z) (x m : Z) :
  metadata c = M1 ++ seg ++ 0 :: M2 ->
  entries c = E1 ++ Eseg ++ x :: E2 ->
  length M1 = length E1 -> length seg = length Eseg ->
  Forall (fun y => y <> 0) seg ->
  metadata c !! length M1 = Some m -> m < pd ->
  insert_probe (S fuel) c idx (length M1) pd
  = Ok (placed c idx pd M1 seg M2 E1 Eseg E2).
Proof.
  intros Hmd Hents HlenM Hlenseg Hnz Hm Hlt.
  cbn [insert_probe]. rewrite Hm. cbn [of_option obind].
  destruct (Z.ltb_spec m pd) as [_|?]; [|lia].
  destruct seg as [|m0 seg]; destruct Eseg as [|e0 Eseg]; try discriminate.
  - (* the slot is empty *)
    cbn [app] in Hmd, Hents. rewrite Hmd in Hm.
    rewrite list_lookup_middle in Hm by reflexivity. inversion Hm; subst m.
    cbn [Z.eqb obind].
    destruct (Nat.ltb_spec (length M1) (length (entries c))) as [_|H].
    2:{ rewrite Hents, length_app in H. simpl in H. lia. }
    unfold placed. cbn [existsb map app]. f_equal. f_equal.
    + rewrite Hmd. replace (length M1) with (length M1 + 0)%nat at 1 by lia.
      now rewrite insert_app_r.
    + rewrite Hents, HlenM. replace (length E1) with (length E1 + 0)%nat at 1 by lia.
      now rewrite insert_app_r.
  - (* the slot is taken: make room *)
    cbn [app] in Hmd, Hents. rewrite Hmd in Hm.
    rewrite list_lookup_middle in Hm by reflexivity. inversion Hm; subst m0.
    inversion Hnz as [|? ? Hm0 Hseg]; subst.
    destruct (Z.eqb_spec m 0) as [?|_]; [contradiction|].
    rewrite Hmd at 2.
    rewrite find_me_a_gap_spec.
    2:{ exact Hseg. }
    2:{ rewrite Hmd, length_app. cbn [length]. rewrite length_app. simpl. lia. }
    cbn [of_option obind].
    rewrite Hents, HlenM.
    simpl in Hlenseg. replace (length seg) with (length Eseg) by lia.
    rewrite move_entries_spec. cbn [of_option obind].
    destruct (Nat.ltb_spec (length E1) (length (E1 ++ e0 :: e0 :: Eseg ++ E2))) as [_|H].
    2:{ rewrite length_app in H. simpl in H. lia. }
    unfold placed. f_equal. f_equal.
    + rewrite <- HlenM. replace (length M1) with (length M1 + 0)%nat at 1 by lia.
      now rewrite insert_app_r.
    + replace (length E1) with (length E1 + 0)%nat at 1 by lia.
      now rewrite insert_app_r.
Qed.

Lemma occupied_all (md ents : list Z) :
  Forall (fun y => y <> 0) md -> length md = length ents -> occupied md ents = ents.
Proof.
  revert ents. induction md as [|m md IH]; intros [|e ents] Hnz Hlen; try discriminate.
  - reflexivity.
  - inversion Hnz; subst. simpl in *.
    destruct (Z.eqb_spec m 0); [contradiction|]. f_equal. apply IH; auto; lia.
Qed.

Lemma placed_lookup (M1 seg M2 : list Z) (p : Z) (i : nat) (m' : Z) :
  Forall (fun y => y <> 0) seg ->
  (M1 ++ p :: map bump seg ++ M2) !! i = Some m' ->
  ((i < length M1)%nat /\ (M1 ++ seg ++ 0 :: M2) !! i = Some m') \/
  (i = length M1 /\ m' = p) \/
  (exists m, (length M1 < i <= length M1 + length seg)%nat /\
             (M1 ++ seg ++ 0 :: M2) !! (i - 1)%nat = Some m /\ m <> 0 /\ m' = bump m) \/
  ((length M1 + length seg < i)%nat /\ (M1 ++ seg ++ 0 :: M2) !! i = Some m').
Proof.
  intros Hnz H.
  destruct (Nat.lt_ge_cases i (length M1)) as [Hi|Hi].
  { left. split; [exact Hi|]. rewrite lookup_app_l in H |- * by lia. exact H. }
  rewrite lookup_app_r in H by lia.
  destruct (i - length M1)%nat as [|k] eqn:Hk.
  { right; left. simpl in H. split; [lia|congruence]. }
  simpl in H.
  destruct (Nat.lt_ge_cases k (length seg)) as [Hks|Hks].
  - right; right; left.
    rewrite lookup_app_l in H by (rewrite length_map; lia).
    rewrite list_lookup_fmap in H.
    destruct (seg !! k) as [m|] eqn:Hm; [|discriminate]. simpl in H.
    exists m. split; [lia|]. split; [|split; [|congruence]].
    + rewrite lookup_app_r by lia. rewrite lookup_app_l by lia.
      rewrite <- Hm. f_equal. lia.
    + rewrite Forall_forall in Hnz. apply Hnz.
      eapply list_elem_of_lookup_2; eauto.
  - right; right; right. split; [lia|].
    rewrite lookup_app_r in H by (rewrite length_map; lia).
    rewrite length_map in H.
    rewrite lookup_app_r by lia. rewrite lookup_app_r by lia.
    replace (i - length M1 - length seg)%nat with (S (k - length seg)) by lia.
    simpl. exact H.
Qed.

Lemma placed_inv (c : MVMIndexHashTableControl) (idx pd : Z)
    (M1 seg M2 E1 Eseg E2 : list Z) (x : Z) :
  table_inv c -> max_items c <> 0 ->
  metadata c = M1 ++ seg ++ 0 :: M2 ->
  entries c = E1 ++ Eseg ++ x :: E2 ->
  length M1 = length E1 -> length seg = length Eseg ->
  Forall (fun y => y <> 0) seg ->
  1 <= pd <= max_probe_distance c ->
  Z.of_nat (length M1) + 1 - pd < MVM_index_hash_official_size c ->
  table_inv (placed c idx pd M1 seg M2 E1 Eseg E2) /\
  contents (placed c idx pd M1 seg M2 E1 Eseg E2) ≡ₚ idx :: contents c.
Proof.
  intros Hinv Hmi Hmd Hents HlenM Hlenseg Hnz Hpd Hhome.
  pose proof (inv_distance _ Hinv) as HL.
  pose proof (inv_metadata_length _ Hinv) as HmdL.
  pose proof (inv_entries_length _ Hinv) as HentsL.
  assert (Hgap : Z.of_nat (length M1 + length seg) < allocated_items c).
  { rewrite <- HentsL, Hents, !length_app. cbn [length]. lia. }
  assert (Hseg : forall k m, seg !! k = Some m ->
                   1 <= m < max_probe_distance c /\
                   Z.of_nat (length M1 + k) + 1 - m < MVM_index_hash_official_size c).
  { intros k m Hk. pose proof (lookup_lt_Some _ _ _ Hk) as Hlt.
    assert (Hm : metadata c !! (length M1 + k)%nat = Some m).
    { rewrite Hmd, lookup_app_r by lia. rewrite lookup_app_l by lia.
      rewrite <- Hk. f_equal. lia. }
    destruct (inv_slots _ Hinv _ _ Hm) as [B1 B2]; [lia|].
    pose proof (inv_guard _ Hinv Hmi _ _ Hm) as B3.
    assert (m <> 0).
    { rewrite Forall_forall in Hnz. apply Hnz.
      eapply list_elem_of_lookup_2; eauto. }
    split; [lia|]. apply B2. assumption. }
  assert (Hbump : forall m, 1 <= m < max_probe_distance c -> bump m = 1 + m).
  { intros m Hm. unfold bump, u8. apply Z.mod_small. lia. }
  assert (Hu8 : u8 pd = pd) by (apply u8_byte; lia).
  split.
  - constructor; unfold allocated_items, MVM_index_hash_official_size in *;
      cbn [placed official_size_log2 key_right_shift max_items cur_items
           max_probe_distance max_probe_distance_limit metadata entries].
    + apply (inv_log2 _ Hinv).
    + apply (inv_shift _ Hinv).
    + apply (inv_limit _ Hinv).
    + exact HL.
    + destruct (inv_max_items _ Hinv) as [?|?]; [contradiction|].
      destruct (pd =? max_probe_distance c); [now left|].
      destruct (existsb _ seg); [now left|now right].
    + unfold u32. apply Z.mod_pos_bound. lia.
    + rewrite <- HmdL, Hmd, !length_app. cbn [length].
      rewrite !length_app, length_map. cbn [length]. lia.
    + rewrite <- HentsL, Hents, !length_app. cbn [length].
      rewrite !length_app. cbn [length]. lia.
    + intros i m' Hm' Hi. rewrite Hu8 in Hm'.
      destruct (placed_lookup _ _ _ _ _ _ Hnz Hm')
        as [(Hlt & Hold)|[(-> & ->)|[(m & Hr & Hold & Hm0 & ->)|(Hlt & Hold)]]].
      * rewrite <- Hmd in Hold. apply (inv_slots _ Hinv _ _ Hold Hi).
      * split; [lia|]. intros _. exact Hhome.
      * assert (Hk : seg !! (i - 1 - length M1)%nat = Some m).
        { rewrite lookup_app_r in Hold by lia. now rewrite lookup_app_l in Hold by lia. }
        destruct (Hseg _ _ Hk) as [B1 B2]. rewrite (Hbump m B1).
        split; [lia|]. intros _.
        replace (length M1 + (i - 1 - length M1))%nat with (i - 1)%nat in B2 by lia. lia.
      * rewrite <- Hmd in Hold. apply (inv_slots _ Hinv _ _ Hold Hi).
    + intros Hmi' i m' Hm' Hi. rewrite Hu8 in Hm'.
      destruct (Z.eqb_spec pd (max_probe_distance c)) as [?|Hpd']; [contradiction|].
      destruct (existsb (fun y => bump y =? max_probe_distance c) seg) eqn:Hex;
        [contradiction|].
      destruct (placed_lookup _ _ _ _ _ _ Hnz Hm')
        as [(Hlt & Hold)|[(-> & ->)|[(m & Hr & Hold & Hm0 & ->)|(Hlt & Hold)]]].
      * rewrite <- Hmd in Hold. apply (inv_guard _ Hinv Hmi _ _ Hold Hi).
      * lia.
      * assert (Hk : seg !! (i - 1 - length M1)%nat = Some m).
        { rewrite lookup_app_r in Hold by lia. now rewrite lookup_app_l in Hold by lia. }
        destruct (Hseg _ _ Hk) as [B1 B2].
        assert (Hne : bump m <> max_probe_distance c).
        { intros E. apply Z.eqb_eq in E.
          assert (existsb (fun y => bump y =? max_probe_distance c) seg = true);
            [|congruence].
          apply existsb_exists. exists m. split; [|exact E].
          apply list_elem_of_In. eapply list_elem_of_lookup_2; eauto. }
        rewrite (Hbump m B1) in *. lia.
      * rewrite <- Hmd in Hold. apply (inv_guard _ Hinv Hmi _ _ Hold Hi).
  - unfold contents. cbn [placed metadata entries]. rewrite Hmd, Hents.
    rewrite !occupied_app by (rewrite ?length_map; lia).
    change (u8 pd :: map bump seg ++ M2) with ([u8 pd] ++ map bump seg ++ M2).
    change (idx :: Eseg ++ E2) with ([idx] ++ Eseg ++ E2).
    rewrite !occupied_app by (rewrite ?length_map; simpl; lia).
    cbn [occupied]. rewrite Hu8.
    destruct (Z.eqb_spec pd 0) as [?|_]; [lia|].
    destruct (Z.eqb_spec 0 0) as [_|?]; [|lia].
    rewrite (occupied_all seg Eseg Hnz Hlenseg).
    rewrite (occupied_all (map bump seg) Eseg).
    + cbn [app]. symmetry. apply Permutation_middle.
    + rewrite Forall_forall. intros y Hy. apply list_elem_of_fmap in Hy.
      destruct Hy as (m & -> & Hin).
      apply list_elem_of_lookup_1 in Hin. destruct Hin as [k Hk].
      destruct (Hseg _ _ Hk) as [B1 _]. rewrite (Hbump m B1). lia.
    + rewrite length_map. exact Hlenseg.
Qed.

(** The last slot of the allocation is never taken, so a gap lies ahead of
    every slot. *)
Lemma last_slot_empty (c : MVMIndexHashTableControl) :
  table_inv c ->
  metadata c !! Z.to_nat (allocated_items c - 1) = Some 0.
Proof.
  intros Hinv. pose proof (inv_distance _ Hinv) as HL.
  pose proof (inv_metadata_length _ Hinv) as HmdL.
  pose proof (inv_log2 _ Hinv) as Hk.
  assert (HS : 8 <= MVM_index_hash_official_size c).
  { rewrite official_size_pow2 by lia. apply pow2_bounds. lia. }
  assert (HA : allocated_items c = MVM_index_hash_official_size c + max_probe_distance c).
  { unfold allocated_items. now rewrite (inv_limit _ Hinv). }
  destruct (lookup_lt_is_Some_2 (metadata c) (Z.to_nat (allocated_items c - 1)))
    as [m Hm]; [lia|].
  destruct (inv_slots _ Hinv _ _ Hm) as [B1 B2]; [lia|].
  destruct (Z.eq_dec m 0) as [->|Hne]; [exact Hm|].
  specialize (B2 Hne). lia.
Qed.

Lemma run_decomposition (c : MVMIndexHashTableControl) (slot : nat) :
  table_inv c -> Z.of_nat slot + 1 < allocated_items c ->
  exists M1 seg M2 E1 Eseg x E2,
    metadata c = M1 ++ seg ++ 0 :: M2 /\ entries c = E1 ++ Eseg ++ x :: E2 /\
    length M1 = slot /\ length E1 = slot /\ length seg = length Eseg /\
    Forall (fun y => y <> 0) seg.
Proof.
  intros Hinv Hslot.
  pose proof (inv_metadata_length _ Hinv) as HmdL.
  pose proof (inv_entries_length _ Hinv) as HentsL.
  pose proof (last_slot_empty c Hinv) as Hlast.
  assert (Hz : drop slot (metadata c) !! (Z.to_nat (allocated_items c - 1) - slot)%nat
               = Some 0).
  { rewrite lookup_drop. rewrite <- Hlast. f_equal. lia. }
  destruct (split_first_zero _ _ Hz) as (seg & M2 & Hsplit & Hnz & Hlen).
  exists (take slot (metadata c)), seg, M2.
  exists (take slot (entries c)), (take (length seg) (drop slot (entries c))).
  destruct (drop (length seg) (drop slot (entries c))) as [|x E2] eqn:Hd.
  { apply (f_equal length) in Hd. rewrite !length_drop in Hd. simpl in Hd. lia. }
  exists x, E2. split; [|split; [|split; [|split; [|split]]]].
  - now rewrite <- Hsplit, take_drop.
  - now rewrite <- Hd, !take_drop.
  - rewrite length_take. lia.
  - rewrite length_take. lia.
  - rewrite length_take, length_drop. lia.
  - exact Hnz.
Qed.

(** The probe loop, on a table whose overflow guard is not set: it ends with
    the duplicate oops or with the index placed, the invariant kept. *)
Lemma insert_probe_spec (c : MVMIndexHashTableControl) (idx : Z) :
  table_inv c -> max_items c <> 0 ->
  forall (fuel slot : nat) (pd : Z),
    1 <= pd <= max_probe_distance c ->
    Z.of_nat slot + 1 - pd < MVM_index_hash_official_size c ->
    max_probe_distance c - pd < Z.of_nat fuel ->
    insert_probe fuel c idx slot pd = Throw DuplicateKey \/
    exists c', insert_probe fuel c idx slot pd = Ok c' /\ table_inv c' /\
               contents c' ≡ₚ idx :: contents c /\
               official_size_log2 c' = official_size_log2 c /\
               key_right_shift c' = key_right_shift c /\
               max_probe_distance c' = max_probe_distance c /\
               cur_items c' = u32 (cur_items c + 1).
Proof.
  intros Hinv Hmi.
  pose proof (inv_distance _ Hinv) as HL.
  pose proof (inv_metadata_length _ Hinv) as HmdL.
  pose proof (inv_entries_length _ Hinv) as HentsL.
  assert (HA : allocated_items c = MVM_index_hash_official_size c + max_probe_distance c).
  { unfold allocated_items. now rewrite (inv_limit _ Hinv). }
  induction fuel as [|fuel IH]; intros slot pd Hpd Hhome Hfuel; [lia|].
  assert (Hslot : Z.of_nat slot + 1 < allocated_items c) by lia.
  destruct (lookup_lt_is_Some_2 (metadata c) slot) as [m Hm]; [lia|].
  destruct (Z_lt_ge_dec m pd) as [Hlt|Hge].
  - right.
    destruct (run_decomposition c slot Hinv Hslot)
      as (M1 & seg & M2 & E1 & Eseg & x & E2 & Hmd & Hents & L1 & L2 & L3 & Hnz).
    subst slot.
    rewrite (insert_probe_place fuel c idx pd M1 seg M2 E1 Eseg E2 x m); auto; try lia.
    destruct (placed_inv c idx pd M1 seg M2 E1 Eseg E2 x) as [Hinv' Hperm]; auto; try lia.
    eexists. split; [reflexivity|]. split; [exact Hinv'|]. split; [exact Hperm|].
    repeat split; reflexivity.
  - pose proof (inv_guard _ Hinv Hmi _ _ Hm ltac:(lia)) as Hguard.
    destruct (lookup_lt_is_Some_2 (entries c) slot) as [e He]; [lia|].
    cbn [insert_probe]. rewrite Hm. cbn [of_option obind].
    destruct (Z.ltb_spec m pd) as [?|_]; [lia|].
    destruct (inv_max_items _ Hinv) as [?|Hmax]; [contradiction|].
    assert (Hasserts :
      negb (pd + 1 <=? max_probe_distance c + 1) = false /\
      negb (Z.of_nat (S slot) <? MVM_index_hash_official_size c + max_items c) = false /\
      negb (Z.of_nat (S slot) <? MVM_index_hash_official_size c + 256) = false).
    { repeat split; apply negb_false_iff;
        [apply Z.leb_le|apply Z.ltb_lt|apply Z.ltb_lt]; lia. }
    destruct Hasserts as (A1 & A2 & A3).
    destruct (Z.eqb_spec m pd) as [Heq|Hne].
    + rewrite He. cbn [of_option obind].
      destruct (e =? idx); cbn [obind]; [now left|].
      rewrite A1, A2, A3. apply IH; lia.
    + cbn [obind]. rewrite A1, A2, A3. apply IH; lia.
Qed.


(** [hash_insert_internal] below the load limit: it returns, with the
    duplicate oops or with the index added to the contents. *)
Lemma hash_insert_internal_spec (c : MVMIndexHashTableControl)
    (list : list string) (idx : Z) (key : string) :
  table_inv c -> cur_items c < max_items c -> list !! Z.to_nat idx = Some key ->
  hash_insert_internal MVM_string_hash_code c list idx = Throw DuplicateKey \/
  exists c', hash_insert_internal MVM_string_hash_code c list idx = Ok c' /\
             table_inv c' /\ contents c' ≡ₚ idx :: contents c /\
             official_size_log2 c' = official_size_log2 c /\
             key_right_shift c' = key_right_shift c /\
             max_probe_distance c' = max_probe_distance c /\
             cur_items c' = u32 (cur_items c + 1).
Proof.
  intros Hinv Hcur Hkey. unfold hash_insert_internal.
  pose proof (inv_cur_items _ Hinv) as Hc0.
  destruct (Z.geb_spec (cur_items c) (max_items c)) as [?|_]; [lia|].
  rewrite Hkey. cbn [of_option obind].
  pose proof (home_slot_bound c key Hinv) as Hhome.
  destruct (MVM_index_hash_create_loop_state MVM_string_hash_code c key)
    as [slot pd] eqn:Hls.
  assert (pd = 1) by (unfold MVM_index_hash_create_loop_state in Hls; congruence).
  subst pd. cbn [fst] in Hhome.
  pose proof (inv_distance _ Hinv) as HL.
  pose proof (inv_metadata_length _ Hinv) as HmdL.
  pose proof (inv_log2 _ Hinv) as Hk.
  assert (HS : 8 <= MVM_index_hash_official_size c).
  { rewrite official_size_pow2 by lia. apply pow2_bounds. lia. }
  apply insert_probe_spec; auto; try lia.
  unfold allocated_items in HmdL. rewrite <- (inv_limit _ Hinv) in HmdL. lia.
Qed.



(** *** Resizing and the public insertion *)

Lemma hash_insert_internal_ok (c c' : MVMIndexHashTableControl)
    (list : list string) (idx : Z) :
  table_inv c ->
  hash_insert_internal MVM_string_hash_code c list idx = Ok c' ->
  table_inv c' /\ contents c' ≡ₚ idx :: contents c /\
  official_size_log2 c' = official_size_log2 c /\
  key_right_shift c' = key_right_shift c.
Proof.
  intros Hinv Hrun.
  assert (Hcur : cur_items c < max_items c).
  { unfold hash_insert_internal in Hrun.
    destruct (Z.geb_spec (cur_items c) (max_items c)); [discriminate|lia]. }
  destruct (list !! Z.to_nat idx) as [key|] eqn:Hkey.
  - destruct (hash_insert_internal_spec c list idx key Hinv Hcur Hkey)
      as [Hdup|(c'' & Hrun' & Hinv' & Hperm & H1 & H2 & _)]; [congruence|].
    rewrite Hrun in Hrun'. inversion Hrun'; subst c''. auto.
  - unfold hash_insert_internal in Hrun. rewrite Hkey in Hrun.
    destruct (cur_items c >=? max_items c); discriminate.
Qed.

Lemma reinsert_from_ok (old_entries : list Z) (list : list string) :
  forall (old_metadata : Datatypes.list Z) (bucket : nat)
         (c c' : MVMIndexHashTableControl),
    table_inv c ->
    reinsert_from MVM_string_hash_code old_metadata old_entries bucket list c = Ok c' ->
    table_inv c' /\
    contents c' ≡ₚ occupied old_metadata (drop bucket old_entries) ++ contents c /\
    official_size_log2 c' = official_size_log2 c /\
    key_right_shift c' = key_right_shift c.
Proof.
  induction old_metadata as [|m md IH]; intros bucket c c' Hinv Hrun.
  - cbn in Hrun. inversion Hrun; subst.
    split; [assumption|split; [reflexivity|split; reflexivity]].
  - cbn [reinsert_from] in Hrun.
    destruct (Z.eqb_spec m 0) as [->|Hm].
    + cbn [obind] in Hrun. destruct (IH _ _ _ Hinv Hrun) as (I' & P' & F1 & F2).
      split; [exact I'|]. split; [|auto].
      rewrite P'. destruct (old_entries !! bucket) as [e|] eqn:He.
      * rewrite (drop_S _ _ _ He). reflexivity.
      * rewrite (drop_ge old_entries bucket) by (now apply lookup_ge_None).
        rewrite (drop_ge old_entries (S bucket))
          by (apply lookup_ge_None in He; lia).
        now destruct md.
    + destruct (old_entries !! bucket) as [e|] eqn:He; [|discriminate].
      cbn [of_option obind] in Hrun.
      destruct (hash_insert_internal MVM_string_hash_code c list e) as [c1| |] eqn:H1;
        try discriminate.
      cbn [obind] in Hrun.
      destruct (hash_insert_internal_ok c c1 list e Hinv H1) as (I1 & P1 & G1 & G2).
      destruct (IH _ _ _ I1 Hrun) as (I' & P' & F1 & F2).
      split; [exact I'|]. split; [|split; congruence].
      rewrite P', P1, (drop_S _ _ _ He). cbn [occupied].
      destruct (Z.eqb_spec m 0); [contradiction|].
      cbn [app]. symmetry. apply Permutation_middle.
Qed.

Lemma occupied_take (md ents : list Z) :
  occupied (take (length ents) md) ents = occupied md ents.
Proof.
  revert ents. induction md as [|m md IH]; intros [|e ents]; cbn; auto.
  rewrite IH. reflexivity.
Qed.

(** [maybe_grow_hash]: the new table is one size up, its shift one less, and
    it holds what the old table held. *)
Lemma maybe_grow_hash_ok (c c' : MVMIndexHashTableControl) (list : list string) :
  table_inv c ->
  maybe_grow_hash MVM_string_hash_code c list = Ok c' ->
  table_inv c' /\ contents c' ≡ₚ contents c /\
  official_size_log2 c' = official_size_log2 c + 1 /\
  key_right_shift c' = key_right_shift c - 1.
Proof.
  intros Hinv Hrun. unfold maybe_grow_hash in Hrun.
  pose proof (inv_log2 _ Hinv) as Hk. pose proof (inv_shift _ Hinv) as Hs.
  pose proof (inv_distance _ Hinv) as HL.
  pose proof (inv_metadata_length _ Hinv) as HmdL.
  pose proof (inv_entries_length _ Hinv) as HentsL.
  rewrite (u8_byte (official_size_log2 c + 1)) in Hrun by lia.
  rewrite (u8_byte (key_right_shift c - 1)) in Hrun by lia.
  destruct (Z_lt_ge_dec (official_size_log2 c + 1) 31) as [Hlt|Hge].
  2:{ unfold hash_allocate_common in Hrun.
      destruct (Z.ltb_spec (official_size_log2 c + 1) 31); [lia|discriminate]. }
  destruct (hash_allocate_common_inv (official_size_log2 c + 1))
    as (n & Hn & In & Cn & Ln & Sn & _); [lia|].
  replace (key_right_shift c - 1) with (64 - (official_size_log2 c + 1)) in Hrun by lia.
  rewrite Hn in Hrun. cbn [obind] in Hrun.
  destruct (_ <=? _)%nat; [|discriminate].
  destruct (reinsert_from_ok _ _ _ _ _ _ In Hrun) as (I' & P' & F1 & F2).
  split; [exact I'|]. split; [|lia].
  rewrite P', Cn, app_nil_r, drop_0.
  assert (HA : Z.to_nat (MVM_index_hash_kompromat c) = length (entries c)).
  { unfold MVM_index_hash_kompromat. unfold allocated_items in HentsL.
    rewrite (inv_limit _ Hinv). lia. }
  rewrite HA, occupied_take. reflexivity.
Qed.

Lemma insert_nocheck_ok (c c' : MVMIndexHashTableControl) (list : list string)
    (idx : Z) :
  table_inv c ->
  MVM_index_hash_insert_nocheck MVM_string_hash_code c list idx = Ok c' ->
  table_inv c' /\ contents c' ≡ₚ idx :: contents c.
Proof.
  intros Hinv Hrun. unfold MVM_index_hash_insert_nocheck in Hrun.
  destruct (cur_items c >=? max_items c).
  - destruct (maybe_grow_hash MVM_string_hash_code c list) as [n| |] eqn:Hg;
      try discriminate.
    cbn [obind] in Hrun.
    destruct (maybe_grow_hash_ok c n list Hinv Hg) as (In & Pn & _).
    destruct (hash_insert_internal_ok n c' list idx In Hrun) as (I' & P' & _).
    split; [exact I'|]. now rewrite P', Pn.
  - destruct (hash_insert_internal_ok c c' list idx Hinv Hrun) as (I' & P' & _). auto.
Qed.

Lemma insert_all_ok (list : list string) (idxs : Datatypes.list Z) :
  forall c c' : MVMIndexHashTableControl,
    table_inv c ->
    insert_all MVM_string_hash_code c list idxs = Ok c' ->
    table_inv c' /\ contents c' ≡ₚ idxs ++ contents c.
Proof.
  induction idxs as [|idx idxs IH]; intros c c' Hinv Hrun.
  - cbn in Hrun. inversion Hrun; subst. split; [assumption|reflexivity].
  - cbn [insert_all] in Hrun.
    destruct (MVM_index_hash_insert_nocheck MVM_string_hash_code c list idx)
      as [c1| |] eqn:H1; try discriminate.
    cbn [obind] in Hrun.
    destruct (insert_nocheck_ok c c1 list idx Hinv H1) as (I1 & P1).
    destruct (IH _ _ I1 Hrun) as (I' & P').
    split; [exact I'|]. rewrite P', P1. cbn [app]. symmetry. apply Permutation_middle.
Qed.

(** *** Building a table *)

Lemma ceil_log2_search_spec (p q target : Z) :
  forall (fuel : nat) (k : Z),
    k <= target <= k + Z.of_nat fuel ->
    p <= q * 2 ^ target ->
    (forall j, k <= j < target -> q * 2 ^ j < p) ->
    ceil_log2_search fuel k p q = target.
Proof.
  induction fuel as [|fuel IH]; intros k Hk Hle Hmin.
  - cbn. lia.
  - cbn [ceil_log2_search]. destruct (Z.leb_spec p (q * 2 ^ k)) as [H|H].
    + destruct (Z.eq_dec k target) as [?|Hne]; [assumption|].
      specialize (Hmin k ltac:(lia)). lia.
    + apply IH; [|assumption|intros j Hj; apply Hmin; lia].
      destruct (Z.eq_dec k target) as [->|Hne]; lia.
Qed.

Lemma build_size_large (e : Z) :
  4 <= e <= 805306368 ->
  3 <= Z.log2_up (e * 4 / 3) <= 30 /\
  ceil_log2_ratio (e * 4) 3 = Z.log2_up (e * 4 / 3).
Proof.
  intros He. set (v := e * 4 / 3).
  assert (Hv : 5 <= v <= 1073741824).
  { subst v. split.
    - apply Z.div_le_lower_bound; lia.
    - apply Z.div_le_upper_bound; lia. }
  assert (Hve : 3 * v <= e * 4 < 3 * v + 3).
  { subst v. pose proof (Z.mul_div_le (e * 4) 3 ltac:(lia)).
    pose proof (Z.mul_succ_div_gt (e * 4) 3 ltac:(lia)). lia. }
  destruct (Z.log2_up_spec v ltac:(lia)) as [Hlo Hhi].
  set (k := Z.log2_up v) in *.
  assert (Hk3 : 3 <= k).
  { destruct (Z_lt_ge_dec k 3) as [Hlt|?]; [|lia].
    assert (2 ^ k <= 2 ^ 2) by (apply Z.pow_le_mono_r; lia).
    change (2 ^ 2) with 4 in *. lia. }
  assert (Hk30 : k <= 30).
  { apply Z.log2_up_le_pow2; [lia|]. change (2 ^ 30) with 1073741824. lia. }
  split; [lia|].
  unfold ceil_log2_ratio. apply ceil_log2_search_spec.
  - lia.
  - rewrite (pow2_mult4 k) in * by lia. lia.
  - intros j Hj.
    assert (2 ^ j <= 2 ^ Z.pred k) by (apply Z.pow_le_mono_r; lia). lia.
Qed.

Lemma build_run (e k : Z) :
  3 <= k <= 30 ->
  MVM_index_hash_build e = hash_allocate_common (u8 (64 - k)) (u8 k) ->
  exists c, MVM_index_hash_build e = Ok c /\ table_inv c /\ contents c = [] /\
            official_size_log2 c = k /\ key_right_shift c = 64 - k.
Proof.
  intros Hk Hsize. rewrite Hsize.
  rewrite (u8_byte k), (u8_byte (64 - k)) by lia.
  destruct (hash_allocate_common_inv k) as (c & Hc & Ic & Cc & Lc & Sc & _); [lia|].
  exists c. auto.
Qed.

(** C5, as amended: for [expected_entries] up to [3 * 2 ^ 28] (beyond, the
    size computed does not fit the shift that makes the table), [build]
    allocates a table whose [official_size_log2] is
    [max(3, ceil_log2(expected_entries / LOAD_FACTOR))], with
    [key_right_shift = 64 - official_size_log2]. *)
Theorem build_initial_size (expected_entries : Z) :
  0 <= expected_entries <= 805306368 ->
  exists c, MVM_index_hash_build expected_entries = Ok c /\
            official_size_log2 c = spec_initial_size_base2 expected_entries /\
            key_right_shift c = 64 - official_size_log2 c.
Proof.
  intros He.
  destruct (Z_lt_ge_dec expected_entries 4) as [Hsmall|Hlarge].
  - assert (Hcases : expected_entries = 0 \/ expected_entries = 1 \/
                     expected_entries = 2 \/ expected_entries = 3) by lia.
    destruct Hcases as [-> | [-> | [-> | ->]]];
      (match goal with
       | |- exists c, MVM_index_hash_build ?e = _ /\ _ =>
           destruct (build_run e 3 ltac:(lia) eq_refl) as (c & Hc & _ & _ & Lc & Sc)
       end;
       exists c; split; [exact Hc|]; split; [rewrite Lc; reflexivity|lia]).
  - destruct (build_size_large expected_entries ltac:(lia)) as [Hk Hspec].
    destruct (build_run expected_entries (Z.log2_up (expected_entries * 4 / 3)) Hk)
      as (c & Hc & _ & _ & Lc & Sc).
    { unfold MVM_index_hash_build.
      destruct (Z.eqb_spec expected_entries 0) as [?|_]; [lia|].
      unfold LOAD_FACTOR_DEN, LOAD_FACTOR_NUM, MVM_round_up_log_base2,
        INDEX_MIN_SIZE_BASE_2. cbv zeta.
      destruct (Z.ltb_spec (expected_entries * 4 / 3) 4294967296) as [_|H].
      2:{ assert (expected_entries * 4 / 3 <= 1073741824)
            by (apply Z.div_le_upper_bound; lia). lia. }
      destruct (Z.ltb_spec (Z.log2_up (expected_entries * 4 / 3)) 3); [lia|reflexivity]. }
    exists c. split; [exact Hc|]. split; [|lia].
    rewrite Lc. unfold spec_initial_size_base2, LOAD_FACTOR_DEN, LOAD_FACTOR_NUM,
      INDEX_MIN_SIZE_BASE_2.
    rewrite Hspec. lia.
Qed.

Lemma build_initial_size_witness :
  exists c, MVM_index_hash_build 100 = Ok c /\
            official_size_log2 c = spec_initial_size_base2 100 /\
            key_right_shift c = 64 - official_size_log2 c.
Proof. apply (build_initial_size 100). lia. Defined.

(** C5 as the specification words it (for every [expected_entries]) fails:
    for [2 ^ 32 - 1] entries the size asked for is 33, and [build] makes no
    table of that size. *)
Lemma build_every_size_counterexample :
  spec_initial_size_base2 4294967295 = 33 /\
  ~ (exists c, MVM_index_hash_build 4294967295 = Ok c /\
               official_size_log2 c = spec_initial_size_base2 4294967295).
Proof.
  split; [vm_compute; reflexivity|].
  intros (c & Hc & _). vm_compute in Hc. discriminate.
Qed.

Lemma build_ok (e : Z) (c : MVMIndexHashTableControl) :
  MVM_index_hash_build e = Ok c -> table_inv c /\ contents c = [].
Proof.
  unfold MVM_index_hash_build. intros Hrun.
  assert (Hk : exists k, 3 <= k <= 32 /\
                         hash_allocate_common (u8 (64 - k)) (u8 k) = Ok c).
  { destruct (e =? 0).
    - exists 3. split; [lia|exact Hrun].
    - cbv zeta in Hrun.
      destruct (Z.ltb_spec (e * LOAD_FACTOR_DEN / LOAD_FACTOR_NUM) 4294967296)
        as [Hlt|?]; [|discriminate].
      destruct (Z.ltb_spec (MVM_round_up_log_base2 (e * LOAD_FACTOR_DEN / LOAD_FACTOR_NUM))
                  INDEX_MIN_SIZE_BASE_2) as [?|Hge].
      + exists 3. split; [lia|exact Hrun].
      + eexists. split; [|exact Hrun]. unfold INDEX_MIN_SIZE_BASE_2 in Hge.
        split; [exact Hge|]. unfold MVM_round_up_log_base2 in *.
        set (v := e * LOAD_FACTOR_DEN / LOAD_FACTOR_NUM) in *.
        destruct (Z_le_gt_dec v 0) as [Hv|Hv].
        * rewrite Z.log2_up_nonpos in Hge by assumption. lia.
        * apply Z.log2_up_le_pow2; [lia|]. change (2 ^ 32) with 4294967296. lia. }
  destruct Hk as (k & Hk & Halloc).
  rewrite (u8_byte k), (u8_byte (64 - k)) in Halloc by lia.
  destruct (Z_lt_ge_dec k 31) as [Hlt|Hge].
  - destruct (hash_allocate_common_inv k) as (c0 & Hc0 & I0 & C0 & _); [lia|].
    rewrite Hc0 in Halloc. inversion Halloc; subst. auto.
  - unfold hash_allocate_common in Halloc.
    destruct (Z.ltb_spec k 31); [lia|discriminate].
Qed.

Lemma slots_okb_sound (size mpd : Z) (guard : bool) (md : list Z) (i : nat) :
  slots_okb size mpd guard i md = true ->
  forall j m, md !! j = Some m ->
    0 <= m <= mpd /\ (m <> 0 -> Z.of_nat (i + j) + 1 - m < size) /\
    (guard = true -> m < mpd).
Proof.
  revert i. induction md as [|x md IH]; intros i H j m Hj; [discriminate|].
  cbn [slots_okb] in H. rewrite !andb_true_iff in H.
  destruct H as ((((H1 & H2) & H3) & H4) & H5).
  destruct j as [|j]; simpl in Hj.
  - inversion Hj; subst x. replace (i + 0)%nat with i by lia.
    split; [lia|]. split.
    + intros Hm. apply orb_true_iff in H3. destruct H3 as [H3|H3]; lia.
    + intros ->. simpl in H4. lia.
  - replace (i + S j)%nat with (S i + j)%nat by lia. eapply IH; eauto.
Qed.

Lemma table_invb_sound (c : MVMIndexHashTableControl) :
  table_invb c = true -> table_inv c.
Proof.
  unfold table_invb. rewrite !andb_true_iff.
  intros ((((((((((H1 & H2) & H3) & H4) & H5) & H6) & H7) & H8) & H9) & H10) & H11).
  pose proof (slots_okb_sound _ _ _ _ _ H11) as Hs.
  assert (Hlk : forall i m, metadata c !! i = Some m ->
                  Z.of_nat i < allocated_items c ->
                  take (Z.to_nat (allocated_items c)) (metadata c) !! i = Some m).
  { intros i m Hm Hi. rewrite lookup_take_lt by lia. exact Hm. }
  apply Z.leb_le in H1, H5, H6, H8. apply Z.ltb_lt in H2.
  apply Z.eqb_eq in H3, H4, H9, H10.
  constructor.
  - lia.
  - exact H3.
  - exact H4.
  - lia.
  - apply orb_true_iff in H7. destruct H7 as [H7|H7]; [left; lia|right].
    apply andb_true_iff in H7. lia.
  - exact H8.
  - exact H9.
  - exact H10.
  - intros i m Hm Hi. destruct (Hs i m (Hlk i m Hm Hi)) as (B1 & B2 & _).
    split; [exact B1|]. intros Hne. specialize (B2 Hne). simpl in B2. lia.
  - intros Hmi i m Hm Hi. destruct (Hs i m (Hlk i m Hm Hi)) as (_ & _ & B3).
    apply B3. destruct (Z.eqb_spec (max_items c) 0); [contradiction|reflexivity].
Qed.

(** C3, as amended: when the probe loop reaches a slot whose stored probe
    distance equals the candidate's (a tie), the insertion aborts as a
    duplicate exactly when the index stored in that slot is the index being
    inserted; with another index in the slot the loop moves on to the next
    slot with the probe distance one higher (its assertions holding). *)
Theorem probe_tie_step (fuel : nat) (c : MVMIndexHashTableControl)
    (idx pd e : Z) (slot : nat) :
  metadata c !! slot = Some pd ->
  entries c !! slot = Some e ->
  (e = idx -> insert_probe (S fuel) c idx slot pd = Throw DuplicateKey) /\
  (e <> idx ->
   pd + 1 <= max_probe_distance c + 1 ->
   Z.of_nat (S slot) < MVM_index_hash_official_size c + max_items c ->
   Z.of_nat (S slot) < MVM_index_hash_official_size c + 256 ->
   insert_probe (S fuel) c idx slot pd = insert_probe fuel c idx (S slot) (pd + 1)).
Proof.
  intros Hm He. cbn [insert_probe]. rewrite Hm. cbn [of_option obind].
  rewrite Z.ltb_irrefl, Z.eqb_refl, He. cbn [of_option obind].
  split.
  - intros ->. now rewrite Z.eqb_refl.
  - intros Hne A1 A2 A3. destruct (Z.eqb_spec e idx) as [?|_]; [contradiction|].
    cbn [obind].
    destruct (Z.leb_spec (pd + 1) (max_probe_distance c + 1)) as [_|?]; [|lia].
    destruct (Z.ltb_spec (Z.of_nat (S slot))
                (MVM_index_hash_official_size c + max_items c)) as [_|?]; [|lia].
    destruct (Z.ltb_spec (Z.of_nat (S slot))
                (MVM_index_hash_official_size c + 256)) as [_|?]; [|lia].
    reflexivity.
Qed.

End HashProperties.

Section HashInstances.
Import IndexHash.


(** The guard at work: the table of eight slots holds four keys that share
    home slot 0, at probe distances 1 to 4, and its load limit is 6; the
    fifth such key is written at probe distance 5, the table's
    [max_probe_distance], and [max_items] is 0 afterwards. *)
Example overflow_guard_fires :
  contents table_four_keys = [0; 1; 2; 3] /\
  max_items table_four_keys = 6 /\ max_probe_distance table_four_keys = 5 /\
  exists c', hash_insert_internal colliding_hash table_four_keys (single_char_keys 5) 4
             = Ok c' /\
             contents c' = [0; 1; 2; 3; 4] /\
             metadata c' !! 4%nat = Some 5 /\ max_items c' = 0.
Proof.
  split; [reflexivity|]. split; [reflexivity|]. split; [reflexivity|].
  eexists. split; [vm_compute; reflexivity|]. repeat split.
Qed.

(** The two runs went through different numbers of resizes: the tables end
    with different sizes and the same contents. *)
Example growth_events_differ :
  official_size_log2 table_12_from_0 = 5 /\
  official_size_log2 table_12_from_100 = 8.
Proof. split; reflexivity. Qed.

(** C6 as the specification words it (the insertions of distinct keys always
    yield the final mappings) fails: 255 distinct keys that share their home
    slot are inserted into a fresh table; the 254th insertion sets the overflow
    guard, the 255th resizes, re-inserting sets the guard of the new table
    again, and the pending insertion ends in the fatal "attempt to
    recursively call grow". *)
Lemma growth_aborts_counterexample :
  NoDup (single_char_keys 255) /\
  MVM_index_hash_build 0 = Ok table_built_0 /\
  insert_all colliding_hash table_built_0 (single_char_keys 255) (first_indices 255)
  = Throw RecursiveGrow.
Proof.
  split; [|split].
  - apply (bool_decide_unpack (NoDup (single_char_keys 255))). vm_compute. exact I.
  - vm_compute. reflexivity.
  - vm_compute. reflexivity.
Qed.

Lemma probe_tie_step_witness :
  (0 = 1 -> insert_probe 14 table_one_key 1 0 1 = Throw DuplicateKey) /\
  (0 <> 1 ->
   1 + 1 <= max_probe_distance table_one_key + 1 ->
   Z.of_nat 1 < MVM_index_hash_official_size table_one_key + max_items table_one_key ->
   Z.of_nat 1 < MVM_index_hash_official_size table_one_key + 256 ->
   insert_probe 14 table_one_key 1 0 1 = insert_probe 13 table_one_key 1 1 (1 + 1)).
Proof.
  apply (probe_tie_step 13 table_one_key 1 1 0 0%nat); reflexivity.
Defined.

(** C3 as the specification words it (every tie is a fatal duplicate)
    fails: the table holds index 0 in slot 0 with probe distance 1; index 1,
    whose key has the same home slot, meets that tie at probe distance 1 and
    is inserted in the next slot. *)
Lemma tie_not_fatal_counterexample :
  metadata table_one_key !! 0%nat = Some 1 /\
  entries table_one_key !! 0%nat = Some 0 /\
  fst (MVM_index_hash_create_loop_state colliding_hash table_one_key
         (String (ascii_of_nat 1) EmptyString)) = 0%nat /\
  exists c', hash_insert_internal colliding_hash table_one_key
               (single_char_keys 2) 1 = Ok c' /\
             contents c' = [0; 1].
Proof.
  split; [reflexivity|]. split; [reflexivity|]. split; [reflexivity|].
  eexists. split; vm_compute; reflexivity.
Qed.

End HashInstances.

(* ===================================================================== *)
(** * Properties of the GC orchestrator *)
(* ===================================================================== *)

Section GCProperties.
Import GCOrch.

(** C10: [mark_thread_blocked] does a CAS of [gc_status] from [NONE] to
    [UNABLE]; when it succeeds the thread is marked [UNABLE] and the call
    returns.  When it fails, the status the thread then observes decides:
    [INTERRUPT] sends it straight into the interrupted path, where it counts
    itself into the run, and any other value is a panic. *)
Theorem mark_thread_blocked_spec (s : gc_state) (others : MVMGCStatus -> MVMGCStatus) :
  (gc_status s = MVMGCStatus_NONE ->
   MVM_gc_mark_thread_blocked s others
   = (Build_gc_state MVMGCStatus_UNABLE (starting_gc s), Blocked)) /\
  (gc_status s <> MVMGCStatus_NONE ->
   (others (gc_status s) = MVMGCStatus_INTERRUPT ->
    MVM_gc_mark_thread_blocked s others
    = (Build_gc_state MVMGCStatus_INTERRUPT (u32 (starting_gc s + 1)),
       EnteredFromInterrupt)) /\
   (others (gc_status s) <> MVMGCStatus_INTERRUPT ->
    MVM_gc_mark_thread_blocked s others
    = (Build_gc_state (others (gc_status s)) (starting_gc s), Panicked))).
Proof.
  destruct s as [st n]. unfold MVM_gc_mark_thread_blocked, apr_atomic_cas32.
  cbn [gc_status starting_gc]. split.
  - intros ->. reflexivity.
  - intros Hne. destruct st; try contradiction; cbn.
    all: split; intros H.
    all: try (rewrite H; reflexivity).
    all: destruct (others _); try contradiction; reflexivity.
Qed.

Lemma mark_thread_blocked_spec_witness :
  MVM_gc_mark_thread_blocked (Build_gc_state MVMGCStatus_INTERRUPT 1) (fun w => w)
  = (Build_gc_state MVMGCStatus_INTERRUPT 2, EnteredFromInterrupt).
Proof.
  refine (proj1 (proj2 (mark_thread_blocked_spec
                          (Build_gc_state MVMGCStatus_INTERRUPT 1) (fun w => w)) _) _).
  - discriminate.
  - reflexivity.
Defined.

End GCProperties.

(* ===================================================================== *)
(** * Further properties of the callsite store *)
(* ===================================================================== *)

Section CallsiteStore.
Import Callsite.

(** X1: [get_common] and [is_common] agree: the pointers [get_common]
    returns are exactly the ones [is_common] accepts, and [get_common] throws
    [UnknownCommon] exactly for the IDs outside the nine. *)
Theorem get_common_is_common (p : ptr) (id : Z) :
  (MVM_callsite_is_common p = true <-> exists id', MVM_callsite_get_common id' = Ok p) /\
  (MVM_callsite_get_common id = Throw UnknownCommon <-> ~ 0 <= id <= 8).
Proof.
  split.
  - split.
    + unfold MVM_callsite_is_common. rewrite !orb_true_iff, !Nat.eqb_eq.
      intros [[[[[[[[H|H]|H]|H]|H]|H]|H]|H]|H]; subst p;
        [exists 0|exists 1|exists 2|exists 5|exists 3|exists 4|exists 6|exists 7|exists 8];
        reflexivity.
    + intros [id' H]. unfold MVM_callsite_get_common in H.
      repeat (match type of H with
              | (if ?b then _ else _) = _ => destruct b
              end; [inversion H; reflexivity|]).
      discriminate.
  - unfold MVM_callsite_get_common,
      MVM_CALLSITE_ID_ZERO_ARITY, MVM_CALLSITE_ID_OBJ, MVM_CALLSITE_ID_OBJ_OBJ,
      MVM_CALLSITE_ID_OBJ_INT, MVM_CALLSITE_ID_OBJ_NUM, MVM_CALLSITE_ID_OBJ_STR,
      MVM_CALLSITE_ID_INT_INT, MVM_CALLSITE_ID_OBJ_OBJ_STR, MVM_CALLSITE_ID_OBJ_OBJ_OBJ.
    repeat (match goal with
            | |- context [?a =? ?b] => destruct (Z.eqb_spec a b)
            end); split; intros H; try discriminate; try reflexivity; lia.
Qed.

(** X2: at start-up (every bucket empty, the statics in their cells, whatever
    else the heap holds), [initialize_common] returns, and afterwards every
    common callsite is marked interned, sits in the bucket of its arity and
    keeps its address; the rest of the heap is untouched. *)
Theorem initialize_common_interns (rest : list (option MVMCallsite)) (id : Z) (p : ptr) :
  MVM_callsite_get_common id = Ok p ->
  exists st' c,
    MVM_callsite_initialize_common
      (Build_MVMInstance (static_callsites ++ rest)
         (replicate (Z.to_nat MVM_INTERN_ARITY_LIMIT) []))
    = Some st' /\
    deref (heap st') p = Some c /\ is_interned c = 1 /\
    (exists bucket, by_arity st' !! Z.to_nat (flag_count c) = Some bucket /\ p ∈ bucket) /\
    MVM_callsite_is_common p = true /\
    (forall q : nat, deref (heap st') (length static_callsites + q)%nat = deref rest q).
Proof.
  intros Hid.
  eexists. 
  assert (Hrun : MVM_callsite_initialize_common
            (Build_MVMInstance (static_callsites ++ rest)
               (replicate (Z.to_nat MVM_INTERN_ARITY_LIMIT) []))
          = Some (Build_MVMInstance
                    (map (option_map (set_is_interned 1)) static_callsites ++ rest)
                    [[0%nat]; [1%nat]; [2; 3; 4; 5; 6]%nat; [7; 8]%nat; []; []; []; []])).
  { vm_compute. reflexivity. }
  unfold MVM_callsite_get_common in Hid.
  repeat (match type of Hid with
          | (if ?b then _ else _) = _ => destruct b
          end;
          [inversion Hid; subst p; eexists; split; [exact Hrun|];
           split; [reflexivity|]; split; [reflexivity|];
           split; [eexists; split; [reflexivity|]; apply list_elem_of_In; cbn; auto 10|];
           split; [reflexivity|];
           intros q; cbn [heap]; unfold deref;
           rewrite lookup_app_r by (cbn; lia);
           do 2 f_equal; cbn; lia|]).
  discriminate.
Qed.

Lemma initialize_common_interns_witness :
  exists st' c,
    MVM_callsite_initialize_common
      (Build_MVMInstance (static_callsites ++ [])
         (replicate (Z.to_nat MVM_INTERN_ARITY_LIMIT) []))
    = Some st' /\
    deref (heap st') obj_obj_callsite_ptr = Some c /\ is_interned c = 1 /\
    (exists bucket, by_arity st' !! Z.to_nat (flag_count c) = Some bucket /\
                    obj_obj_callsite_ptr ∈ bucket) /\
    MVM_callsite_is_common obj_obj_callsite_ptr = true /\
    (forall q : nat, deref (heap st') (length static_callsites + q)%nat = deref [] q).
Proof.
  apply (initialize_common_interns [] MVM_CALLSITE_ID_OBJ_OBJ obj_obj_callsite_ptr).
  reflexivity.
Defined.

Lemma first_match_None (h : list (option MVMCallsite)) (bucket : list ptr)
    (cs e : MVMCallsite) (q : ptr) :
  first_match h bucket cs = None -> q ∈ bucket -> deref h q = Some e ->
  ~ structurally_equal e cs.
Proof.
  unfold first_match. intros Hnone Hq He Heq.
  pose proof (find_none _ _ Hnone q (proj1 (list_elem_of_In _ _) Hq)) as H.
  cbv beta in H. rewrite He in H. apply structurally_equalb_spec in Heq. congruence.
Qed.

Lemma first_match_is_Some (h : list (option MVMCallsite)) (bucket : list ptr)
    (cs e : MVMCallsite) (q : ptr) :
  q ∈ bucket -> deref h q = Some e -> structurally_equal e cs ->
  exists q', first_match h bucket cs = Some q'.
Proof.
  intros Hq He Heq. destruct (first_match h bucket cs) as [q'|] eqn:Hfm; [eauto|].
  exfalso. eapply first_match_None; eauto.
Qed.

Lemma in_store_insert (st : MVMInstance) (n : nat) (bucket : list ptr) (p q : ptr)
    (h : list (option MVMCallsite)) :
  by_arity st !! n = Some bucket ->
  in_store (Build_MVMInstance h (<[n := bucket ++ [p]]> (by_arity st))) q <->
  in_store st q \/ q = p.
Proof.
  intros Hb. unfold in_store. cbn [by_arity]. split.
  - intros (k & bk & Hk & Hq).
    destruct (decide (k = n)) as [->|Hne].
    + rewrite list_lookup_insert_eq in Hk by (eapply lookup_lt_Some; eauto).
      inversion Hk; subst bk. apply elem_of_app in Hq. destruct Hq as [Hq|Hq].
      * left. eauto.
      * right. now apply list_elem_of_singleton in Hq.
    + rewrite list_lookup_insert_ne in Hk by congruence. left. eauto.
  - intros [(k & bk & Hk & Hq)| ->].
    + destruct (decide (k = n)) as [->|Hne].
      * exists n, (bucket ++ [p]). split.
        -- apply list_lookup_insert_eq. eapply lookup_lt_Some; eauto.
        -- rewrite Hb in Hk. inversion Hk; subst bk. apply elem_of_app. now left.
      * exists k, bk. split; [|exact Hq]. now rewrite list_lookup_insert_ne by congruence.
    + exists n, (bucket ++ [p]). split.
      * apply list_lookup_insert_eq. eapply lookup_lt_Some; eauto.
      * apply elem_of_app. right. now apply list_elem_of_singleton.
Qed.

(** X3: [try_intern] on a well-formed descriptor the store does not hold
    returns; the store stays well-formed, every descriptor interned before
    is still interned, at its address and unchanged; and when the
    descriptor is internable the pointer handed back is in the store and
    points to a descriptor structurally equal to the one passed in. *)
Theorem try_intern_keeps_store (st : MVMInstance) (p : ptr) (cs : MVMCallsite) :
  interns_wf st -> deref (heap st) p = Some cs -> callsite_wf cs ->
  ~ in_store st p ->
  exists st' p',
    MVM_callsite_try_intern st p = Some (st', p') /\
    interns_wf st' /\
    (forall q, in_store st q ->
       in_store st' q /\ deref (heap st') q = deref (heap st) q) /\
    (internable cs ->
     in_store st' p' /\
     exists c', deref (heap st') p' = Some c' /\ structurally_equal c' cs).
Proof.
  intros Hst Hp Hwf Hns.
  destruct (Z.eq_dec (has_flattening cs) 0) as [Hf|Hf].
  1: destruct (internable_dec cs Hf) as [Hi|Hg].
  - destruct (try_intern_cases st p cs Hst Hp Hwf Hi Hns)
      as (bk & st' & p' & Hbk & Ht & Hst' & _ & Hframe & Hcase).
    exists st', p'. split; [exact Ht|]. split; [exact Hst'|].
    assert (Hne : forall q, in_store st q -> q <> p) by (intros q Hq ->; auto).
    split.
    + intros q Hq. split; [|apply Hframe; auto].
      destruct Hcase as [(_ & Hba & _)|(_ & _ & Hba & _)].
      * unfold in_store. now rewrite Hba.
      * destruct st' as [h' ba']. cbn [by_arity] in Hba. subst ba'.
        apply (in_store_insert st _ _ _ _ h' Hbk). now left.
    + intros _. destruct Hcase as [(Hfm & Hba & _)|(_ & -> & Hba & Hd)].
      * destruct (first_match_Some _ _ _ _ Hfm) as (Hin & e & He & Heq).
        assert (Hq : in_store st p') by (exists (Z.to_nat (flag_count cs)), bk; auto).
        split; [unfold in_store; now rewrite Hba|].
        exists e. split; [|exact Heq]. rewrite Hframe; auto.
      * split.
        -- destruct st' as [h' ba']. cbn [by_arity] in Hba. subst ba'.
           apply (in_store_insert st _ _ _ _ h' Hbk). now right.
        -- exists (set_is_interned 1 cs). split; [exact Hd|].
           apply structurally_equal_interned.
  - exists st, p. split; [apply try_intern_guarded with (cs := cs); auto|].
    split; [exact Hst|]. split; [auto|].
    intros (_ & Ha & Hn). exfalso. destruct Hg as [Hg|[Hg1 Hg2]]; [lia|].
    destruct (Hn Hg1) as [? E]. congruence.
  - exists st, p. split; [apply try_intern_guarded with (cs := cs); auto|].
    split; [exact Hst|]. split; [auto|]. intros (Hf' & _). contradiction.
Qed.

(** X4: a store that holds one descriptor per shape still does after
    [try_intern]: no bucket ever gets two structurally equal entries. *)
Theorem try_intern_keeps_unique (st st' : MVMInstance) (p p' : ptr) (cs : MVMCallsite) :
  interns_wf st -> interns_unique st ->
  deref (heap st) p = Some cs -> callsite_wf cs -> ~ in_store st p ->
  MVM_callsite_try_intern st p = Some (st', p') ->
  interns_unique st'.
Proof.
  intros Hst Hun Hp Hwf Hns Hrun.
  assert (Hnoop : st' = st -> interns_unique st') by (intros ->; exact Hun).
  destruct (Z.eq_dec (has_flattening cs) 0) as [Hf|Hf].
  2:{ rewrite (try_intern_guarded st p cs Hp) in Hrun by auto.
      inversion Hrun. auto. }
  destruct (internable_dec cs Hf) as [Hi|Hg].
  2:{ rewrite (try_intern_guarded st p cs Hp) in Hrun by auto.
      inversion Hrun. auto. }
  destruct (try_intern_cases st p cs Hst Hp Hwf Hi Hns)
    as (bk & st1 & p1 & Hbk & Ht & _ & _ & Hframe & Hcase).
  rewrite Hrun in Ht. inversion Ht; subst st1 p1. clear Ht Hnoop.
  assert (Hne : forall q, in_store st q -> q <> p) by (intros q Hq ->; auto).
  intros n bucket i j qi qj ei ej Hn Hi' Hj' Hei Hej Heq.
  destruct Hcase as [(_ & Hba & _)|(Hfm & _ & Hba & Hd)].
  - rewrite Hba in Hn.
    assert (Hqi : in_store st qi)
      by (exists n, bucket; split; [exact Hn|eapply list_elem_of_lookup_2; eauto]).
    assert (Hqj : in_store st qj)
      by (exists n, bucket; split; [exact Hn|eapply list_elem_of_lookup_2; eauto]).
    rewrite Hframe in Hei, Hej by auto.
    eapply Hun; eauto.
  - rewrite Hba in Hn.
    destruct (decide (n = Z.to_nat (flag_count cs))) as [->|Hnn].
    + rewrite list_lookup_insert_eq in Hn by (eapply lookup_lt_Some; eauto).
      inversion Hn; subst bucket. clear Hn.
      assert (Hold : forall k q e, (bk ++ [p]) !! k = Some q -> (k < length bk)%nat ->
                       deref (heap st') q = Some e ->
                       bk !! k = Some q /\ deref (heap st) q = Some e /\ q ∈ bk).
      { intros k q e Hk Hlt He. rewrite lookup_app_l in Hk by assumption.
        assert (q ∈ bk) by (eapply list_elem_of_lookup_2; eauto).
        split; [exact Hk|]. split; [|assumption].
        rewrite <- He. symmetry. apply Hframe. apply Hne.
        now exists (Z.to_nat (flag_count cs)), bk. }
      assert (Hnew : forall k q e, (bk ++ [p]) !! k = Some q -> (length bk <= k)%nat ->
                       deref (heap st') q = Some e ->
                       k = length bk /\ structurally_equal e cs).
      { intros k q e Hk Hge He. rewrite lookup_app_r in Hk by assumption.
        destruct (k - length bk)%nat as [|d] eqn:Hd'; [|destruct d; discriminate].
        simpl in Hk. inversion Hk; subst q. rewrite Hd in He. inversion He; subst e.
        split; [lia|apply structurally_equal_interned]. }
      destruct (Nat.lt_ge_cases i (length bk)) as [Hil|Hil],
               (Nat.lt_ge_cases j (length bk)) as [Hjl|Hjl].
      * destruct (Hold _ _ _ Hi' Hil Hei) as (Bi & Di & _).
        destruct (Hold _ _ _ Hj' Hjl Hej) as (Bj & Dj & _).
        eapply Hun; eauto.
      * destruct (Hold _ _ _ Hi' Hil Hei) as (Bi & Di & Ii).
        destruct (Hnew _ _ _ Hj' Hjl Hej) as (_ & Ej).
        exfalso. eapply (first_match_None _ _ _ _ _ Hfm Ii Di).
        eapply structurally_equal_trans; eauto.
      * destruct (Hold _ _ _ Hj' Hjl Hej) as (Bj & Dj & Ij).
        destruct (Hnew _ _ _ Hi' Hil Hei) as (_ & Ei).
        exfalso. eapply (first_match_None _ _ _ _ _ Hfm Ij Dj).
        eapply structurally_equal_trans; [|exact Ei].
        now apply structurally_equal_sym.
      * destruct (Hnew _ _ _ Hi' Hil Hei) as (-> & _).
        destruct (Hnew _ _ _ Hj' Hjl Hej) as (-> & _). reflexivity.
    + rewrite list_lookup_insert_ne in Hn by congruence.
      assert (Hqi : in_store st qi)
        by (exists n, bucket; split; [exact Hn|eapply list_elem_of_lookup_2; eauto]).
      assert (Hqj : in_store st qj)
        by (exists n, bucket; split; [exact Hn|eapply list_elem_of_lookup_2; eauto]).
      rewrite Hframe in Hei, Hej by auto.
      eapply Hun; eauto.
Qed.

(** X5: handing [try_intern] a pointer the store already holds (interning
    the same descriptor a second time) frees that descriptor while the store
    keeps its pointer: the bucket entry is left dangling. *)
Theorem try_intern_twice_frees (st : MVMInstance) (p : ptr) :
  interns_wf st -> in_store st p ->
  exists st' q,
    MVM_callsite_try_intern st p = Some (st', q) /\
    deref (heap st') p = None /\ in_store st' p /\ ~ interns_wf st'.
Proof.
  intros Hst Hin. pose proof Hin as (n & bk & Hn & Hq).
  destruct Hst as [Hlen Hent]. destruct (Hent n bk p Hn Hq) as (e & He & We & Ie & Fe).
  assert (Hst : interns_wf st) by (split; assumption).
  assert (Hbk : by_arity st !! Z.to_nat (flag_count e) = Some bk).
  { rewrite Fe. now rewrite Nat2Z.id. }
  pose proof (try_intern_spec st p e bk Hst He We Ie Hbk) as Hrun.
  destruct (first_match_is_Some (heap st) bk e e p Hq He) as [q Hfm];
    [split; reflexivity|].
  rewrite Hfm in Hrun.
  assert (Hfree : deref (MVM_free (heap st) p) p = None).
  { unfold MVM_free. apply deref_insert_eq. eapply deref_lt; eauto. }
  eexists _, q. split; [exact Hrun|]. cbn [heap by_arity].
  split; [exact Hfree|]. split; [exact Hin|].
  intros [_ Hent']. cbn [heap by_arity] in Hent'.
  destruct (Hent' n bk p Hn Hq) as (e' & He' & _). congruence.
Qed.

Lemma copy_value_exact : forall cs : MVMCallsite, deep_wf cs -> copy_value cs = Some cs.
Proof.
  fix IH 1. intros [fl fc ac np hf ii w nm] [Hwf Hw].
  pose proof (wf_flag_count _ Hwf) as Hfc. pose proof (wf_names _ Hwf) as Hnm.
  cbn [arg_flags flag_count num_pos arg_names with_invocant] in Hfc, Hnm, Hw.
  cbn [copy_value arg_flags flag_count arg_count num_pos has_flattening is_interned
       with_invocant arg_names MVM_callsite_num_nameds].
  assert (Hflags : (if fc =? 0 then Some []
                    else if (Z.to_nat fc <=? length fl)%nat
                         then Some (take (Z.to_nat fc) fl) else None) = Some fl).
  { destruct (Z.eqb_spec fc 0) as [Hz|Hz].
    - f_equal. symmetry. apply length_zero_iff_nil. lia.
    - destruct (Nat.leb_spec (Z.to_nat fc) (length fl)); [|lia].
      now rewrite take_ge by lia. }
  rewrite Hflags.
  assert (Hnames : match nm with
                   | Some l =>
                       if (Z.to_nat (fc - np) <=? length l)%nat
                       then Some (Some (take (Z.to_nat (fc - np)) l)) else None
                   | None => Some None
                   end = Some nm).
  { destruct nm as [l|]; [|reflexivity]. specialize (Hnm l eq_refl).
    destruct (Nat.leb_spec (Z.to_nat (fc - np)) (length l)); [|lia].
    now rewrite take_ge by lia. }
  cbv zeta. unfold MVM_callsite_num_nameds. cbn [flag_count num_pos].
  rewrite Hnames.
  destruct w as [w|]; [|reflexivity].
  now rewrite (IH w Hw).
Qed.

Lemma copy_is_exact_clone_aux (st : MVMInstance) (p : ptr) (cs : MVMCallsite) :
  deref (heap st) p = Some cs -> deep_wf cs ->
  exists st',
    MVM_callsite_copy st p = Some (st', length (heap st)) /\
    deref (heap st') (length (heap st)) = Some cs /\
    (forall q, (q < length (heap st))%nat -> deref (heap st') q = deref (heap st) q) /\
    by_arity st' = by_arity st.
Proof.
  intros Hp Hwf. unfold MVM_callsite_copy. rewrite Hp, (copy_value_exact cs Hwf).
  cbn [MVM_malloc]. eexists. split; [reflexivity|]. cbn [heap by_arity].
  split; [apply deref_malloc_new|]. split; [|reflexivity].
  intros q Hq. now apply deref_malloc_old.
Qed.

(** X6: [copy] of a descriptor that is well formed, companions included,
    returns: the clone is a fresh cell holding the same flags, counts, names
    and companion as the original, and the original, the other cells and the
    store are as they were. *)
Theorem copy_is_exact_clone (st : MVMInstance) (p : ptr) (cs : MVMCallsite) :
  deref (heap st) p = Some cs -> deep_wf cs ->
  exists st',
    MVM_callsite_copy st p = Some (st', length (heap st)) /\
    deref (heap st') (length (heap st)) = Some cs /\
    deref (heap st) (length (heap st)) = None /\
    (forall q, (q < length (heap st))%nat -> deref (heap st') q = deref (heap st) q) /\
    by_arity st' = by_arity st.
Proof.
  intros Hp Hwf. unfold MVM_callsite_copy. rewrite Hp, (copy_value_exact cs Hwf).
  cbn [MVM_malloc]. eexists. split; [reflexivity|]. cbn [heap by_arity].
  split; [apply deref_malloc_new|]. split; [|split; [|reflexivity]].
  - unfold deref. now rewrite lookup_ge_None_2 by lia.
  - intros q Hq. now apply deref_malloc_old.
Qed.

(** X7: in a store that holds one descriptor per shape, copying an interned
    descriptor and interning the copy gives back the pointer of the
    original; the copy is freed and the store is as it was. *)
Theorem intern_copy_of_interned (st : MVMInstance) (p : ptr) (cs : MVMCallsite) :
  interns_wf st -> interns_unique st -> in_store st p ->
  deref (heap st) p = Some cs -> deep_wf cs ->
  exists st1 q st2,
    MVM_callsite_copy st p = Some (st1, q) /\
    MVM_callsite_try_intern st1 q = Some (st2, p) /\
    deref (heap st2) q = None /\
    deref (heap st2) p = Some cs /\
    by_arity st2 = by_arity st.
Proof.
  intros Hst Hun Hin Hp Hdw.
  destruct (copy_is_exact_clone_aux st p cs Hp Hdw) as (st1 & Hc & Hq & Hold & Hba).
  pose proof Hin as (n & bk & Hn & Hpb).
  pose proof Hst as [Hlen Hent].
  destruct (Hent n bk p Hn Hpb) as (e & He & We & Ie & Fe).
  rewrite Hp in He. inversion He; subst e. clear He.
  assert (Hst1 : interns_wf st1).
  { split; [now rewrite Hba|]. intros k b r Hk Hr. rewrite Hba in Hk.
    destruct (Hent k b r Hk Hr) as (e & He & Hrest). exists e. split; [|exact Hrest].
    rewrite Hold; [exact He|]. eapply deref_lt; eauto. }
  assert (Hns : ~ in_store st1 (length (heap st))).
  { intros (k & b & Hk & Hr). rewrite Hba in Hk.
    destruct (Hent k b _ Hk Hr) as (e & He & _). apply deref_lt in He. lia. }
  assert (Hbk : by_arity st1 !! Z.to_nat (flag_count cs) = Some bk).
  { rewrite Hba, Fe. now rewrite Nat2Z.id. }
  pose proof (try_intern_spec st1 _ cs bk Hst1 Hq We Ie Hbk) as Hrun.
  assert (Hp1 : deref (heap st1) p = Some cs).
  { rewrite Hold; [exact Hp|]. eapply deref_lt; eauto. }
  destruct (first_match_is_Some (heap st1) bk cs cs p Hpb Hp1) as [q' Hfm];
    [split; reflexivity|].
  destruct (first_match_Some _ _ _ _ Hfm) as (Hq'b & e' & He' & Heq').
  assert (q' = p).
  { apply list_elem_of_lookup_1 in Hq'b, Hpb.
    destruct Hq'b as [i Hi], Hpb as [j Hj].
    assert (i = j); [|congruence].
    eapply (Hun n bk i j q' p e' cs); eauto.
    rewrite <- He'. symmetry. apply Hold. eapply deref_lt.
    rewrite <- Hold; [exact He'|]. 
    destruct (Hent n bk q' Hn ltac:(eapply list_elem_of_lookup_2; eauto)) as (x & Hx & _).
    eapply deref_lt; eauto. }
  subst q'. rewrite Hfm in Hrun.
  exists st1, (length (heap st)). eexists. split; [exact Hc|]. split; [exact Hrun|].
  cbn [heap by_arity]. split; [|split; [|exact Hba]].
  - unfold MVM_free. apply deref_insert_eq. eapply deref_lt; eauto.
  - unfold MVM_free. rewrite deref_insert_ne; [exact Hp1|].
    apply deref_lt in Hp. lia.
Qed.

(** *** [insert_positional] on its own, and after it [drop_positional] *)

Lemma inserted_callsite_wf (cs : MVMCallsite) (i : nat) (flag : Z) :
  callsite_wf cs -> (Z.of_nat i <= num_pos cs) ->
  0 <= flag < 256 -> is_named_flag flag = false ->
  flag_count cs + 1 < 65536 -> arg_count cs + 1 < 65536 ->
  callsite_wf (Build_MVMCallsite (insert_at i flag (arg_flags cs)) (flag_count cs + 1)
                 (arg_count cs + 1) (num_pos cs + 1) 0 0 None (arg_names cs)).
Proof.
  intros Hwf Hi Hflag Hpos Hfc16 Hac16.
  pose proof (wf_flag_count _ Hwf) as Hfc.
  pose proof (wf_num_pos _ Hwf) as Hnp. pose proof (wf_arg_count _ Hwf) as Hac.
  assert (Hil : (i <= length (arg_flags cs))%nat) by lia.
  constructor; cbn [arg_flags flag_count arg_count num_pos arg_names].
  - rewrite length_insert_at by assumption. lia.
  - lia.
  - intros j f Hj. rewrite lookup_insert_at in Hj by assumption.
    destruct (j <? i)%nat; [eapply (wf_bytes _ Hwf); eauto|].
    destruct (j =? i)%nat; [inversion Hj; subst; lia|eapply (wf_bytes _ Hwf); eauto].
  - lia.
  - intros j f Hj. rewrite lookup_insert_at in Hj by assumption.
    destruct (Nat.ltb_spec j i) as [Hji|Hji].
    + rewrite (wf_positional _ Hwf _ _ Hj).
      rewrite !bool_decide_false by lia. reflexivity.
    + destruct (Nat.eqb_spec j i) as [->|Hne].
      * inversion Hj; subst f. rewrite Hpos.
        now rewrite bool_decide_false by lia.
      * rewrite (wf_positional _ Hwf _ _ Hj). apply bool_decide_ext. lia.
  - lia.
  - lia.
  - intros l Hl. rewrite (wf_names _ Hwf _ Hl). lia.
Qed.

Lemma insert_positional_ok (st : MVMInstance) (p : ptr) (cs : MVMCallsite)
    (idx flag : Z) :
  interns_wf st -> deref (heap st) p = Some cs -> callsite_wf cs ->
  0 <= idx <= num_pos cs -> has_flattening cs = 0 ->
  0 <= flag < 256 -> is_named_flag flag = false ->
  flag_count cs + 1 < 65536 -> arg_count cs + 1 < 65536 ->
  exists st' r c,
    MVM_callsite_insert_positional st p idx flag = Ok (st', r) /\
    interns_wf st' /\ deref (heap st') r = Some c /\ callsite_wf c /\
    has_flattening c = 0 /\
    arg_flags c = insert_at (Z.to_nat idx) flag (arg_flags cs) /\
    num_pos c = num_pos cs + 1 /\ flag_count c = flag_count cs + 1 /\
    arg_count c = arg_count cs + 1 /\ names_of c = names_of cs.
Proof.
  intros Hst Hp Hwf Hidx Hf Hflag Hpos Hfc16 Hac16.
  destruct (insert_positional_built st p cs idx flag Hp Hwf Hidx Hf Hflag Hpos Hfc16 Hac16)
    as (nc & Hrun & Wnc & Fnc & Hfl & Hnm).
  destruct (intern_fresh st nc Hst Wnc Fnc)
    as (st' & r & c & Ht & Hst' & Hr & Wc & Fc & [Efl Enm] & _).
  pose proof (inserted_callsite_wf cs (Z.to_nat idx) flag Hwf ltac:(lia)
                Hflag Hpos Hfc16 Hac16) as W0.
  destruct (wf_num_pos_of_flags c _ Wc W0) as (E1 & E2 & E3).
  { cbn [arg_flags]. congruence. }
  cbn [num_pos flag_count arg_count] in E1, E2, E3.
  exists st', r, c. rewrite Hrun, Ht. split; [reflexivity|].
  repeat (split; [first [assumption | congruence]|]).
  rewrite Enm. unfold names_of. now rewrite Hnm.
Qed.

(** X8: [insert_positional] throws [OutOfRange] exactly when
    [idx > num_pos] (the first test), throws [HasFlattening] exactly when the
    index is in range and the descriptor has flattening, and otherwise, for a
    positional flag and counts that leave room for one more, returns a live
    descriptor whose flags are those of [cs] with [flag] put at position
    [idx], whose [num_pos], [flag_count] and [arg_count] are one larger, and
    whose names are those of [cs]. *)
Theorem insert_positional_spec (st : MVMInstance) (p : ptr) (cs : MVMCallsite)
    (idx flag : Z) :
  interns_wf st -> deref (heap st) p = Some cs -> callsite_wf cs -> 0 <= idx ->
  0 <= flag < 256 -> is_named_flag flag = false ->
  flag_count cs + 1 < 65536 -> arg_count cs + 1 < 65536 ->
  (MVM_callsite_insert_positional st p idx flag = Throw OutOfRange <->
   idx > num_pos cs) /\
  (MVM_callsite_insert_positional st p idx flag = Throw HasFlattening <->
   idx <= num_pos cs /\ has_flattening cs <> 0) /\
  (idx <= num_pos cs -> has_flattening cs = 0 ->
   exists st' r c,
     MVM_callsite_insert_positional st p idx flag = Ok (st', r) /\
     deref (heap st') r = Some c /\
     arg_flags c = insert_at (Z.to_nat idx) flag (arg_flags cs) /\
     num_pos c = num_pos cs + 1 /\ flag_count c = flag_count cs + 1 /\
     arg_count c = arg_count cs + 1 /\ names_of c = names_of cs).
Proof.
  intros Hst Hp Hwf Hidx Hflag Hpos Hfc16 Hac16.
  assert (Hrange : idx > num_pos cs ->
                   MVM_callsite_insert_positional st p idx flag = Throw OutOfRange).
  { intros H. unfold MVM_callsite_insert_positional. rewrite Hp. cbn [of_option obind].
    destruct (Z.gtb_spec idx (num_pos cs)); [reflexivity|lia]. }
  assert (Hflat : idx <= num_pos cs -> has_flattening cs <> 0 ->
                  MVM_callsite_insert_positional st p idx flag = Throw HasFlattening).
  { intros H H'. unfold MVM_callsite_insert_positional. rewrite Hp. cbn [of_option obind].
    destruct (Z.gtb_spec idx (num_pos cs)); [lia|].
    destruct (Z.eqb_spec (has_flattening cs) 0); [contradiction|reflexivity]. }
  assert (Hok : idx <= num_pos cs -> has_flattening cs = 0 ->
                exists st' r c,
                  MVM_callsite_insert_positional st p idx flag = Ok (st', r) /\
                  deref (heap st') r = Some c /\
                  arg_flags c = insert_at (Z.to_nat idx) flag (arg_flags cs) /\
                  num_pos c = num_pos cs + 1 /\ flag_count c = flag_count cs + 1 /\
                  arg_count c = arg_count cs + 1 /\ names_of c = names_of cs).
  { intros H H'.
    destruct (insert_positional_ok st p cs idx flag Hst Hp Hwf (conj Hidx H) H'
                Hflag Hpos Hfc16 Hac16)
      as (st' & r & c & E & _ & Hr & _ & _ & R).
    exists st', r, c. auto. }
  split; [|split; [|exact Hok]].
  - split; [|exact Hrange]. intros E.
    destruct (Z_le_gt_dec idx (num_pos cs)) as [Hle|Hgt]; [exfalso|exact Hgt].
    destruct (Z.eq_dec (has_flattening cs) 0) as [Hz|Hnz].
    + destruct (Hok Hle Hz) as (? & ? & ? & E' & _). congruence.
    + rewrite (Hflat Hle Hnz) in E. discriminate.
  - split; [|intros [H H']; now apply Hflat]. intros E.
    destruct (Z_le_gt_dec idx (num_pos cs)) as [Hle|Hgt].
    + split; [exact Hle|]. intros Hz.
      destruct (Hok Hle Hz) as (? & ? & ? & E' & _). congruence.
    + rewrite (Hrange Hgt) in E. discriminate.
Qed.

Lemma remove_at_insert_at {A} (i : nat) (x : A) (l : list A) :
  (i <= length l)%nat -> remove_at i (insert_at i x l) = l.
Proof.
  intros Hi. apply list_eq. intros j.
  rewrite lookup_remove_at by (rewrite length_insert_at; lia).
  destruct (Nat.ltb_spec j i) as [Hj|Hj].
  - rewrite lookup_insert_at by lia.
    destruct (Nat.ltb_spec j i); [reflexivity|lia].
  - rewrite lookup_insert_at by lia.
    destruct (Nat.ltb_spec (S j) i); [lia|].
    destruct (Nat.eqb_spec (S j) i); [lia|]. f_equal. lia.
Qed.

(** X9: the other round trip of the derivation operators: inserting a
    positional flag at [idx] and then dropping the positional at [idx] both
    return, and the result is interned-equal to the descriptor one started
    from (same flag bytes, same names). *)
Theorem drop_after_insert (st : MVMInstance) (p : ptr) (cs : MVMCallsite)
    (idx flag : Z) :
  interns_wf st -> deref (heap st) p = Some cs -> callsite_wf cs ->
  0 <= idx <= num_pos cs -> has_flattening cs = 0 ->
  0 <= flag < 256 -> is_named_flag flag = false ->
  flag_count cs + 1 < 65536 -> arg_count cs + 1 < 65536 ->
  exists st1 r st2 r' c',
    MVM_callsite_insert_positional st p idx flag = Ok (st1, r) /\
    MVM_callsite_drop_positional st1 r idx = Ok (st2, r') /\
    deref (heap st2) r' = Some c' /\
    structurally_equal c' cs.
Proof.
  intros Hst Hp Hwf Hidx Hf Hflag Hpos Hfc16 Hac16.
  destruct (insert_positional_ok st p cs idx flag Hst Hp Hwf Hidx Hf Hflag Hpos
              Hfc16 Hac16)
    as (st1 & r & c & Hins & Hst1 & Hr & Wc & Fc & Hfl & Hnp & Hfc & Hac & Hnm).
  destruct (drop_positional_ok st1 r c idx Hst1 Hr Wc ltac:(lia) Fc)
    as (st2 & r' & c' & Hdrop & _ & Hr' & _ & _ & Hfl' & _ & _ & _ & Hnm').
  exists st1, r, st2, r', c'. split; [exact Hins|]. split; [exact Hdrop|].
  split; [exact Hr'|]. split.
  - rewrite Hfl', Hfl. apply remove_at_insert_at.
    pose proof (wf_flag_count _ Hwf). pose proof (wf_num_pos _ Hwf). lia.
  - congruence.
Qed.

(** X10: destroying a live descriptor keeps the store well-formed exactly
    when the store does not hold it: an interned descriptor must not be
    destroyed. *)
Theorem destroy_keeps_store_iff (st st' : MVMInstance) (p : ptr) :
  interns_wf st -> MVM_callsite_destroy st p = Some st' ->
  (interns_wf st' <-> ~ in_store st p).
Proof.
  intros Hst Hrun. unfold MVM_callsite_destroy in Hrun.
  destruct (deref (heap st) p) as [cs|] eqn:Hp; [|discriminate].
  inversion Hrun; subst st'. clear Hrun. destruct Hst as [Hlen Hent]. split.
  - intros [_ Hent'] (n & bk & Hn & Hq). cbn [heap by_arity] in Hent'.
    destruct (Hent' n bk p Hn Hq) as (e & He & _).
    unfold MVM_free in He. rewrite deref_insert_eq in He by (eapply deref_lt; eauto).
    discriminate.
  - intros Hns. split; [exact Hlen|]. cbn [heap by_arity].
    intros n bk q Hn Hq. destruct (Hent n bk q Hn Hq) as (e & He & Hrest).
    exists e. split; [|exact Hrest]. unfold MVM_free.
    rewrite deref_insert_ne; [exact He|]. intros ->. apply Hns. now exists n, bk.
Qed.

(** *** Concrete instances *)

Lemma short_buckets_unique (st : MVMInstance) :
  Forall (fun bucket => (length bucket <= 1)%nat) (by_arity st) -> interns_unique st.
Proof.
  intros Hshort n bucket i j qi qj ei ej Hn Hi Hj _ _ _.
  rewrite Forall_forall in Hshort.
  pose proof (Hshort bucket (list_elem_of_lookup_2 _ _ _ Hn)) as Hlen.
  apply lookup_lt_Some in Hi, Hj. lia.
Qed.

Lemma demo_state_wf : interns_wf demo_state.
Proof. apply interns_wfb_sound. vm_compute. reflexivity. Qed.

Lemma demo_state_unique : interns_unique demo_state.
Proof. apply short_buckets_unique. repeat constructor. Qed.

Lemma obj_int_str_wf : callsite_wf obj_int_str.
Proof. apply callsite_wfb_sound. vm_compute. reflexivity. Qed.

Lemma obj_str_deep_wf : deep_wf obj_str.
Proof. split; [apply callsite_wfb_sound; vm_compute; reflexivity|exact I]. Qed.

Lemma try_intern_keeps_store_witness :
  exists st' p',
    MVM_callsite_try_intern demo_state 1%nat = Some (st', p') /\
    interns_wf st' /\
    (forall q, in_store demo_state q ->
       in_store st' q /\ deref (heap st') q = deref (heap demo_state) q) /\
    (internable obj_int_str ->
     in_store st' p' /\
     exists c', deref (heap st') p' = Some c' /\ structurally_equal c' obj_int_str).
Proof.
  apply (try_intern_keeps_store demo_state 1%nat obj_int_str).
  - exact demo_state_wf.
  - reflexivity.
  - exact obj_int_str_wf.
  - apply in_storeb_sound. vm_compute. reflexivity.
Defined.

Lemma try_intern_keeps_unique_witness :
  interns_unique
    (Build_MVMInstance
       [Some obj_str; Some (set_is_interned 1 obj_int_str); Some obj_int_str;
        Some flattening_obj]
       [[]; []; [0%nat]; [1%nat]; []; []; []; []]).
Proof.
  apply (try_intern_keeps_unique demo_state _ 1%nat 1%nat obj_int_str).
  - exact demo_state_wf.
  - exact demo_state_unique.
  - reflexivity.
  - exact obj_int_str_wf.
  - apply in_storeb_sound. vm_compute. reflexivity.
  - vm_compute. reflexivity.
Defined.

Lemma try_intern_twice_frees_witness :
  exists st' q,
    MVM_callsite_try_intern demo_state 0%nat = Some (st', q) /\
    deref (heap st') 0%nat = None /\ in_store st' 0%nat /\ ~ interns_wf st'.
Proof.
  apply (try_intern_twice_frees demo_state 0%nat).
  - exact demo_state_wf.
  - exists 2%nat, [0%nat]. split; [reflexivity|]. apply list_elem_of_In. now left.
Defined.

Lemma copy_is_exact_clone_witness :
  exists st',
    MVM_callsite_copy demo_state 0%nat = Some (st', length (heap demo_state)) /\
    deref (heap st') (length (heap demo_state)) = Some obj_str /\
    deref (heap demo_state) (length (heap demo_state)) = None /\
    (forall q, (q < length (heap demo_state))%nat ->
       deref (heap st') q = deref (heap demo_state) q) /\
    by_arity st' = by_arity demo_state.
Proof.
  apply (copy_is_exact_clone demo_state 0%nat obj_str).
  - reflexivity.
  - exact obj_str_deep_wf.
Defined.

Lemma intern_copy_of_interned_witness :
  exists st1 q st2,
    MVM_callsite_copy demo_state 0%nat = Some (st1, q) /\
    MVM_callsite_try_intern st1 q = Some (st2, 0%nat) /\
    deref (heap st2) q = None /\
    deref (heap st2) 0%nat = Some obj_str /\
    by_arity st2 = by_arity demo_state.
Proof.
  apply (intern_copy_of_interned demo_state 0%nat obj_str).
  - exact demo_state_wf.
  - exact demo_state_unique.
  - exists 2%nat, [0%nat]. split; [reflexivity|]. apply list_elem_of_In. now left.
  - reflexivity.
  - exact obj_str_deep_wf.
Defined.

Lemma insert_positional_spec_witness :
  exists st' r c,
    MVM_callsite_insert_positional demo_state 1%nat 3 4 = Ok (st', r) /\
    deref (heap st') r = Some c /\
    arg_flags c = [1; 2; 8; 4] /\
    num_pos c = 4 /\ flag_count c = 4 /\ arg_count c = 4 /\ names_of c = [].
Proof.
  refine (proj2 (proj2 (insert_positional_spec demo_state 1%nat obj_int_str 3 4
                          _ _ _ _ _ _ _ _)) _ _).
  - exact demo_state_wf.
  - reflexivity.
  - exact obj_int_str_wf.
  - lia.
  - lia.
  - reflexivity.
  - simpl. lia.
  - simpl. lia.
  - simpl. lia.
  - reflexivity.
Defined.

Lemma drop_after_insert_witness :
  exists st1 r st2 r' c',
    MVM_callsite_insert_positional demo_state 1%nat 0 2 = Ok (st1, r) /\
    MVM_callsite_drop_positional st1 r 0 = Ok (st2, r') /\
    deref (heap st2) r' = Some c' /\
    structurally_equal c' obj_int_str.
Proof.
  apply (drop_after_insert demo_state 1%nat obj_int_str 0 2).
  - exact demo_state_wf.
  - reflexivity.
  - exact obj_int_str_wf.
  - simpl. lia.
  - reflexivity.
  - lia.
  - reflexivity.
  - simpl. lia.
  - simpl. lia.
Defined.

Lemma destroy_keeps_store_iff_witness :
  interns_wf (Build_MVMInstance (MVM_free (heap demo_state) 1%nat) (by_arity demo_state))
  <-> ~ in_store demo_state 1%nat.
Proof.
  apply (destroy_keeps_store_iff demo_state _ 1%nat).
  - exact demo_state_wf.
  - reflexivity.
Defined.

End CallsiteStore.

(* ===================================================================== *)
(** * Further properties of the index hash table *)
(* ===================================================================== *)

Section HashTable.
Import IndexHash.

Variable MVM_string_hash_code : string -> Z.

(** The slots of a list in which the run [seg] has been moved one place on
    (its elements mapped by [f]) to make room for [p]. *)
Lemma shifted_lookup {A} (f : A -> A) (L1 seg L2 : list A) (p y : A) (i : nat) :
  (L1 ++ p :: map f seg ++ L2) !! i
  = if (i <? length L1)%nat then (L1 ++ seg ++ y :: L2) !! i
    else if (i =? length L1)%nat then Some p
    else if (i <=? length L1 + length seg)%nat
         then f <$> (L1 ++ seg ++ y :: L2) !! (i - 1)%nat
         else (L1 ++ seg ++ y :: L2) !! i.
Proof.
  destruct (Nat.ltb_spec i (length L1)) as [Hi|Hi].
  { now rewrite !lookup_app_l by lia. }
  destruct (Nat.eqb_spec i (length L1)) as [->|Hne].
  { rewrite lookup_app_r by lia. now rewrite Nat.sub_diag. }
  rewrite lookup_app_r by lia.
  destruct (i - length L1)%nat as [|k] eqn:Hk; [lia|]. cbn [lookup list_lookup].
  destruct (Nat.leb_spec i (length L1 + length seg)) as [Hle|Hgt].
  - rewrite (lookup_app_l (map f seg)) by (rewrite length_map; lia).
    rewrite list_lookup_fmap.
    rewrite (lookup_app_r L1) by lia. rewrite (lookup_app_l seg) by lia.
    do 2 f_equal. lia.
  - rewrite (lookup_app_r (map f seg)) by (rewrite length_map; lia). rewrite length_map.
    rewrite (lookup_app_r L1) by lia. rewrite (lookup_app_r seg) by lia.
    replace (i - length L1 - length seg)%nat with (S (k - length seg)) by lia.
    reflexivity.
Qed.

Lemma gap_lookup {A} (L1 seg L2 : list A) (y : A) :
  (L1 ++ seg ++ y :: L2) !! (length L1 + length seg)%nat = Some y.
Proof.
  rewrite lookup_app_r by lia. rewrite lookup_app_r by lia.
  now replace (length L1 + length seg - length L1 - length seg)%nat with 0%nat by lia.
Qed.

Lemma run_lookup {A} (L1 seg L2 : list A) (y : A) (i : nat) :
  (length L1 <= i < length L1 + length seg)%nat ->
  (L1 ++ seg ++ y :: L2) !! i = seg !! (i - length L1)%nat.
Proof.
  intros Hi. rewrite lookup_app_r by lia. now rewrite lookup_app_l by lia.
Qed.

Ltac split_nat_tests H :=
  repeat match type of H with
         | context [(?a <? ?b)%nat] => destruct (Nat.ltb_spec a b)
         | context [(?a =? ?b)%nat] => destruct (Nat.eqb_spec a b)
         | context [(?a <=? ?b)%nat] => destruct (Nat.leb_spec a b)
         end.

Ltac fmap_lookup H v Hv :=
  match type of H with
  | _ <$> ?o = Some _ => destruct o as [v|] eqn:Hv; [|discriminate];
                         cbn [fmap option_fmap option_map] in H
  end.

Lemma slot_bounds (c : MVMIndexHashTableControl) :
  table_inv c -> max_items c <> 0 ->
  forall k v, metadata c !! k = Some v -> Z.of_nat k < allocated_items c ->
    0 <= v < max_probe_distance c /\ bump v = 1 + v.
Proof.
  intros Hinv Hmi k v Hk Hlt.
  destruct (inv_slots _ Hinv _ _ Hk Hlt) as [B1 _].
  pose proof (inv_guard _ Hinv Hmi _ _ Hk Hlt) as B2.
  pose proof (inv_distance _ Hinv) as HL.
  split; [lia|]. unfold bump, u8. apply Z.mod_small. lia.
Qed.

(** Placing the candidate keeps the probe distances in order. *)
Lemma placed_order (c : MVMIndexHashTableControl) (idx pd : Z)
    (M1 seg M2 E1 Eseg E2 : list Z) (x : Z) :
  table_inv c -> max_items c <> 0 -> robin_hood_ordered c ->
  metadata c = M1 ++ seg ++ 0 :: M2 ->
  entries c = E1 ++ Eseg ++ x :: E2 ->
  length M1 = length E1 -> length seg = length Eseg ->
  1 <= pd <= max_probe_distance c ->
  (forall m, metadata c !! length M1 = Some m -> m < pd) ->
  (pd = 1 \/ exists mp, (0 < length M1)%nat /\
                        metadata c !! (length M1 - 1)%nat = Some mp /\ pd <= mp + 1) ->
  robin_hood_ordered (placed c idx pd M1 seg M2 E1 Eseg E2).
Proof.
  intros Hinv Hmi Hrh Hmd Hents HlenM Hlenseg Hpd Hslot Hpred.
  pose proof (inv_distance _ Hinv) as HL.
  pose proof (inv_entries_length _ Hinv) as HentsL.
  assert (Hgap : Z.of_nat (length M1 + length seg) < allocated_items c).
  { rewrite <- HentsL, Hents, !length_app. cbn [length]. lia. }
  assert (Hzero : metadata c !! (length M1 + length seg)%nat = Some 0).
  { rewrite Hmd. apply gap_lookup. }
  pose proof (slot_bounds c Hinv Hmi) as Hb.
  assert (Hu8 : u8 pd = pd) by (apply u8_byte; lia).
  intros i m m' Hm Hm' Hi.
  unfold allocated_items, MVM_index_hash_official_size in Hi.
  cbn [placed metadata official_size_log2 max_probe_distance_limit] in Hm, Hm', Hi.
  fold (MVM_index_hash_official_size c) in Hi. fold (allocated_items c) in Hi.
  rewrite (shifted_lookup bump M1 seg M2 (u8 pd) 0) in Hm, Hm'.
  rewrite <- Hmd in Hm, Hm'. rewrite Hu8 in Hm, Hm'.
  split_nat_tests Hm; split_nat_tests Hm'; try lia.
  - eapply Hrh; eauto.
  - inversion Hm'; subst m'. destruct (Hb _ _ Hm ltac:(lia)) as [B _].
    destruct Hpred as [->|(mp & Hpos & Hmp & Hle)]; [lia|].
    replace (length M1 - 1)%nat with i in Hmp by lia. rewrite Hm in Hmp.
    inversion Hmp; subst. lia.
  - inversion Hm; subst m i. fmap_lookup Hm' v Hv. inversion Hm'; subst m'.
    replace (S (length M1) - 1)%nat with (length M1) in Hv by lia.
    destruct (Hb _ _ Hv ltac:(lia)) as [_ ->]. specialize (Hslot _ Hv). lia.
  - inversion Hm; subst m i.
    assert (length seg = 0%nat) by lia.
    replace (length M1 + length seg)%nat with (length M1) in Hzero by lia.
    pose proof (Hrh _ _ _ Hzero Hm' ltac:(lia)). lia.
  - fmap_lookup Hm v Hv. fmap_lookup Hm' v' Hv'. inversion Hm; inversion Hm'; subst.
    replace (S i - 1)%nat with (S (i - 1)) in Hv' by lia.
    pose proof (Hrh _ _ _ Hv Hv' ltac:(lia)).
    destruct (Hb _ _ Hv ltac:(lia)) as [_ ->].
    destruct (Hb _ _ Hv' ltac:(lia)) as [_ ->]. lia.
  - fmap_lookup Hm v Hv. inversion Hm; subst m.
    assert (i = (length M1 + length seg)%nat) by lia. subst i.
    pose proof (Hrh _ _ _ Hzero Hm' ltac:(lia)).
    destruct (Hb _ _ Hv ltac:(lia)) as [B ->]. lia.
  - eapply Hrh; eauto.
Qed.

Lemma home_slot_placed (list : list string) (c : MVMIndexHashTableControl)
    (idx pd : Z) (M1 seg M2 E1 Eseg E2 : Datatypes.list Z) (key : string) :
  home_slot MVM_string_hash_code (placed c idx pd M1 seg M2 E1 Eseg E2) key
  = home_slot MVM_string_hash_code c key.
Proof. reflexivity. Qed.

(** Placing the candidate keeps every stored index at its key's distance
    from home. *)
Lemma placed_keys (list : list string) (c : MVMIndexHashTableControl) (idx pd : Z)
    (M1 seg M2 E1 Eseg E2 : Datatypes.list Z) (x : Z) (key : string) :
  table_inv c -> max_items c <> 0 -> keys_at_home MVM_string_hash_code list c ->
  metadata c = M1 ++ seg ++ 0 :: M2 ->
  entries c = E1 ++ Eseg ++ x :: E2 ->
  length M1 = length E1 -> length seg = length Eseg ->
  Forall (fun y => y <> 0) seg ->
  1 <= pd <= max_probe_distance c ->
  list !! Z.to_nat idx = Some key ->
  Z.of_nat (length M1) + 1 - pd = home_slot MVM_string_hash_code c key ->
  keys_at_home MVM_string_hash_code list (placed c idx pd M1 seg M2 E1 Eseg E2).
Proof.
  intros Hinv Hmi Hkeys Hmd Hents HlenM Hlenseg Hnzseg Hpd Hkey Hhome.
  pose proof (inv_distance _ Hinv) as HL.
  pose proof (inv_entries_length _ Hinv) as HentsL.
  assert (Hgap : Z.of_nat (length M1 + length seg) < allocated_items c).
  { rewrite <- HentsL, Hents, !length_app. cbn [length]. lia. }
  assert (Hzero : metadata c !! (length M1 + length seg)%nat = Some 0).
  { rewrite Hmd. apply gap_lookup. }
  pose proof (slot_bounds c Hinv Hmi) as Hb.
  assert (Hu8 : u8 pd = pd) by (apply u8_byte; lia).
  intros i m e Hm Hnz He Hi.
  unfold allocated_items, MVM_index_hash_official_size in Hi.
  cbn [placed metadata entries official_size_log2 max_probe_distance_limit] in Hm, He, Hi.
  fold (MVM_index_hash_official_size c) in Hi. fold (allocated_items c) in Hi.
  rewrite (shifted_lookup bump M1 seg M2 (u8 pd) 0) in Hm.
  rewrite <- (map_id Eseg) in He.
  rewrite (shifted_lookup id E1 Eseg E2 idx x) in He.
  rewrite <- Hmd in Hm. rewrite <- Hents in He. rewrite Hu8 in Hm.
  rewrite <- HlenM, <- Hlenseg in He.
  split_nat_tests Hm; split_nat_tests He; try lia.
  - eapply Hkeys; eauto.
  - inversion Hm; inversion He; subst. exists key. split; [exact Hkey|exact Hhome].
  - fmap_lookup Hm v Hv. fmap_lookup He w Hw. unfold id in He.
    assert (w = e) by congruence. subst w.
    assert (m = bump v) by congruence. subst m. clear Hm He.
    destruct (Hb _ _ Hv ltac:(lia)) as [B Hbv]. rewrite Hbv in *.
    assert (Hvnz : v <> 0).
    { rewrite Hmd, run_lookup in Hv by lia.
      rewrite Forall_forall in Hnzseg. apply Hnzseg.
      eapply list_elem_of_lookup_2; eauto. }
    destruct (Hkeys (i - 1)%nat v e Hv Hvnz Hw ltac:(lia)) as (k & Hk & Hh).
    exists k. split; [exact Hk|].
    change (home_slot MVM_string_hash_code (placed c idx pd M1 seg M2 E1 Eseg E2) k)
      with (home_slot MVM_string_hash_code c k). lia.
  - eapply Hkeys; eauto.
Qed.

(** The probe loop keeps the order and the homes (the other parts of the
    invariant are kept by [insert_probe_spec]). *)
Lemma insert_probe_full (list : list string) (c : MVMIndexHashTableControl)
    (idx : Z) (key : string) :
  table_inv c -> max_items c <> 0 -> robin_hood_ordered c ->
  keys_at_home MVM_string_hash_code list c ->
  list !! Z.to_nat idx = Some key ->
  forall (fuel slot : nat) (pd : Z) (c' : MVMIndexHashTableControl),
    1 <= pd <= max_probe_distance c ->
    Z.of_nat slot + 1 - pd = home_slot MVM_string_hash_code c key ->
    (pd = 1 \/ exists mp, (0 < slot)%nat /\
                          metadata c !! (slot - 1)%nat = Some mp /\ pd <= mp + 1) ->
    insert_probe fuel c idx slot pd = Ok c' ->
    robin_hood_ordered c' /\ keys_at_home MVM_string_hash_code list c'.
Proof.
  intros Hinv Hmi Hrh Hkeys Hkey.
  pose proof (inv_distance _ Hinv) as HL.
  pose proof (home_slot_bound MVM_string_hash_code c key Hinv) as Hhb.
  fold (home_slot MVM_string_hash_code c key) in Hhb.
  assert (HA : allocated_items c = MVM_index_hash_official_size c + max_probe_distance c).
  { unfold allocated_items. now rewrite (inv_limit _ Hinv). }
  induction fuel as [|fuel IH]; intros slot pd c' Hpd Hhome Hpred Hrun; [discriminate|].
  assert (Hslot : Z.of_nat slot + 1 < allocated_items c) by lia.
  destruct (metadata c !! slot) as [m|] eqn:Hm.
  2:{ cbn [insert_probe] in Hrun. rewrite Hm in Hrun. discriminate. }
  destruct (Z_lt_ge_dec m pd) as [Hlt|Hge].
  - destruct (run_decomposition c slot Hinv Hslot)
      as (M1 & seg & M2 & E1 & Eseg & x & E2 & Hmd & Hents & L1 & L2 & L3 & Hnz).
    subst slot.
    rewrite (insert_probe_place fuel c idx pd M1 seg M2 E1 Eseg E2 x m) in Hrun;
      auto; try lia.
    inversion Hrun; subst c'. split.
    + eapply placed_order; eauto; try lia.
      intros m0 Hm0. rewrite Hm in Hm0. inversion Hm0; subst. exact Hlt.
    + eapply placed_keys; eauto; lia.
  - pose proof (inv_guard _ Hinv Hmi _ _ Hm ltac:(lia)) as Hguard.
    cbn [insert_probe] in Hrun. rewrite Hm in Hrun. cbn [of_option obind] in Hrun.
    destruct (Z.ltb_spec m pd) as [?|_]; [lia|].
    assert (Hnext : insert_probe fuel c idx (S slot) (pd + 1) = Ok c').
    { destruct (m =? pd).
      - destruct (entries c !! slot) as [e|]; [|discriminate].
        cbn [of_option obind] in Hrun.
        destruct (e =? idx); [discriminate|]. cbn [obind] in Hrun.
        repeat match type of Hrun with
               | (if ?b then _ else _) = _ => destruct b; [discriminate|]
               end. exact Hrun.
      - cbn [obind] in Hrun.
        repeat match type of Hrun with
               | (if ?b then _ else _) = _ => destruct b; [discriminate|]
               end. exact Hrun. }
    apply (IH (S slot) (pd + 1) c'); auto; try lia.
    right. exists m. split; [lia|]. split; [|lia].
    now replace (S slot - 1)%nat with slot by lia.
Qed.

Lemma occupied_length (md ents : Datatypes.list Z) :
  (length (occupied md ents) <= length ents)%nat.
Proof.
  revert ents. induction md as [|m md IH]; intros [|e ents]; cbn; try lia.
  specialize (IH ents). destruct (m =? 0); cbn; lia.
Qed.

Lemma allocated_items_bound (c : MVMIndexHashTableControl) :
  table_inv c -> allocated_items c < 2147483648.
Proof.
  intros Hinv. pose proof (inv_log2 _ Hinv) as Hk.
  pose proof (inv_distance _ Hinv). unfold allocated_items.
  rewrite <- (inv_limit _ Hinv). rewrite official_size_pow2 by lia.
  pose proof (pow2_bounds _ Hk). lia.
Qed.

(** [hash_insert_internal], when it returns, keeps the whole invariant. *)
Lemma hash_insert_internal_full (list : list string)
    (c c' : MVMIndexHashTableControl) (idx : Z) :
  table_ok MVM_string_hash_code list c ->
  hash_insert_internal MVM_string_hash_code c list idx = Ok c' ->
  table_ok MVM_string_hash_code list c' /\ contents c' ≡ₚ idx :: contents c /\
  official_size_log2 c' = official_size_log2 c /\
  key_right_shift c' = key_right_shift c.
Proof.
  intros (Hinv & Hrh & Hkeys & Hcount) Hrun.
  assert (Hcur : cur_items c < max_items c).
  { unfold hash_insert_internal in Hrun.
    destruct (Z.geb_spec (cur_items c) (max_items c)); [discriminate|lia]. }
  assert (Hmi : max_items c <> 0) by (pose proof (inv_cur_items _ Hinv); lia).
  destruct (list !! Z.to_nat idx) as [key|] eqn:Hkey.
  2:{ unfold hash_insert_internal in Hrun. rewrite Hkey in Hrun.
      destruct (cur_items c >=? max_items c); discriminate. }
  destruct (hash_insert_internal_spec MVM_string_hash_code c list idx key Hinv Hcur Hkey)
    as [Hdup|(c'' & Hrun' & Hinv' & Hperm & H1 & H2 & _ & Hci)]; [congruence|].
  rewrite Hrun in Hrun'. inversion Hrun'; subst c''. clear Hrun'.
  assert (Hprobe : robin_hood_ordered c' /\ keys_at_home MVM_string_hash_code list c').
  { unfold hash_insert_internal in Hrun.
    destruct (cur_items c >=? max_items c); [discriminate|].
    rewrite Hkey in Hrun. cbn [of_option obind] in Hrun.
    pose proof (inv_distance _ Hinv).
    destruct (MVM_index_hash_create_loop_state MVM_string_hash_code c key)
      as [slot pd] eqn:Hls.
    assert (pd = 1) by (unfold MVM_index_hash_create_loop_state in Hls; congruence).
    subst pd.
    eapply (insert_probe_full list c idx key); eauto; try lia.
    unfold home_slot. rewrite Hls. cbn [fst]. lia. }
  destruct Hprobe as [Hrh' Hkeys'].
  split; [|auto]. split; [exact Hinv'|]. split; [exact Hrh'|]. split; [exact Hkeys'|].
  rewrite Hci, Hcount.
  pose proof (occupied_length (metadata c) (entries c)) as Hol.
  pose proof (inv_entries_length _ Hinv). pose proof (allocated_items_bound c Hinv).
  fold (contents c) in Hol.
  rewrite u32_small by lia.
  apply Permutation_length in Hperm. rewrite Hperm. cbn [length]. lia.
Qed.

Lemma occupied_nil_zero (md ents : Datatypes.list Z) :
  occupied md ents = [] ->
  forall i m, md !! i = Some m -> (i < length ents)%nat -> m = 0.
Proof.
  revert ents. induction md as [|x md IH]; intros [|e ents] Hocc i m Hi Hlt;
    try discriminate; try (simpl in Hlt; lia).
  cbn [occupied] in Hocc. destruct (Z.eqb_spec x 0) as [->|Hx]; [|discriminate].
  destruct i as [|i]; simpl in Hi, Hlt; [congruence|].
  eapply IH; eauto. lia.
Qed.

(** An empty table satisfies the whole invariant. *)
Lemma empty_table_ok (list : list string) (c : MVMIndexHashTableControl) :
  table_inv c -> contents c = [] -> cur_items c = 0 ->
  table_ok MVM_string_hash_code list c.
Proof.
  intros Hinv Hc Hcur.
  pose proof (inv_entries_length _ Hinv) as HentsL.
  assert (Hz : forall i m, metadata c !! i = Some m ->
                 Z.of_nat i < allocated_items c -> m = 0).
  { intros i m Hm Hi. eapply (occupied_nil_zero _ _ Hc); eauto. lia. }
  split; [exact Hinv|]. split; [|split].
  - intros i m m' Hm Hm' Hi. rewrite (Hz _ _ Hm') by lia.
    destruct (inv_slots _ Hinv _ _ Hm ltac:(lia)). lia.
  - intros i m e Hm Hnz _ Hi. exfalso. apply Hnz. eapply Hz; eauto.
  - now rewrite Hc, Hcur.
Qed.

Lemma reinsert_from_full (old_entries : Datatypes.list Z) (list : list string) :
  forall (old_metadata : Datatypes.list Z) (bucket : nat)
         (c c' : MVMIndexHashTableControl),
    table_ok MVM_string_hash_code list c ->
    reinsert_from MVM_string_hash_code old_metadata old_entries bucket list c = Ok c' ->
    table_ok MVM_string_hash_code list c'.
Proof.
  induction old_metadata as [|m md IH]; intros bucket c c' Hok Hrun.
  - cbn in Hrun. now inversion Hrun; subst.
  - cbn [reinsert_from] in Hrun. destruct (m =? 0).
    + cbn [obind] in Hrun. eapply IH; eauto.
    + destruct (old_entries !! bucket) as [e|]; [|discriminate].
      cbn [of_option obind] in Hrun.
      destruct (hash_insert_internal MVM_string_hash_code c list e) as [c1| |] eqn:H1;
        try discriminate.
      cbn [obind] in Hrun.
      destruct (hash_insert_internal_full list c c1 e Hok H1) as (Hok1 & _).
      eapply IH; eauto.
Qed.

Lemma maybe_grow_hash_full (list : list string) (c c' : MVMIndexHashTableControl) :
  table_ok MVM_string_hash_code list c ->
  maybe_grow_hash MVM_string_hash_code c list = Ok c' ->
  table_ok MVM_string_hash_code list c' /\ contents c' ≡ₚ contents c.
Proof.
  intros Hok Hrun. pose proof Hok as (Hinv & _).
  destruct (maybe_grow_hash_ok MVM_string_hash_code c c' list Hinv Hrun)
    as (_ & Hperm & _). split; [|exact Hperm].
  unfold maybe_grow_hash in Hrun.
  pose proof (inv_log2 _ Hinv) as Hk. pose proof (inv_shift _ Hinv) as Hs.
  rewrite (u8_byte (official_size_log2 c + 1)) in Hrun by lia.
  rewrite (u8_byte (key_right_shift c - 1)) in Hrun by lia.
  destruct (Z_lt_ge_dec (official_size_log2 c + 1) 31) as [Hlt|Hge].
  2:{ unfold hash_allocate_common in Hrun.
      destruct (Z.ltb_spec (official_size_log2 c + 1) 31); [lia|discriminate]. }
  destruct (hash_allocate_common_inv (official_size_log2 c + 1))
    as (n & Hn & In & Cn & _ & _ & Cur & _); [lia|].
  replace (key_right_shift c - 1) with (64 - (official_size_log2 c + 1)) in Hrun by lia.
  rewrite Hn in Hrun. cbn [obind] in Hrun.
  destruct (_ <=? _)%nat; [|discriminate].
  eapply reinsert_from_full; [|exact Hrun].
  now apply empty_table_ok.
Qed.

Lemma insert_nocheck_full (list : list string) (c c' : MVMIndexHashTableControl)
    (idx : Z) :
  table_ok MVM_string_hash_code list c ->
  MVM_index_hash_insert_nocheck MVM_string_hash_code c list idx = Ok c' ->
  table_ok MVM_string_hash_code list c' /\ contents c' ≡ₚ idx :: contents c.
Proof.
  intros Hok Hrun. unfold MVM_index_hash_insert_nocheck in Hrun.
  destruct (cur_items c >=? max_items c).
  - destruct (maybe_grow_hash MVM_string_hash_code c list) as [n| |] eqn:Hg;
      try discriminate.
    cbn [obind] in Hrun.
    destruct (maybe_grow_hash_full list c n Hok Hg) as (Hokn & Pn).
    destruct (hash_insert_internal_full list n c' idx Hokn Hrun) as (Hok' & P' & _).
    split; [exact Hok'|]. now rewrite P', Pn.
  - destruct (hash_insert_internal_full list c c' idx Hok Hrun) as (Hok' & P' & _). auto.
Qed.

(** X11: the public insertion keeps the Robin-Hood invariants: in the table
    it returns the probe distances are still in order, every stored index
    still sits at its probe distance from the home slot of its key,
    [cur_items] still counts the stored indices, and the table holds the new
    index besides the old ones. *)
Theorem insert_keeps_robin_hood (list : list string)
    (c c' : MVMIndexHashTableControl) (idx : Z) :
  table_ok MVM_string_hash_code list c ->
  MVM_index_hash_insert_nocheck MVM_string_hash_code c list idx = Ok c' ->
  robin_hood_ordered c' /\ keys_at_home MVM_string_hash_code list c' /\
  cur_items c' = Z.of_nat (length (contents c')) /\ table_inv c' /\
  contents c' ≡ₚ idx :: contents c.
Proof.
  intros Hok Hrun.
  destruct (insert_nocheck_full list c c' idx Hok Hrun) as ((I & R & K & N) & P).
  auto.
Qed.

(** *** Inserting an index the table holds *)

Lemma elem_of_occupied (md ents : Datatypes.list Z) (e : Z) :
  e ∈ occupied md ents ->
  exists i m, md !! i = Some m /\ m <> 0 /\ ents !! i = Some e.
Proof.
  revert ents. induction md as [|x md IH]; intros [|y ents] He; cbn in He;
    try (now apply elem_of_nil in He).
  destruct (Z.eqb_spec x 0) as [Hx|Hx].
  - destruct (IH _ He) as (i & m & H1 & H2 & H3). exists (S i), m. auto.
  - apply elem_of_cons in He. destruct He as [->|He].
    + exists 0%nat, x. auto.
    + destruct (IH _ He) as (i & m & H1 & H2 & H3). exists (S i), m. auto.
Qed.

(** Behind a slot at probe distance [d], going back [j] slots, the probe
    distance is at least [d - j]. *)
Lemma robin_hood_chain (c : MVMIndexHashTableControl) (s : nat) (d : Z) :
  table_inv c -> robin_hood_ordered c ->
  metadata c !! s = Some d -> Z.of_nat s < allocated_items c ->
  forall (j : nat) (m : Z), (j <= s)%nat ->
    metadata c !! (s - j)%nat = Some m -> d - Z.of_nat j <= m.
Proof.
  intros Hinv Hrh Hs HsA. induction j as [|j IH]; intros m Hj Hm.
  - rewrite Nat.sub_0_r, Hs in Hm. inversion Hm. lia.
  - destruct (lookup_lt_is_Some_2 (metadata c) (s - j)) as [m1 Hm1].
    { apply lookup_lt_Some in Hs. lia. }
    specialize (IH m1 ltac:(lia) Hm1).
    replace (s - j)%nat with (S (s - S j)) in Hm1 by lia.
    pose proof (Hrh _ _ _ Hm Hm1 ltac:(lia)). lia.
Qed.

Lemma insert_probe_duplicate (c : MVMIndexHashTableControl) (idx : Z) (s : nat) (d : Z) :
  table_inv c -> max_items c <> 0 -> robin_hood_ordered c ->
  metadata c !! s = Some d -> d <> 0 -> entries c !! s = Some idx ->
  Z.of_nat s < allocated_items c ->
  forall (fuel slot : nat) (pd : Z),
    1 <= pd <= d ->
    Z.of_nat slot + 1 - pd = Z.of_nat s + 1 - d ->
    d - pd < Z.of_nat fuel ->
    insert_probe fuel c idx slot pd = Throw DuplicateKey.
Proof.
  intros Hinv Hmi Hrh Hs Hd He HsA.
  pose proof (inv_distance _ Hinv) as HL.
  destruct (inv_slots _ Hinv _ _ Hs HsA) as [Hdb Hdh]. specialize (Hdh Hd).
  destruct (inv_max_items _ Hinv) as [?|Hmax]; [contradiction|].
  assert (HA : allocated_items c = MVM_index_hash_official_size c + max_probe_distance c).
  { unfold allocated_items. now rewrite (inv_limit _ Hinv). }
  induction fuel as [|fuel IH]; intros slot pd Hpd Hhome Hfuel; [lia|].
  destruct (lookup_lt_is_Some_2 (metadata c) slot) as [m Hm].
  { apply lookup_lt_Some in Hs. lia. }
  pose proof (robin_hood_chain c s d Hinv Hrh Hs HsA (s - slot) m ltac:(lia)) as Hchain.
  replace (s - (s - slot))%nat with slot in Hchain by lia.
  specialize (Hchain Hm).
  cbn [insert_probe]. rewrite Hm. cbn [of_option obind].
  destruct (Z.ltb_spec m pd) as [?|_]; [lia|].
  destruct (Nat.eq_dec slot s) as [->|Hne].
  - rewrite Hs in Hm. inversion Hm; subst m.
    assert (pd = d) by lia. subst pd.
    rewrite Z.eqb_refl, He. cbn [of_option obind]. now rewrite Z.eqb_refl.
  - assert (Hlt : pd < d) by lia.
    assert (Hasserts :
      negb (pd + 1 <=? max_probe_distance c + 1) = false /\
      negb (Z.of_nat (S slot) <? MVM_index_hash_official_size c + max_items c) = false /\
      negb (Z.of_nat (S slot) <? MVM_index_hash_official_size c + 256) = false).
    { repeat split; apply negb_false_iff;
        [apply Z.leb_le|apply Z.ltb_lt|apply Z.ltb_lt]; lia. }
    destruct Hasserts as (A1 & A2 & A3).
    destruct (lookup_lt_is_Some_2 (entries c) slot) as [e Hes].
    { apply lookup_lt_Some in He. lia. }
    destruct (m =? pd).
    + rewrite Hes. cbn [of_option obind].
      destruct (e =? idx); [reflexivity|]. cbn [obind].
      rewrite A1, A2, A3. apply IH; lia.
    + cbn [obind]. rewrite A1, A2, A3. apply IH; lia.
Qed.

Lemma present_index_rejected (list : list string)
    (c : MVMIndexHashTableControl) (idx : Z) :
  table_ok MVM_string_hash_code list c -> idx ∈ contents c ->
  (cur_items c < max_items c ->
   hash_insert_internal MVM_string_hash_code c list idx = Throw DuplicateKey) /\
  (forall c', MVM_index_hash_insert_nocheck MVM_string_hash_code c list idx <> Ok c').
Proof.
  assert (Hint : forall t, table_ok MVM_string_hash_code list t -> idx ∈ contents t ->
                   cur_items t < max_items t ->
                   hash_insert_internal MVM_string_hash_code t list idx
                   = Throw DuplicateKey).
  { intros t (Hinv & Hrh & Hkeys & Hcount) Hin Hcur.
    destruct (elem_of_occupied _ _ _ Hin) as (s & d & Hs & Hd & He).
    assert (HsA : Z.of_nat s < allocated_items t).
    { rewrite <- (inv_entries_length _ Hinv). apply lookup_lt_Some in He. lia. }
    destruct (Hkeys s d idx Hs Hd He HsA) as (key & Hkey & Hhome).
    assert (Hmi : max_items t <> 0) by (pose proof (inv_cur_items _ Hinv); lia).
    destruct (inv_slots _ Hinv _ _ Hs HsA) as [Hdb _].
    pose proof (inv_distance _ Hinv). pose proof (inv_metadata_length _ Hinv) as HmdL.
    unfold hash_insert_internal.
    destruct (Z.geb_spec (cur_items t) (max_items t)) as [?|_]; [lia|].
    rewrite Hkey. cbn [of_option obind].
    destruct (MVM_index_hash_create_loop_state MVM_string_hash_code t key)
      as [slot pd] eqn:Hls.
    assert (pd = 1) by (unfold MVM_index_hash_create_loop_state in Hls; congruence).
    subst pd. unfold home_slot in Hhome. rewrite Hls in Hhome. cbn [fst] in Hhome.
    apply (insert_probe_duplicate t idx s d); auto; lia. }
  intros Hok Hin. split; [now apply Hint|].
  intros c' Hrun. unfold MVM_index_hash_insert_nocheck in Hrun.
  destruct (Z.geb_spec (cur_items c) (max_items c)) as [Hge|Hlt].
  - destruct (maybe_grow_hash MVM_string_hash_code c list) as [n| |] eqn:Hg;
      try discriminate.
    cbn [obind] in Hrun.
    destruct (maybe_grow_hash_full list c n Hok Hg) as (Hokn & Pn).
    assert (Hinn : idx ∈ contents n) by (now rewrite Pn).
    destruct (Z_lt_ge_dec (cur_items n) (max_items n)) as [Hc|Hc].
    + rewrite (Hint n Hokn Hinn Hc) in Hrun. discriminate.
    + unfold hash_insert_internal in Hrun.
      destruct (Z.geb_spec (cur_items n) (max_items n)); [discriminate|lia].
  - rewrite (Hint c Hok Hin Hlt) in Hrun. discriminate.
Qed.

(** X12: an index the table already holds is never stored a second time.
    Below the load limit, inserting it ends in the duplicate oops; and the
    public insertion, which may resize first, never returns a table. *)
Theorem insert_present_index_fails (list : list string)
    (c : MVMIndexHashTableControl) (idx : Z) :
  table_ok MVM_string_hash_code list c -> idx ∈ contents c ->
  (cur_items c < max_items c ->
   hash_insert_internal MVM_string_hash_code c list idx = Throw DuplicateKey) /\
  (forall c', MVM_index_hash_insert_nocheck MVM_string_hash_code c list idx <> Ok c').
Proof. apply present_index_rejected. Qed.

Lemma insert_all_full (list : list string) (idxs : Datatypes.list Z) :
  forall c c' : MVMIndexHashTableControl,
    table_ok MVM_string_hash_code list c -> NoDup (contents c) ->
    insert_all MVM_string_hash_code c list idxs = Ok c' ->
    table_ok MVM_string_hash_code list c' /\
    contents c' ≡ₚ idxs ++ contents c /\ NoDup (idxs ++ contents c).
Proof.
  induction idxs as [|idx idxs IH]; intros c c' Hok Hnd Hrun.
  - cbn in Hrun. inversion Hrun; subst. split; [assumption|]. split; [reflexivity|].
    exact Hnd.
  - cbn [insert_all] in Hrun.
    destruct (MVM_index_hash_insert_nocheck MVM_string_hash_code c list idx)
      as [c1| |] eqn:H1; try discriminate.
    cbn [obind] in Hrun.
    destruct (insert_nocheck_full list c c1 idx Hok H1) as (Hok1 & P1).
    assert (Hnotin : idx ∉ contents c).
    { intros Hin.
      destruct (present_index_rejected list c idx Hok Hin) as [_ Hno].
      exact (Hno c1 H1). }
    assert (Hnd1 : NoDup (contents c1)).
    { rewrite P1. now constructor. }
    destruct (IH c1 c' Hok1 Hnd1 Hrun) as (Hok' & P' & N').
    assert (Hp : idxs ++ contents c1 ≡ₚ (idx :: idxs) ++ contents c).
    { rewrite P1. cbn [app]. symmetry. apply Permutation_middle. }
    split; [exact Hok'|]. split; [now rewrite P', Hp|]. now rewrite <- Hp.
Qed.

(** X13: when the insertions of [idxs] into a freshly built table all
    return, the indices were pairwise distinct, the table holds exactly
    them, each once, its [cur_items] is their number, and the Robin-Hood
    invariants hold. *)
Theorem built_table_counts (e : Z) (list : list string) (idxs : Datatypes.list Z)
    (c0 c : MVMIndexHashTableControl) :
  MVM_index_hash_build e = Ok c0 ->
  insert_all MVM_string_hash_code c0 list idxs = Ok c ->
  cur_items c = Z.of_nat (length idxs) /\ NoDup idxs /\
  contents c ≡ₚ idxs /\ NoDup (contents c) /\
  table_ok MVM_string_hash_code list c.
Proof.
  intros Hb Hrun. destruct (build_ok e c0 Hb) as [I0 C0].
  assert (Hcur0 : cur_items c0 = 0).
  { unfold MVM_index_hash_build in Hb.
    destruct (if e =? 0 then _ else _) as [k| |]; try discriminate.
    cbn [obind] in Hb. unfold hash_allocate_common in Hb.
    destruct (_ <? 31); [|discriminate]. inversion Hb. reflexivity. }
  assert (Hok0 : table_ok MVM_string_hash_code list c0) by (now apply empty_table_ok).
  destruct (insert_all_full list idxs c0 c Hok0) as (Hok & P & N); auto.
  { rewrite C0. constructor. }
  rewrite C0, app_nil_r in P, N.
  pose proof Hok as (_ & _ & _ & Hcount).
  split; [|split; [exact N|split; [exact P|split; [now rewrite P|exact Hok]]]].
  rewrite Hcount. now rewrite (Permutation_length P).
Qed.

(** *** Memory safety of the insertion *)

Lemma hash_insert_internal_safe (list : list string)
    (c : MVMIndexHashTableControl) (idx : Z) (key : string) :
  table_ok MVM_string_hash_code list c -> list !! Z.to_nat idx = Some key ->
  safe_outcome MVM_string_hash_code list (hash_insert_internal MVM_string_hash_code c list idx).
Proof.
  intros Hok Hkey. pose proof Hok as (Hinv & _).
  destruct (Z_lt_ge_dec (cur_items c) (max_items c)) as [Hlt|Hge].
  - destruct (hash_insert_internal_spec MVM_string_hash_code c list idx key Hinv Hlt Hkey)
      as [Hdup|(c' & Hrun & _)].
    + right; left. exact Hdup.
    + left. exists c'. split; [exact Hrun|].
      now destruct (hash_insert_internal_full list c c' idx Hok Hrun).
  - right; right. unfold hash_insert_internal.
    destruct (Z.geb_spec (cur_items c) (max_items c)); [reflexivity|lia].
Qed.

Lemma reinsert_from_safe (old_entries : Datatypes.list Z) (list : list string) :
  forall (old_metadata : Datatypes.list Z) (bucket : nat) (c : MVMIndexHashTableControl),
    table_ok MVM_string_hash_code list c ->
    (forall i m, old_metadata !! i = Some m -> m <> 0 ->
       exists e key, old_entries !! (bucket + i)%nat = Some e /\
                     list !! Z.to_nat e = Some key) ->
    safe_outcome MVM_string_hash_code list
      (reinsert_from MVM_string_hash_code old_metadata old_entries bucket list c).
Proof.
  induction old_metadata as [|m md IH]; intros bucket c Hok Hvalid.
  - left. exists c. split; [reflexivity|exact Hok].
  - cbn [reinsert_from].
    assert (Hrest : forall i m', md !! i = Some m' -> m' <> 0 ->
              exists e key, old_entries !! (S bucket + i)%nat = Some e /\
                            list !! Z.to_nat e = Some key).
    { intros i m' Hi Hm'. destruct (Hvalid (S i) m' Hi Hm') as (e & key & H1 & H2).
      exists e, key. split; [|exact H2]. rewrite <- H1. f_equal. lia. }
    destruct (Z.eqb_spec m 0) as [->|Hm].
    + cbn [obind]. apply IH; auto.
    + destruct (Hvalid 0%nat m eq_refl Hm) as (e & key & He & Hkey).
      rewrite Nat.add_0_r in He. rewrite He. cbn [of_option obind].
      destruct (hash_insert_internal_safe list c e key Hok Hkey)
        as [(c1 & -> & Hok1)|[-> | ->]].
      * cbn [obind]. apply IH; auto.
      * right; left. reflexivity.
      * right; right. reflexivity.
Qed.

(** X14: on a table that satisfies the invariants and can still double, the
    public insertion of an index that has a key stays within the allocation
    and fails no assertion, resizing included: it returns a table that
    satisfies the invariants, or ends in one of the two fatal errors of
    [hash_insert_internal]. *)
Theorem insert_nocheck_safe (list : list string) (c : MVMIndexHashTableControl)
    (idx : Z) (key : string) :
  table_ok MVM_string_hash_code list c -> official_size_log2 c < 30 ->
  list !! Z.to_nat idx = Some key ->
  (exists c', MVM_index_hash_insert_nocheck MVM_string_hash_code c list idx = Ok c' /\
              table_ok MVM_string_hash_code list c') \/
  MVM_index_hash_insert_nocheck MVM_string_hash_code c list idx = Throw DuplicateKey \/
  MVM_index_hash_insert_nocheck MVM_string_hash_code c list idx = Throw RecursiveGrow.
Proof.
  intros Hok Hsize Hkey. pose proof Hok as (Hinv & _ & Hkeys & _).
  change (safe_outcome MVM_string_hash_code list
            (MVM_index_hash_insert_nocheck MVM_string_hash_code c list idx)).
  unfold MVM_index_hash_insert_nocheck.
  destruct (cur_items c >=? max_items c).
  2:{ now apply hash_insert_internal_safe with (key := key). }
  assert (Hgrow : safe_outcome MVM_string_hash_code list (maybe_grow_hash MVM_string_hash_code c list)).
  { unfold maybe_grow_hash.
    pose proof (inv_log2 _ Hinv) as Hk. pose proof (inv_shift _ Hinv) as Hs.
    pose proof (inv_metadata_length _ Hinv) as HmdL.
    pose proof (inv_entries_length _ Hinv) as HentsL.
    pose proof (inv_distance _ Hinv) as HL.
    rewrite (u8_byte (official_size_log2 c + 1)) by lia.
    rewrite (u8_byte (key_right_shift c - 1)) by lia.
    destruct (hash_allocate_common_inv (official_size_log2 c + 1))
      as (n & Hn & In & Cn & _ & _ & Cur & _); [lia|].
    replace (key_right_shift c - 1) with (64 - (official_size_log2 c + 1)) by lia.
    rewrite Hn. cbn [obind].
    assert (HA : Z.to_nat (MVM_index_hash_kompromat c) = length (entries c)).
    { unfold MVM_index_hash_kompromat. unfold allocated_items in HentsL.
      rewrite (inv_limit _ Hinv). lia. }
    rewrite HA.
    destruct (Nat.leb_spec (length (entries c)) (length (metadata c))) as [_|?]; [|lia].
    apply reinsert_from_safe; [now apply empty_table_ok|].
    intros i m Hi Hm. apply lookup_take_Some in Hi. destruct Hi as [Hi Hlt].
    destruct (lookup_lt_is_Some_2 (entries c) i Hlt) as [e He].
    destruct (Hkeys i m e Hi Hm He ltac:(lia)) as (k & Hk' & _).
    exists e, k. auto. }
  destruct Hgrow as [(n & -> & Hokn)|[-> | ->]].
  - cbn [obind]. now apply hash_insert_internal_safe with (key := key).
  - right; left. reflexivity.
  - right; right. reflexivity.
Qed.

(** X15: a freshly built table is empty and has room for the expected
    entries: [cur_items] is 0 and [max_items], the load limit that triggers
    a resize, is at least [entries]. *)
Theorem build_capacity (e : Z) (c : MVMIndexHashTableControl) :
  0 <= e -> MVM_index_hash_build e = Ok c ->
  e <= max_items c /\ cur_items c = 0 /\ contents c = [] /\ table_inv c.
Proof.
  intros He Hb. destruct (build_ok e c Hb) as [Hinv Hc].
  pose proof (inv_log2 _ Hinv) as Hk.
  unfold MVM_index_hash_build in Hb.
  assert (Hsize : exists k, e * 4 / 3 <= 2 ^ k /\ 3 <= k <= 32 /\
                            hash_allocate_common (u8 (64 - k)) (u8 k) = Ok c).
  { destruct (Z.eqb_spec e 0) as [->|Hne].
    - exists 3. split; [vm_compute; discriminate|]. split; [lia|exact Hb].
    - cbv zeta in Hb. unfold LOAD_FACTOR_DEN, LOAD_FACTOR_NUM, INDEX_MIN_SIZE_BASE_2,
        MVM_round_up_log_base2 in Hb.
      set (v := e * 4 / 3) in *.
      assert (Hv : 1 <= v) by (subst v; apply Z.div_le_lower_bound; lia).
      destruct (Z.ltb_spec v 4294967296) as [Hlt|?]; [|discriminate].
      assert (Hup : v <= 2 ^ Z.log2_up v).
      { destruct (Z.eq_dec v 1) as [->|?]; [reflexivity|].
        apply Z.log2_up_spec. lia. }
      assert (Hlog : Z.log2_up v <= 32).
      { apply Z.log2_up_le_pow2; [lia|]. change (2 ^ 32) with 4294967296. lia. }
      destruct (Z.ltb_spec (Z.log2_up v) 3) as [Hsmall|Hbig].
      + exists 3. split; [|split; [lia|exact Hb]].
        etransitivity; [exact Hup|]. apply Z.pow_le_mono_r; lia.
      + exists (Z.log2_up v). split; [exact Hup|]. split; [lia|exact Hb]. }
  destruct Hsize as (k & Hvk & Hk' & Halloc).
  rewrite (u8_byte k), (u8_byte (64 - k)) in Halloc by lia.
  unfold hash_allocate_common in Halloc.
  destruct (Z.ltb_spec k 31) as [Hlt|?]; [|discriminate].
  injection Halloc as Hrec. subst c.
  split; [|split; [reflexivity|split; [exact Hc|exact Hinv]]].
  cbn [max_items].
  rewrite Z.shiftl_mul_pow2 by lia. rewrite Z.mul_1_l.
  unfold LOAD_FACTOR_NUM, LOAD_FACTOR_DEN.
  rewrite (pow2_mult4 k) in Hvk |- * by lia. set (w := 2 ^ (k - 2)) in *.
  replace (4 * w * 3) with (3 * w * 4) by lia. rewrite Z.div_mul by lia.
  pose proof (Z.mul_succ_div_gt (e * 4) 3 ltac:(lia)). lia.
Qed.

(** X22: a resize keeps the table in order: the table [maybe_grow_hash]
    returns has twice the official size, counts as many items in
    [cur_items] as the old one, and satisfies the Robin-Hood invariants
    again for the new home slots. *)
Theorem grow_keeps_table_ok (list : list string) (c c' : MVMIndexHashTableControl) :
  table_ok MVM_string_hash_code list c ->
  maybe_grow_hash MVM_string_hash_code c list = Ok c' ->
  table_ok MVM_string_hash_code list c' /\
  cur_items c' = cur_items c /\
  MVM_index_hash_official_size c' = 2 * MVM_index_hash_official_size c.
Proof.
  intros Hok Hrun. pose proof Hok as (Hinv & _ & _ & Hcur).
  destruct (maybe_grow_hash_full list c c' Hok Hrun) as (Hok' & Hperm).
  destruct (maybe_grow_hash_ok MVM_string_hash_code c c' list Hinv Hrun)
    as (_ & _ & Hlog & _).
  pose proof (inv_log2 _ Hinv) as Hk.
  split; [exact Hok'|]. split.
  - destruct Hok' as (_ & _ & _ & Hcur'). rewrite Hcur', Hcur.
    f_equal. now apply Permutation_length.
  - unfold MVM_index_hash_official_size. rewrite Hlog.
    rewrite !Z.shiftl_mul_pow2 by lia. rewrite Z.pow_add_r by lia.
    change (2 ^ 1) with 2. lia.
Qed.

End HashTable.

(* ===================================================================== *)
(** * Resizing: the walk, the blocks and the final contents *)
(* ===================================================================== *)

Section HashGrowth.
Import IndexHash.

Variable MVM_string_hash_code : string -> Z.

Lemma occupied_lookup_elem (md ents : Datatypes.list Z) (i : nat) (m e : Z) :
  md !! i = Some m -> m <> 0 -> ents !! i = Some e -> e ∈ occupied md ents.
Proof.
  revert ents i. induction md as [|x md IH]; intros [|y ents] [|i] Hm Hnz He;
    try discriminate.
  - cbn in Hm, He. injection Hm as ->. injection He as ->. cbn [occupied].
    destruct (Z.eqb_spec m 0); [contradiction|]. apply elem_of_cons. now left.
  - cbn in Hm, He. cbn [occupied].
    destruct (x =? 0); [|apply elem_of_cons; right]; eapply IH; eauto.
Qed.

(** The duplicate oops is raised only for an index the table holds. *)
Lemma insert_probe_duplicate_held (c : MVMIndexHashTableControl) (idx : Z) :
  forall (fuel slot : nat) (pd : Z),
    1 <= pd ->
    insert_probe fuel c idx slot pd = Throw DuplicateKey ->
    idx ∈ contents c.
Proof.
  induction fuel as [|fuel IH]; intros slot pd Hpd Hrun; [discriminate|].
  cbn [insert_probe] in Hrun.
  destruct (metadata c !! slot) as [m|] eqn:Hm; [|discriminate].
  cbn [of_option obind] in Hrun.
  destruct (Z.ltb_spec m pd) as [Hlt|Hge].
  - exfalso. destruct (m =? 0).
    + cbn [obind] in Hrun. destruct (_ <? _)%nat; discriminate.
    + destruct (find_me_a_gap _ _ _ _ _ _) as [[[md gap] mi]|];
        cbn [of_option obind] in Hrun; [|discriminate].
      destruct (move_entries _ _ _); cbn [of_option obind] in Hrun; [|discriminate].
      destruct (_ <? _)%nat; discriminate.
  - destruct (Z.eqb_spec m pd) as [Heq|Hne].
    + destruct (entries c !! slot) as [e|] eqn:He; [|discriminate].
      cbn [of_option obind] in Hrun.
      destruct (Z.eqb_spec e idx) as [->|Hne].
      * apply (occupied_lookup_elem _ _ slot m idx Hm ltac:(lia) He).
      * cbn [obind] in Hrun.
        destruct (negb _); [discriminate|]. destruct (negb _); [discriminate|].
        destruct (negb _); [discriminate|]. apply IH in Hrun; [exact Hrun|lia].
    + cbn [obind] in Hrun.
      destruct (negb _); [discriminate|]. destruct (negb _); [discriminate|].
      destruct (negb _); [discriminate|]. apply IH in Hrun; [exact Hrun|lia].
Qed.

Lemma hash_insert_internal_duplicate_held (c : MVMIndexHashTableControl)
    (list : list string) (idx : Z) :
  hash_insert_internal MVM_string_hash_code c list idx = Throw DuplicateKey ->
  idx ∈ contents c.
Proof.
  unfold hash_insert_internal. intros Hrun.
  destruct (cur_items c >=? max_items c); [discriminate|].
  destruct (list !! Z.to_nat idx) as [key|]; [|discriminate].
  cbn [of_option obind] in Hrun.
  unfold MVM_index_hash_create_loop_state in Hrun.
  apply insert_probe_duplicate_held in Hrun; [exact Hrun|lia].
Qed.

(** The walk of [maybe_grow_hash] is the re-insertion, in slot order, of the
    occupied entries it passes. *)
Lemma reinsert_from_in_order (old_entries : Datatypes.list Z) (list : list string) :
  forall (old_metadata : Datatypes.list Z) (bucket : nat) (c : MVMIndexHashTableControl),
    (bucket + length old_metadata <= length old_entries)%nat ->
    reinsert_from MVM_string_hash_code old_metadata old_entries bucket list c
    = spec_reinsert_in_order MVM_string_hash_code c list
        (occupied old_metadata (drop bucket old_entries)).
Proof.
  induction old_metadata as [|m md IH]; intros bucket c Hlen.
  - reflexivity.
  - cbn [length] in Hlen. cbn [reinsert_from].
    destruct (lookup_lt_is_Some_2 old_entries bucket ltac:(lia)) as [e He].
    rewrite (drop_S _ _ _ He). cbn [occupied]. rewrite He.
    destruct (m =? 0).
    + cbn [obind]. apply IH. lia.
    + cbn [of_option obind spec_reinsert_in_order].
      destruct (hash_insert_internal MVM_string_hash_code c list e); cbn [obind];
        try reflexivity.
      apply IH. lia.
Qed.

(** A resize that returns: the table handed back is the freshly allocated
    table of the next size after the re-insertion, in slot order, of what the
    old table held. *)
Lemma maybe_grow_hash_in_order (c : MVMIndexHashTableControl) (list : list string) :
  table_inv c ->
  maybe_grow_hash MVM_string_hash_code c list
  = do n <- hash_allocate_common (u8 (key_right_shift c - 1))
              (u8 (official_size_log2 c + 1));
    spec_reinsert_in_order MVM_string_hash_code n list (contents c).
Proof.
  intros Hinv. unfold maybe_grow_hash.
  pose proof (inv_metadata_length _ Hinv) as HmdL.
  pose proof (inv_entries_length _ Hinv) as HentsL.
  pose proof (inv_distance _ Hinv) as HL.
  assert (HA : Z.to_nat (MVM_index_hash_kompromat c) = length (entries c)).
  { unfold MVM_index_hash_kompromat. unfold allocated_items in HentsL.
    rewrite (inv_limit _ Hinv). lia. }
  rewrite HA.
  destruct (hash_allocate_common _ _) as [n| |]; cbn [obind]; try reflexivity.
  destruct (Nat.leb_spec (length (entries c)) (length (metadata c))) as [_|?]; [|lia].
  rewrite reinsert_from_in_order by (rewrite length_take; lia).
  rewrite drop_0, occupied_take. reflexivity.
Qed.

(** Re-inserting distinct indices that the table does not hold never meets
    a duplicate: the run returns or ends in the guard against a nested
    resize. *)
Lemma spec_reinsert_outcome (list : list string) :
  forall (idxs : Datatypes.list Z) (c : MVMIndexHashTableControl),
    table_ok MVM_string_hash_code list c ->
    (forall e, e ∈ idxs -> exists key, list !! Z.to_nat e = Some key) ->
    NoDup (idxs ++ contents c) ->
    spec_reinsert_in_order MVM_string_hash_code c list idxs = Throw RecursiveGrow \/
    exists c', spec_reinsert_in_order MVM_string_hash_code c list idxs = Ok c'.
Proof.
  induction idxs as [|idx idxs IH]; intros c Hok Hkeys Hnd.
  - right. exists c. reflexivity.
  - cbn [spec_reinsert_in_order].
    destruct (Hkeys idx) as [key Hkey]; [apply elem_of_cons; now left|].
    cbn [app] in Hnd. apply NoDup_cons in Hnd. destruct Hnd as [Hnotin Hnd].
    destruct (hash_insert_internal_safe MVM_string_hash_code list c idx key Hok Hkey)
      as [(c1 & Hrun & Hok1)|[Hdup|Hrec]].
    + rewrite Hrun. cbn [obind].
      destruct (hash_insert_internal_full MVM_string_hash_code list c c1 idx Hok Hrun)
        as (_ & Hperm & _).
      apply IH; [exact Hok1| |].
      * intros e He. apply Hkeys. apply elem_of_cons. now right.
      * rewrite Hperm. apply NoDup_app. apply NoDup_app in Hnd.
        destruct Hnd as (N1 & N2 & N3). split; [exact N1|]. split.
        -- intros x Hx Hx'. apply elem_of_cons in Hx'. destruct Hx' as [->|Hx'].
           ++ apply Hnotin. apply elem_of_app. now left.
           ++ now apply (N2 x).
        -- apply NoDup_cons. split; [|exact N3].
           intros Hin. apply Hnotin. apply elem_of_app. now right.
    + exfalso. apply hash_insert_internal_duplicate_held in Hdup.
      apply Hnotin. apply elem_of_app. now right.
    + left. rewrite Hrec. reflexivity.
Qed.

(** On a table that satisfies the invariants, holds no index twice and can
    still double, a resize returns or ends in the guard against a nested
    resize. *)
Lemma maybe_grow_hash_outcome (c : MVMIndexHashTableControl) (list : list string) :
  table_ok MVM_string_hash_code list c -> NoDup (contents c) ->
  official_size_log2 c < 30 ->
  maybe_grow_hash MVM_string_hash_code c list = Throw RecursiveGrow \/
  exists c', maybe_grow_hash MVM_string_hash_code c list = Ok c'.
Proof.
  intros Hok Hnd Hsize. pose proof Hok as (Hinv & _ & Hkeys & _).
  rewrite (maybe_grow_hash_in_order c list Hinv).
  pose proof (inv_log2 _ Hinv) as Hk. pose proof (inv_shift _ Hinv) as Hs.
  pose proof (inv_entries_length _ Hinv) as HentsL.
  rewrite (u8_byte (official_size_log2 c + 1)) by lia.
  rewrite (u8_byte (key_right_shift c - 1)) by lia.
  destruct (hash_allocate_common_inv (official_size_log2 c + 1))
    as (n & Hn & In & Cn & _ & _ & Cur & _); [lia|].
  replace (key_right_shift c - 1) with (64 - (official_size_log2 c + 1)) by lia.
  rewrite Hn. cbn [obind].
  apply spec_reinsert_outcome.
  - now apply empty_table_ok.
  - intros e He. apply elem_of_occupied in He. destruct He as (i & m & Hm & Hnz & He).
    pose proof (lookup_lt_Some _ _ _ He) as Hi.
    destruct (Hkeys i m e Hm Hnz He ltac:(lia)) as (key & Hkey & _). eauto.
  - now rewrite Cn, app_nil_r.
Qed.

(** The resize on the memory, in terms of the resize of the old block's
    table: the new block is added at a fresh address and the old block is
    freed. *)
Lemma maybe_grow_hash_memory (mem : IndexHashMemory.memory) (p : IndexHashMemory.ptr)
    (c : MVMIndexHashTableControl) (list : list string) :
  IndexHashMemory.deref mem p = Some c ->
  IndexHashMemory.maybe_grow_hash MVM_string_hash_code mem p list
  = do c' <- maybe_grow_hash MVM_string_hash_code c list;
    Ok (IndexHashMemory.MVM_free (mem ++ [Some c']) p, length mem).
Proof.
  intros Hp. unfold IndexHashMemory.maybe_grow_hash, maybe_grow_hash.
  rewrite Hp. cbn [of_option obind].
  destruct (hash_allocate_common _ _) as [n| |]; cbn [obind]; try reflexivity.
  unfold IndexHashMemory.MVM_malloc.
  destruct (_ <=? _)%nat; [|reflexivity].
  destruct (reinsert_from _ _ _ _ _ _) as [c'| |]; cbn [obind]; try reflexivity.
  unfold IndexHashMemory.hash_demolish_internal, IndexHashMemory.MVM_free,
    IndexHashMemory.deref, IndexHashMemory.memory, IndexHashMemory.ptr in *.
  assert (Hlt : (p < length mem)%nat).
  { destruct (mem !! p) eqn:E; [|discriminate]. eapply lookup_lt_Some; eauto. }
  assert (Hins : <[length mem := Some c']> (mem ++ [Some n]) = mem ++ [Some c']).
  { replace (length mem) with (length mem + 0)%nat at 1 by lia.
    now rewrite insert_app_r. }
  rewrite Hins. rewrite lookup_app_l by lia. rewrite Hp. reflexivity.
Qed.

Lemma maybe_grow_hash_blocks (mem mem' : IndexHashMemory.memory)
    (p q : IndexHashMemory.ptr) (c : MVMIndexHashTableControl) (list : list string) :
  IndexHashMemory.deref mem p = Some c -> table_inv c ->
  IndexHashMemory.maybe_grow_hash MVM_string_hash_code mem p list = Ok (mem', q) ->
  exists n c',
    hash_allocate_common (u8 (key_right_shift c - 1)) (u8 (official_size_log2 c + 1))
    = Ok n /\
    official_size_log2 n = official_size_log2 c + 1 /\
    key_right_shift n = key_right_shift c - 1 /\
    contents n = [] /\
    spec_reinsert_in_order MVM_string_hash_code n list (contents c) = Ok c' /\
    IndexHashMemory.deref mem q = None /\
    IndexHashMemory.deref mem' q = Some c' /\
    IndexHashMemory.deref mem' p = None /\
    (forall r, r <> p -> r <> q ->
       IndexHashMemory.deref mem' r = IndexHashMemory.deref mem r) /\
    official_size_log2 c' = official_size_log2 c + 1 /\
    key_right_shift c' = key_right_shift c - 1 /\
    contents c' ≡ₚ contents c.
Proof.
  intros Hp Hinv Hrun. rewrite (maybe_grow_hash_memory mem p c list Hp) in Hrun.
  destruct (maybe_grow_hash MVM_string_hash_code c list) as [c'| |] eqn:Hg;
    try discriminate.
  cbn [obind] in Hrun. injection Hrun as <- <-.
  destruct (maybe_grow_hash_ok MVM_string_hash_code c c' list Hinv Hg)
    as (_ & Hperm & Hlog & Hshift).
  rewrite (maybe_grow_hash_in_order c list Hinv) in Hg.
  pose proof (inv_log2 _ Hinv) as Hk. pose proof (inv_shift _ Hinv) as Hs.
  destruct (hash_allocate_common (u8 (key_right_shift c - 1))
              (u8 (official_size_log2 c + 1))) as [n| |] eqn:Hn; try discriminate.
  cbn [obind] in Hg.
  unfold IndexHashMemory.MVM_free, IndexHashMemory.deref, IndexHashMemory.memory,
    IndexHashMemory.ptr in *.
  assert (Hlt : (p < length mem)%nat).
  { destruct (mem !! p) eqn:E; [|discriminate]. eapply lookup_lt_Some; eauto. }
  assert (Hfresh : forall n', hash_allocate_common (u8 (key_right_shift c - 1))
                     (u8 (official_size_log2 c + 1)) = Ok n' ->
                   official_size_log2 n' = official_size_log2 c + 1 /\
                   key_right_shift n' = key_right_shift c - 1 /\ contents n' = []).
  { intros n' Hn'. rewrite (u8_byte (official_size_log2 c + 1)) in Hn' by lia.
    rewrite (u8_byte (key_right_shift c - 1)) in Hn' by lia.
    destruct (Z_lt_ge_dec (official_size_log2 c + 1) 31) as [Hl|Hge].
    2:{ unfold hash_allocate_common in Hn'.
        destruct (Z.ltb_spec (official_size_log2 c + 1) 31); [lia|discriminate]. }
    destruct (hash_allocate_common_inv (official_size_log2 c + 1))
      as (n0 & Hn0 & _ & Cn & Ln & Sn & _); [lia|].
    replace (key_right_shift c - 1) with (64 - (official_size_log2 c + 1)) in Hn' by lia.
    rewrite Hn0 in Hn'. injection Hn' as <-. split; [exact Ln|]. split; [lia|exact Cn]. }
  destruct (Hfresh n Hn) as (Ln & Sn & Cn).
  exists n, c'. split; [reflexivity|]. split; [exact Ln|]. split; [exact Sn|].
  split; [exact Cn|]. split; [exact Hg|].
  split; [now rewrite lookup_ge_None_2 by lia|].
  split.
  { rewrite list_lookup_insert_ne by lia.
    replace (length mem) with (length mem + 0)%nat by lia.
    now rewrite lookup_app_r, Nat.add_0_r, Nat.sub_diag by lia. }
  split.
  { now rewrite list_lookup_insert_eq by (rewrite length_app; cbn; lia). }
  split; [|split; [exact Hlog|split; [exact Hshift|exact Hperm]]].
  intros r Hrp Hrq. rewrite list_lookup_insert_ne by congruence.
  destruct (Nat.lt_ge_cases r (length mem)) as [Hr|Hr].
  - now rewrite lookup_app_l by lia.
  - rewrite (lookup_ge_None_2 mem r) by lia.
    rewrite lookup_ge_None_2; [reflexivity|]. rewrite length_app. cbn. lia.
Qed.

(** C6, as amended: on a table that satisfies the invariants, holds no index
    twice and can still double, a resize returns or ends in the fatal
    "attempt to recursively call grow" of the internal insertion.  When it
    returns, it has allocated, at a fresh address, a table one size up with
    the shift one less; it has re-inserted into that table, in slot order,
    every occupied entry of the old table, so that the new table holds
    exactly what the old one held; and it has freed the old block, no other
    block being touched.  And whenever the insertions of the indices [idxs]
    return, from fresh tables of any two initial sizes, both final tables
    hold exactly the indices inserted, each once (so the same key-to-index
    mappings), however many resizes happened on the way. *)
Theorem hash_growth_correctness (e1 e2 : Z) (list : list string)
    (idxs : Datatypes.list Z) (c1 c2 t1 t2 : MVMIndexHashTableControl) :
  MVM_index_hash_build e1 = Ok c1 -> MVM_index_hash_build e2 = Ok c2 ->
  insert_all MVM_string_hash_code c1 list idxs = Ok t1 ->
  insert_all MVM_string_hash_code c2 list idxs = Ok t2 ->
  contents t1 ≡ₚ idxs /\ contents t2 ≡ₚ idxs /\ contents t1 ≡ₚ contents t2 /\
  (forall mem p c,
     IndexHashMemory.deref mem p = Some c ->
     table_ok MVM_string_hash_code list c -> NoDup (contents c) ->
     official_size_log2 c < 30 ->
     IndexHashMemory.maybe_grow_hash MVM_string_hash_code mem p list
     = Throw RecursiveGrow \/
     exists mem' q,
       IndexHashMemory.maybe_grow_hash MVM_string_hash_code mem p list
       = Ok (mem', q)) /\
  (forall mem p c mem' q,
     IndexHashMemory.deref mem p = Some c -> table_inv c ->
     IndexHashMemory.maybe_grow_hash MVM_string_hash_code mem p list = Ok (mem', q) ->
     exists n c',
       hash_allocate_common (u8 (key_right_shift c - 1))
         (u8 (official_size_log2 c + 1)) = Ok n /\
       official_size_log2 n = official_size_log2 c + 1 /\
       key_right_shift n = key_right_shift c - 1 /\
       contents n = [] /\
       spec_reinsert_in_order MVM_string_hash_code n list (contents c) = Ok c' /\
       IndexHashMemory.deref mem q = None /\
       IndexHashMemory.deref mem' q = Some c' /\
       IndexHashMemory.deref mem' p = None /\
       (forall r, r <> p -> r <> q ->
          IndexHashMemory.deref mem' r = IndexHashMemory.deref mem r) /\
       official_size_log2 c' = official_size_log2 c + 1 /\
       key_right_shift c' = key_right_shift c - 1 /\
       contents c' ≡ₚ contents c).
Proof.
  intros B1 B2 R1 R2.
  destruct (build_ok e1 c1 B1) as [I1 C1]. destruct (build_ok e2 c2 B2) as [I2 C2].
  destruct (insert_all_ok MVM_string_hash_code list idxs c1 t1 I1 R1) as [_ P1].
  destruct (insert_all_ok MVM_string_hash_code list idxs c2 t2 I2 R2) as [_ P2].
  rewrite C1, app_nil_r in P1. rewrite C2, app_nil_r in P2.
  split; [exact P1|]. split; [exact P2|]. split; [now rewrite P1, P2|].
  split.
  - intros mem p c Hp Hok Hnd Hsize.
    rewrite (maybe_grow_hash_memory mem p c list Hp).
    destruct (maybe_grow_hash_outcome c list Hok Hnd Hsize) as [Hrec|(c' & Hg)].
    + left. rewrite Hrec. reflexivity.
    + right. rewrite Hg. cbn [obind]. eauto.
  - intros mem p c mem' q Hp Hinv Hrun.
    exact (maybe_grow_hash_blocks mem mem' p q c list Hp Hinv Hrun).
Qed.

End HashGrowth.

Section HashTableInstances.
Import IndexHash.

Lemma table_built_0_ok (list : list string) :
  table_ok colliding_hash list table_built_0.
Proof.
  apply empty_table_ok; [|reflexivity|reflexivity].
  apply table_invb_sound. vm_compute. reflexivity.
Qed.

Lemma table_one_key_ok : table_ok colliding_hash (single_char_keys 2) table_one_key.
Proof.
  apply (insert_nocheck_full colliding_hash (single_char_keys 2) table_built_0
           table_one_key 0).
  - apply table_built_0_ok.
  - vm_compute. reflexivity.
Qed.

Lemma insert_keeps_robin_hood_witness :
  robin_hood_ordered table_one_key /\
  keys_at_home colliding_hash (single_char_keys 2) table_one_key /\
  cur_items table_one_key = Z.of_nat (length (contents table_one_key)) /\
  table_inv table_one_key /\
  contents table_one_key ≡ₚ 0 :: contents table_built_0.
Proof.
  apply (insert_keeps_robin_hood colliding_hash (single_char_keys 2) table_built_0
           table_one_key 0).
  - apply table_built_0_ok.
  - vm_compute. reflexivity.
Defined.

Lemma insert_present_index_fails_witness :
  (cur_items table_one_key < max_items table_one_key ->
   hash_insert_internal colliding_hash table_one_key (single_char_keys 2) 0
   = Throw DuplicateKey) /\
  (forall c', MVM_index_hash_insert_nocheck colliding_hash table_one_key
                (single_char_keys 2) 0 <> Ok c').
Proof.
  apply (insert_present_index_fails colliding_hash (single_char_keys 2)
           table_one_key 0).
  - apply table_one_key_ok.
  - apply list_elem_of_In. vm_compute. auto.
Defined.

Lemma built_table_counts_witness :
  cur_items table_12_from_0 = Z.of_nat (length (first_indices 12)) /\
  NoDup (first_indices 12) /\
  contents table_12_from_0 ≡ₚ first_indices 12 /\
  NoDup (contents table_12_from_0) /\
  table_ok colliding_hash (single_char_keys 12) table_12_from_0.
Proof.
  apply (built_table_counts colliding_hash 0 (single_char_keys 12) (first_indices 12)
           table_built_0 table_12_from_0).
  - vm_compute. reflexivity.
  - vm_compute. reflexivity.
Defined.

Lemma insert_nocheck_safe_witness :
  (exists c', MVM_index_hash_insert_nocheck colliding_hash table_built_0
                (single_char_keys 2) 1 = Ok c' /\
              table_ok colliding_hash (single_char_keys 2) c') \/
  MVM_index_hash_insert_nocheck colliding_hash table_built_0 (single_char_keys 2) 1
  = Throw DuplicateKey \/
  MVM_index_hash_insert_nocheck colliding_hash table_built_0 (single_char_keys 2) 1
  = Throw RecursiveGrow.
Proof.
  apply (insert_nocheck_safe colliding_hash (single_char_keys 2) table_built_0 1
           (String (ascii_of_nat 1) EmptyString)).
  - apply table_built_0_ok.
  - vm_compute. reflexivity.
  - reflexivity.
Defined.

Lemma build_capacity_witness :
  100 <= max_items table_built_100 /\ cur_items table_built_100 = 0 /\
  contents table_built_100 = [] /\ table_inv table_built_100.
Proof.
  apply (build_capacity 100 table_built_100).
  - lia.
  - vm_compute. reflexivity.
Defined.

Lemma grow_keeps_table_ok_witness :
  table_ok colliding_hash (single_char_keys 2)
    (table_of (maybe_grow_hash colliding_hash table_one_key (single_char_keys 2))) /\
  cur_items (table_of (maybe_grow_hash colliding_hash table_one_key (single_char_keys 2)))
  = cur_items table_one_key /\
  MVM_index_hash_official_size
    (table_of (maybe_grow_hash colliding_hash table_one_key (single_char_keys 2)))
  = 2 * MVM_index_hash_official_size table_one_key.
Proof.
  apply (grow_keeps_table_ok colliding_hash (single_char_keys 2) table_one_key).
  - apply table_one_key_ok.
  - vm_compute. reflexivity.
Defined.

Lemma hash_growth_correctness_witness :
  contents table_12_from_0 ≡ₚ first_indices 12 /\
  contents table_12_from_100 ≡ₚ first_indices 12 /\
  contents table_12_from_0 ≡ₚ contents table_12_from_100 /\
  (forall mem p c,
     IndexHashMemory.deref mem p = Some c ->
     table_ok colliding_hash (single_char_keys 12) c -> NoDup (contents c) ->
     official_size_log2 c < 30 ->
     IndexHashMemory.maybe_grow_hash colliding_hash mem p (single_char_keys 12)
     = Throw RecursiveGrow \/
     exists mem' q,
       IndexHashMemory.maybe_grow_hash colliding_hash mem p (single_char_keys 12)
       = Ok (mem', q)) /\
  (forall mem p c mem' q,
     IndexHashMemory.deref mem p = Some c -> table_inv c ->
     IndexHashMemory.maybe_grow_hash colliding_hash mem p (single_char_keys 12)
     = Ok (mem', q) ->
     exists n c',
       hash_allocate_common (u8 (key_right_shift c - 1))
         (u8 (official_size_log2 c + 1)) = Ok n /\
       official_size_log2 n = official_size_log2 c + 1 /\
       key_right_shift n = key_right_shift c - 1 /\
       contents n = [] /\
       spec_reinsert_in_order colliding_hash n (single_char_keys 12) (contents c)
       = Ok c' /\
       IndexHashMemory.deref mem q = None /\
       IndexHashMemory.deref mem' q = Some c' /\
       IndexHashMemory.deref mem' p = None /\
       (forall r, r <> p -> r <> q ->
          IndexHashMemory.deref mem' r = IndexHashMemory.deref mem r) /\
       official_size_log2 c' = official_size_log2 c + 1 /\
       key_right_shift c' = key_right_shift c - 1 /\
       contents c' ≡ₚ contents c).
Proof.
  apply (hash_growth_correctness colliding_hash 0 100 (single_char_keys 12)
           (first_indices 12) table_built_0 table_built_100).
  - vm_compute. reflexivity.
  - vm_compute. reflexivity.
  - vm_compute. reflexivity.
  - vm_compute. reflexivity.
Defined.

(** A resize that returns: the table of eight slots with four keys sits in
    block 1 of a memory whose block 0 holds another table; the resize puts
    the table of sixteen slots, with the same four indices, in the fresh
    block 2, frees block 1 and leaves block 0 alone. *)
Example resize_moves_block :
  exists t,
    IndexHashMemory.maybe_grow_hash colliding_hash
      [Some table_built_100; Some table_four_keys] 1%nat (single_char_keys 5)
    = Ok ([Some table_built_100; None; Some t], 2%nat) /\
    official_size_log2 table_four_keys = 3 /\ official_size_log2 t = 4 /\
    key_right_shift table_four_keys = 61 /\ key_right_shift t = 60 /\
    contents table_four_keys = [0; 1; 2; 3] /\ contents t = [0; 1; 2; 3].
Proof. eexists. split; [vm_compute; reflexivity|]. repeat split. Qed.

(** A resize that does not return.  In a table of 512 slots built for 300
    entries, 253 keys share home slot 0, the key of index 254 has home slot
    253, and a last key of home slot 0 takes slot 253 at probe distance 254,
    which sets the guard and moves index 254 one slot on.  In the table of
    1024 slots the walk re-inserts the 254 keys of home slot 0 first; the
    last of them sets the guard of the new table, and the re-insertion of
    index 254 ends in the fatal "attempt to recursively call grow". *)
Example resize_aborts_in_walk :
  exists c0 t,
    MVM_index_hash_build 300 = Ok c0 /\
    insert_all split_hash c0 (single_char_keys 255) (first_indices 253 ++ [254; 253])
    = Ok t /\
    table_inv t /\ NoDup (contents t) /\ official_size_log2 t = 9 /\
    length (contents t) = 255%nat /\
    maybe_grow_hash split_hash t (single_char_keys 255) = Throw RecursiveGrow /\
    IndexHashMemory.maybe_grow_hash split_hash [Some t] 0%nat (single_char_keys 255)
    = Throw RecursiveGrow.
Proof.
  eexists. eexists. split; [vm_compute; reflexivity|].
  split; [vm_compute; reflexivity|].
  split; [apply table_invb_sound; vm_compute; reflexivity|].
  split; [apply (bool_decide_unpack (NoDup _)); vm_compute; exact I|].
  split; [reflexivity|]. split; [vm_compute; reflexivity|].
  split; vm_compute; reflexivity.
Qed.

End HashTableInstances.

(* ===================================================================== *)
(** * Further properties of the GC orchestrator *)
(* ===================================================================== *)

Section GCProtocol.
Import GCOrch.

Lemma signal_one_thread_post (fuel : nat) (others : nat -> MVMGCStatus -> MVMGCStatus) :
  forall (step : nat) (s s' : gc_state),
    signal_one_thread fuel others step s = Some s' ->
    (gc_status s' = MVMGCStatus_INTERRUPT /\ starting_gc s' = starting_gc s) \/
    (gc_status s' = MVMGCStatus_STOLEN /\ starting_gc s' = u32 (starting_gc s + 1)).
Proof.
  induction fuel as [|fuel IH]; intros step s s' Hrun; [discriminate|].
  cbn [signal_one_thread] in Hrun. unfold apr_atomic_cas32 in Hrun.
  destruct (others step (gc_status s)); cbn in Hrun;
    try (inversion Hrun; subst; left; split; reflexivity).
  all: destruct (others (S step) _); cbn in Hrun;
    try (inversion Hrun; subst; right; split; reflexivity).
  all: apply IH in Hrun; exact Hrun.
Qed.

(** X16: whatever the other threads do to the status word meanwhile, when
    [signal_one_thread] returns it has either set the word to [INTERRUPT] and
    left [starting_gc] alone, or set it to [STOLEN] and counted the thread
    into [starting_gc]. *)
Theorem signal_one_thread_outcome (fuel : nat)
    (others : nat -> MVMGCStatus -> MVMGCStatus) (step : nat) (s s' : gc_state) :
  signal_one_thread fuel others step s = Some s' ->
  (gc_status s' = MVMGCStatus_INTERRUPT /\ starting_gc s' = starting_gc s) \/
  (gc_status s' = MVMGCStatus_STOLEN /\ starting_gc s' = u32 (starting_gc s + 1)).
Proof. apply signal_one_thread_post. Qed.

Lemma signal_one_thread_quiet (fuel : nat) (step : nat) (s : gc_state) :
  signal_one_thread fuel no_others step s
  = match fuel, gc_status s with
    | S _, MVMGCStatus_NONE =>
        Some (Build_gc_state MVMGCStatus_INTERRUPT (starting_gc s))
    | S _, MVMGCStatus_UNABLE =>
        Some (Build_gc_state MVMGCStatus_STOLEN (u32 (starting_gc s + 1)))
    | _, _ => None
    end.
Proof.
  revert step s. induction fuel as [|fuel IH]; intros step [w n]; [reflexivity|].
  cbn [signal_one_thread]. unfold no_others, apr_atomic_cas32. cbn [gc_status starting_gc].
  destruct w; cbn; try reflexivity.
  all: rewrite IH; cbn; now destruct fuel.
Qed.

(** X17: while no other thread writes the status word, [signal_one_thread]
    returns exactly when the target is [NONE] or [UNABLE]; on a target that
    is [INTERRUPT] or [STOLEN] it retries without end. *)
Theorem signal_one_thread_returns_iff (fuel step : nat) (s : gc_state) :
  is_Some (signal_one_thread (S fuel) no_others step s) <->
  gc_status s = MVMGCStatus_NONE \/ gc_status s = MVMGCStatus_UNABLE.
Proof.
  rewrite signal_one_thread_quiet. destruct (gc_status s); split;
    intros H; eauto; try (destruct H as [? H]; discriminate);
    destruct H; discriminate.
Qed.

Lemma unblocked_quiet (fuel step : nat) (s : gc_state) :
  MVM_gc_mark_thread_unblocked fuel no_others step s
  = match fuel, gc_status s with
    | S _, MVMGCStatus_UNABLE => Some (Build_gc_state MVMGCStatus_NONE (starting_gc s))
    | _, _ => None
    end.
Proof.
  revert step s. induction fuel as [|fuel IH]; intros step [w n]; [reflexivity|].
  cbn [MVM_gc_mark_thread_unblocked]. unfold no_others, apr_atomic_cas32.
  cbn [gc_status starting_gc].
  destruct w; cbn; try reflexivity.
  all: rewrite IH; cbn; now destruct fuel.
Qed.

(** X18: blocking and unblocking are inverse when no collection comes in
    between: a running thread ([NONE]) that marks itself blocked and then
    unblocked, no other thread writing its status word in the meantime, is
    back in the state it started from. *)
Theorem block_unblock_round_trip (fuel : nat) (s : gc_state)
    (others : MVMGCStatus -> MVMGCStatus) :
  gc_status s = MVMGCStatus_NONE ->
  exists s1, MVM_gc_mark_thread_blocked s others = (s1, Blocked) /\
             gc_status s1 = MVMGCStatus_UNABLE /\
             MVM_gc_mark_thread_unblocked (S fuel) no_others 0 s1 = Some s.
Proof.
  destruct s as [w n]. cbn [gc_status]. intros ->.
  eexists. split; [reflexivity|]. split; [reflexivity|].
  now rewrite unblocked_quiet.
Qed.

Lemma unblocked_returns (fuel : nat) (others : nat -> MVMGCStatus -> MVMGCStatus) :
  forall (step : nat) (s s' : gc_state),
    MVM_gc_mark_thread_unblocked fuel others step s = Some s' ->
    gc_status s' = MVMGCStatus_NONE /\ starting_gc s' = starting_gc s.
Proof.
  induction fuel as [|fuel IH]; intros step s s' Hrun; [discriminate|].
  cbn [MVM_gc_mark_thread_unblocked] in Hrun. unfold apr_atomic_cas32 in Hrun.
  destruct (others step (gc_status s)); cbn in Hrun;
    try (inversion Hrun; subst; split; reflexivity).
  all: apply IH in Hrun; exact Hrun.
Qed.

(** X19: a blocked thread whose work was stolen stays blocked: once
    [signal_one_thread] has turned [UNABLE] into [STOLEN], the thread's
    [mark_thread_unblocked] does not return for as long as nobody writes the
    word back; and whenever [mark_thread_unblocked] does return, whatever the
    other threads did, the thread is [NONE]. *)
Theorem stolen_thread_stays_blocked (fuel fuel' step : nat) (s : gc_state) :
  gc_status s = MVMGCStatus_UNABLE ->
  (exists s1, signal_one_thread (S fuel) no_others 0 s = Some s1 /\
              gc_status s1 = MVMGCStatus_STOLEN /\
              MVM_gc_mark_thread_unblocked fuel' no_others step s1 = None) /\
  (forall others s', MVM_gc_mark_thread_unblocked fuel' others step s = Some s' ->
     gc_status s' = MVMGCStatus_NONE).
Proof.
  intros Hs. split.
  - rewrite signal_one_thread_quiet, Hs. eexists. split; [reflexivity|].
    split; [reflexivity|]. rewrite unblocked_quiet. now destruct fuel'.
  - intros others s' Hrun. now destruct (unblocked_returns _ _ _ _ _ Hrun).
Qed.

Lemma signal_users_all (fuel : nat) (tc : thread_id) :
  forall (threads : list MVMGCStatus) (i : nat) (st : Z),
    (forall j, (i <= j)%nat -> is_user tc j = false) ->
    Forall (fun w => w = MVMGCStatus_UNABLE) threads ->
    0 <= st -> st + Z.of_nat (length threads) < 4294967296 ->
    signal_users (S fuel) tc i threads st
    = Some (replicate (length threads) MVMGCStatus_STOLEN,
            st + Z.of_nat (length threads)).
Proof.
  induction threads as [|w rest IH]; intros i st Hnot Hall Hst Hlen.
  - cbn. now rewrite Z.add_0_r.
  - cbn [length] in *. inversion Hall as [|? ? Hw Hrest]; subst.
    cbn [signal_users]. rewrite (Hnot i) by lia.
    rewrite signal_one_thread_quiet. cbn [gc_status starting_gc].
    rewrite u32_small by lia.
    rewrite IH; [|intros j Hj; apply Hnot; lia|assumption|lia|lia].
    cbn. do 2 f_equal. lia.
Qed.

Lemma signal_users_but (fuel : nat) (k : nat) :
  forall (threads : list MVMGCStatus) (i : nat) (st : Z) (own : MVMGCStatus),
    (i <= k)%nat ->
    threads !! (k - i)%nat = Some own ->
    (forall j w, threads !! j = Some w -> j <> (k - i)%nat -> w = MVMGCStatus_UNABLE) ->
    0 <= st -> st + Z.of_nat (length threads) <= 4294967296 ->
    signal_users (S fuel) (UserThread k) i threads st
    = Some (<[(k - i)%nat := own]> (replicate (length threads) MVMGCStatus_STOLEN),
            st + Z.of_nat (length threads) - 1).
Proof.
  induction threads as [|w rest IH]; intros i st own Hik Hown Hothers Hst Hlen.
  - discriminate.
  - cbn [length] in *. cbn [signal_users is_user].
    destruct (Nat.eqb_spec i k) as [->|Hne].
    + rewrite Nat.sub_diag in *. cbn in Hown. injection Hown as ->.
      cbn [gc_status starting_gc].
      rewrite signal_users_all; [| |apply Forall_forall|lia|lia].
      * cbn. do 2 f_equal. lia.
      * intros j Hj. cbn. apply Nat.eqb_neq. lia.
      * intros x Hx. apply list_elem_of_lookup_1 in Hx as [j Hj].
        apply (Hothers (S j) x); [exact Hj|lia].
    + assert (Hw : w = MVMGCStatus_UNABLE).
      { apply (Hothers 0%nat w); [reflexivity|lia]. }
      subst w. rewrite signal_one_thread_quiet. cbn [gc_status starting_gc].
      replace (k - i)%nat with (S (k - S i)) in * by lia.
      cbn in Hown. pose proof (lookup_lt_Some _ _ _ Hown) as Hrest.
      rewrite u32_small by lia.
      rewrite (IH (S i) (st + 1) own); [|lia|exact Hown| |lia|lia].
      * cbn. do 2 f_equal. lia.
      * intros j x Hj Hne'. apply (Hothers (S j) x); [exact Hj|lia].
Qed.

Lemma enter_from_allocator_blocked (fuel : nat) (tc : thread_id) (ins : MVMInstance) :
  expected_gc_threads ins = 0 ->
  ins_starting_gc ins = 0 ->
  Z.of_nat (length (user_threads ins)) + 1 < 4294967296 ->
  match tc with
  | MainThread => True
  | UserThread k =>
      (k < length (user_threads ins))%nat /\ main_thread ins = MVMGCStatus_UNABLE
  end ->
  (forall j w, user_threads ins !! j = Some w -> is_user tc j = false ->
     w = MVMGCStatus_UNABLE) ->
  exists ins',
    MVM_gc_enter_from_allocator (S fuel) tc ins = Some ins' /\
    ins_starting_gc ins' = 0 /\ expected_gc_threads ins' = 0 /\
    gc_seq_number ins' = u32 (gc_seq_number ins + 1) /\
    main_thread ins' = (if is_main tc then main_thread ins else MVMGCStatus_STOLEN) /\
    length (user_threads ins') = length (user_threads ins) /\
    (forall j, (j < length (user_threads ins))%nat ->
       user_threads ins' !! j
       = if is_user tc j then user_threads ins !! j else Some MVMGCStatus_STOLEN).
Proof.
  destruct ins as [mt users st ex seq]. cbn [expected_gc_threads ins_starting_gc
    user_threads main_thread gc_seq_number].
  intros -> -> Hlen Htc Hothers.
  unfold MVM_gc_enter_from_allocator.
  cbn [expected_gc_threads ins_starting_gc user_threads main_thread gc_seq_number].
  rewrite Z.eqb_refl. rewrite (u32_small (0 + 1)) by lia.
  rewrite (u32_small (Z.of_nat (length users) + 1)) by lia.
  unfold signal_all_but.
  cbn [expected_gc_threads ins_starting_gc user_threads main_thread gc_seq_number].
  destruct tc as [|k].
  - cbn [is_main gc_status starting_gc].
    rewrite signal_users_all; [| |apply Forall_forall|lia|lia].
    + unfold wait_for_all_threads. cbn [ins_starting_gc expected_gc_threads].
      replace (0 + 1 + Z.of_nat (length users) =? Z.of_nat (length users) + 1)
        with true by (symmetry; apply Z.eqb_eq; lia).
      eexists. split; [reflexivity|].
      cbn [expected_gc_threads ins_starting_gc user_threads main_thread gc_seq_number].
      repeat split. { apply length_replicate. }
      intros j Hj. cbn. now apply lookup_replicate_2.
    + reflexivity.
    + intros x Hx. apply list_elem_of_lookup_1 in Hx as [j Hj].
      now apply (Hothers j x).
  - destruct Htc as [Hk ->]. cbn [is_main].
    rewrite signal_one_thread_quiet. cbn [gc_status starting_gc].
    rewrite u32_small by lia.
    destruct (lookup_lt_is_Some_2 users k Hk) as [own Hown].
    rewrite (signal_users_but fuel k users 0 (0 + 1 + 1) own);
      [|lia|now rewrite Nat.sub_0_r| |lia|lia].
    + unfold wait_for_all_threads. cbn [ins_starting_gc expected_gc_threads].
      replace (0 + 1 + 1 + Z.of_nat (length users) - 1 =? Z.of_nat (length users) + 1)
        with true by (symmetry; apply Z.eqb_eq; lia).
      eexists. split; [reflexivity|].
      cbn [expected_gc_threads ins_starting_gc user_threads main_thread gc_seq_number].
      repeat split.
      { now rewrite length_insert, length_replicate. }
      intros j Hj. rewrite Nat.sub_0_r. cbn [is_user].
      destruct (Nat.eqb_spec j k) as [->|Hne].
      * rewrite list_lookup_insert_eq by (rewrite length_replicate; lia).
        now rewrite Hown.
      * rewrite list_lookup_insert_ne by lia. now apply lookup_replicate_2.
    + intros j w Hj Hne. apply (Hothers j w Hj). cbn. apply Nat.eqb_neq. lia.
Qed.

(** X20: started by the allocator of thread [tc] while every other thread is
    blocked ([UNABLE]) and no run is under way, the run completes without
    anyone's help: every other thread's work is stolen ([STOLEN]), the
    caller's own status word is untouched, the sequence number has advanced by
    one and both counters are back to zero. *)
Theorem enter_from_allocator_all_blocked (fuel : nat) (tc : thread_id)
    (ins : MVMInstance) :
  expected_gc_threads ins = 0 ->
  ins_starting_gc ins = 0 ->
  Z.of_nat (length (user_threads ins)) + 1 < 4294967296 ->
  match tc with
  | MainThread => True
  | UserThread k =>
      (k < length (user_threads ins))%nat /\ main_thread ins = MVMGCStatus_UNABLE
  end ->
  (forall j w, user_threads ins !! j = Some w -> is_user tc j = false ->
     w = MVMGCStatus_UNABLE) ->
  exists ins',
    MVM_gc_enter_from_allocator (S fuel) tc ins = Some ins' /\
    ins_starting_gc ins' = 0 /\ expected_gc_threads ins' = 0 /\
    gc_seq_number ins' = u32 (gc_seq_number ins + 1) /\
    main_thread ins' = (if is_main tc then main_thread ins else MVMGCStatus_STOLEN) /\
    length (user_threads ins') = length (user_threads ins) /\
    (forall j, (j < length (user_threads ins))%nat ->
       user_threads ins' !! j
       = if is_user tc j then user_threads ins !! j else Some MVMGCStatus_STOLEN).
Proof. apply enter_from_allocator_blocked. Qed.

Lemma signal_users_count_all (fuel : nat) (tc : thread_id) :
  forall (threads : list MVMGCStatus) (i : nat) (st : Z) users st',
    (forall j, (i <= j)%nat -> is_user tc j = false) ->
    0 <= st -> st + Z.of_nat (length threads) < 4294967296 ->
    signal_users fuel tc i threads st = Some (users, st') ->
    st' <= st + Z.of_nat (length threads) /\
    (st' = st + Z.of_nat (length threads) ->
     Forall (fun w => w = MVMGCStatus_UNABLE) threads).
Proof.
  induction threads as [|w rest IH]; intros i st users st' Hnot Hst Hlen Hrun.
  - cbn in Hrun. injection Hrun as <- <-. cbn. split; [lia|constructor].
  - cbn [length] in *. cbn [signal_users] in Hrun. rewrite (Hnot i) in Hrun by lia.
    rewrite signal_one_thread_quiet in Hrun. cbn [gc_status starting_gc] in Hrun.
    destruct fuel as [|fuel]; [discriminate|].
    destruct w; try discriminate; cbn [gc_status starting_gc] in Hrun.
    + destruct (signal_users (S fuel) tc (S i) rest st) as [[rest' st1]|] eqn:Hrest;
        [|discriminate].
      injection Hrun as <- <-.
      apply IH in Hrest as [Hle _]; [|intros j Hj; apply Hnot; lia|lia|lia].
      split; [lia|]. intros Heq. lia.
    + rewrite u32_small in Hrun by lia.
      destruct (signal_users (S fuel) tc (S i) rest (st + 1)) as [[rest' st1]|] eqn:Hrest;
        [|discriminate].
      injection Hrun as <- <-.
      apply IH in Hrest as [Hle Hall]; [|intros j Hj; apply Hnot; lia|lia|lia].
      split; [lia|]. intros Heq. constructor; [reflexivity|]. apply Hall. lia.
Qed.

Lemma signal_users_count_but (fuel : nat) (k : nat) :
  forall (threads : list MVMGCStatus) (i : nat) (st : Z) users st',
    (i <= k < i + length threads)%nat ->
    0 <= st -> st + Z.of_nat (length threads) <= 4294967296 ->
    signal_users fuel (UserThread k) i threads st = Some (users, st') ->
    st' <= st + Z.of_nat (length threads) - 1 /\
    (st' = st + Z.of_nat (length threads) - 1 ->
     forall j w, threads !! j = Some w -> j <> (k - i)%nat -> w = MVMGCStatus_UNABLE).
Proof.
  induction threads as [|w rest IH]; intros i st users st' Hk Hst Hlen Hrun.
  - cbn in Hk. lia.
  - cbn [length] in *. cbn [signal_users is_user] in Hrun.
    destruct (Nat.eqb_spec i k) as [->|Hne].
    + cbn [gc_status starting_gc] in Hrun.
      destruct (signal_users fuel (UserThread k) (S k) rest st) as [[rest' st1]|] eqn:Hrest;
        [|discriminate].
      injection Hrun as <- <-.
      apply signal_users_count_all in Hrest as [Hle Hall]; [| |lia|lia].
      * split; [lia|]. intros Heq j x Hj Hjne.
        rewrite Nat.sub_diag in Hjne. destruct j as [|j]; [lia|]. cbn in Hj.
        assert (Hall' : Forall (fun w => w = MVMGCStatus_UNABLE) rest) by (apply Hall; lia).
        rewrite Forall_forall in Hall'. apply Hall'.
        now apply list_elem_of_lookup_2 with j.
      * intros j Hj. cbn. apply Nat.eqb_neq. lia.
    + rewrite signal_one_thread_quiet in Hrun. cbn [gc_status starting_gc] in Hrun.
      destruct fuel as [|fuel]; [discriminate|].
      assert (Hlen2 : (1 <= length rest)%nat) by lia.
      destruct w; try discriminate; cbn [gc_status starting_gc] in Hrun.
      * destruct (signal_users (S fuel) (UserThread k) (S i) rest st)
          as [[rest' st1]|] eqn:Hrest; [|discriminate].
        injection Hrun as <- <-.
        apply IH in Hrest as [Hle _]; [|lia|lia|lia].
        split; [lia|]. intros Heq. lia.
      * rewrite u32_small in Hrun by lia.
        destruct (signal_users (S fuel) (UserThread k) (S i) rest (st + 1))
          as [[rest' st1]|] eqn:Hrest; [|discriminate].
        injection Hrun as <- <-.
        apply IH in Hrest as [Hle Hall]; [|lia|lia|lia].
        split; [lia|]. intros Heq j x Hj Hjne.
        destruct j as [|j]; cbn in Hj; [now injection Hj as <-|].
        apply (Hall ltac:(lia) j x Hj). lia.
Qed.

Lemma enter_from_allocator_returns (fuel : nat) (tc : thread_id)
    (ins ins' : MVMInstance) :
  expected_gc_threads ins = 0 ->
  ins_starting_gc ins = 0 ->
  Z.of_nat (length (user_threads ins)) + 1 < 4294967296 ->
  match tc with
  | MainThread => True
  | UserThread k => (k < length (user_threads ins))%nat
  end ->
  MVM_gc_enter_from_allocator fuel tc ins = Some ins' ->
  (is_main tc = false -> main_thread ins = MVMGCStatus_UNABLE) /\
  (forall j w, user_threads ins !! j = Some w -> is_user tc j = false ->
     w = MVMGCStatus_UNABLE).
Proof.
  destruct ins as [mt users st ex seq]. cbn [expected_gc_threads ins_starting_gc
    user_threads main_thread gc_seq_number].
  intros -> -> Hlen Htc.
  unfold MVM_gc_enter_from_allocator.
  cbn [expected_gc_threads ins_starting_gc user_threads main_thread gc_seq_number].
  rewrite Z.eqb_refl. rewrite (u32_small (0 + 1)) by lia.
  rewrite (u32_small (Z.of_nat (length users) + 1)) by lia.
  unfold signal_all_but.
  cbn [expected_gc_threads ins_starting_gc user_threads main_thread gc_seq_number].
  destruct tc as [|k].
  - cbn [is_main gc_status starting_gc].
    destruct (signal_users fuel MainThread 0 users (0 + 1)) as [[users' st']|] eqn:Hsig;
      [|discriminate].
    unfold wait_for_all_threads. cbn [ins_starting_gc expected_gc_threads].
    destruct (Z.eqb_spec st' (Z.of_nat (length users) + 1)) as [Heq|]; [|discriminate].
    intros _. split; [discriminate|].
    apply signal_users_count_all in Hsig as [_ Hall]; [|reflexivity|lia|lia].
    intros j w Hj _.
    assert (Hall' : Forall (fun w => w = MVMGCStatus_UNABLE) users) by (apply Hall; lia).
    rewrite Forall_forall in Hall'. apply Hall'. now apply list_elem_of_lookup_2 with j.
  - cbn [is_main]. rewrite signal_one_thread_quiet. cbn [gc_status starting_gc].
    destruct fuel as [|fuel]; [discriminate|].
    destruct mt; try discriminate; cbn [gc_status starting_gc].
    + destruct (signal_users (S fuel) (UserThread k) 0 users (0 + 1))
        as [[users' st']|] eqn:Hsig; [|discriminate].
      unfold wait_for_all_threads. cbn [ins_starting_gc expected_gc_threads].
      destruct (Z.eqb_spec st' (Z.of_nat (length users) + 1)) as [Heq|]; [|discriminate].
      apply signal_users_count_but in Hsig as [Hle _]; [|lia|lia|lia]. lia.
    + rewrite u32_small by lia.
      destruct (signal_users (S fuel) (UserThread k) 0 users (0 + 1 + 1))
        as [[users' st']|] eqn:Hsig; [|discriminate].
      unfold wait_for_all_threads. cbn [ins_starting_gc expected_gc_threads].
      destruct (Z.eqb_spec st' (Z.of_nat (length users) + 1)) as [Heq|]; [|discriminate].
      intros _. split; [reflexivity|].
      apply signal_users_count_but in Hsig as [_ Hall]; [|lia|lia|lia].
      intros j w Hj Hne. apply (Hall ltac:(lia) j w Hj).
      cbn in Hne. apply Nat.eqb_neq in Hne. lia.
Qed.

(** X21: the coordinator cannot finish on its own unless everybody else is
    blocked: if the run started from the allocator of a registered thread
    returns while no other thread takes a step, then every other thread was
    [UNABLE] when it started.  A running thread is only set to [INTERRUPT]
    and not counted, so the wait lasts until that thread enlists itself. *)
Theorem enter_from_allocator_needs_blocked (fuel : nat) (tc : thread_id)
    (ins ins' : MVMInstance) :
  expected_gc_threads ins = 0 ->
  ins_starting_gc ins = 0 ->
  Z.of_nat (length (user_threads ins)) + 1 < 4294967296 ->
  match tc with
  | MainThread => True
  | UserThread k => (k < length (user_threads ins))%nat
  end ->
  MVM_gc_enter_from_allocator fuel tc ins = Some ins' ->
  (is_main tc = false -> main_thread ins = MVMGCStatus_UNABLE) /\
  (forall j w, user_threads ins !! j = Some w -> is_user tc j = false ->
     w = MVMGCStatus_UNABLE).
Proof. apply enter_from_allocator_returns. Qed.

(** *** Instances *)

Lemma signal_one_thread_outcome_witness :
  (gc_status (Build_gc_state MVMGCStatus_STOLEN 1) = MVMGCStatus_INTERRUPT /\
   starting_gc (Build_gc_state MVMGCStatus_STOLEN 1)
   = starting_gc (Build_gc_state MVMGCStatus_INTERRUPT 0)) \/
  (gc_status (Build_gc_state MVMGCStatus_STOLEN 1) = MVMGCStatus_STOLEN /\
   starting_gc (Build_gc_state MVMGCStatus_STOLEN 1)
   = u32 (starting_gc (Build_gc_state MVMGCStatus_INTERRUPT 0) + 1)).
Proof.
  apply (signal_one_thread_outcome 1
           (fun n w => match n with 1%nat => MVMGCStatus_UNABLE | _ => w end) 0
           (Build_gc_state MVMGCStatus_INTERRUPT 0)
           (Build_gc_state MVMGCStatus_STOLEN 1)).
  reflexivity.
Defined.

Lemma block_unblock_round_trip_witness :
  exists s1,
    MVM_gc_mark_thread_blocked (Build_gc_state MVMGCStatus_NONE 3) (fun w => w)
    = (s1, Blocked) /\
    gc_status s1 = MVMGCStatus_UNABLE /\
    MVM_gc_mark_thread_unblocked 1 no_others 0 s1
    = Some (Build_gc_state MVMGCStatus_NONE 3).
Proof.
  apply (block_unblock_round_trip 0 (Build_gc_state MVMGCStatus_NONE 3) (fun w => w)).
  reflexivity.
Defined.

Lemma stolen_thread_stays_blocked_witness :
  (exists s1,
     signal_one_thread 1 no_others 0 (Build_gc_state MVMGCStatus_UNABLE 0) = Some s1 /\
     gc_status s1 = MVMGCStatus_STOLEN /\
     MVM_gc_mark_thread_unblocked 5 no_others 0 s1 = None) /\
  (forall others s',
     MVM_gc_mark_thread_unblocked 5 others 0 (Build_gc_state MVMGCStatus_UNABLE 0)
     = Some s' ->
     gc_status s' = MVMGCStatus_NONE).
Proof.
  apply (stolen_thread_stays_blocked 0 5 0 (Build_gc_state MVMGCStatus_UNABLE 0)).
  reflexivity.
Defined.

Lemma enter_from_allocator_all_blocked_witness :
  exists ins',
    MVM_gc_enter_from_allocator 1 (UserThread 1)
      (Build_MVMInstance MVMGCStatus_UNABLE
         [MVMGCStatus_UNABLE; MVMGCStatus_NONE; MVMGCStatus_UNABLE] 0 0 7)
    = Some ins' /\
    ins_starting_gc ins' = 0 /\ expected_gc_threads ins' = 0 /\
    gc_seq_number ins' = u32 (7 + 1) /\
    main_thread ins' = MVMGCStatus_STOLEN /\
    length (user_threads ins') = 3%nat /\
    (forall j, (j < 3)%nat ->
       user_threads ins' !! j
       = if is_user (UserThread 1) j
         then [MVMGCStatus_UNABLE; MVMGCStatus_NONE; MVMGCStatus_UNABLE] !! j
         else Some MVMGCStatus_STOLEN).
Proof.
  apply (enter_from_allocator_all_blocked 0 (UserThread 1)
           (Build_MVMInstance MVMGCStatus_UNABLE
              [MVMGCStatus_UNABLE; MVMGCStatus_NONE; MVMGCStatus_UNABLE] 0 0 7)).
  - reflexivity.
  - reflexivity.
  - vm_compute. reflexivity.
  - split; [cbn; lia|reflexivity].
  - intros [|[|[|j]]] w Hj Hu; cbn in Hj, Hu; try congruence.
    destruct j; discriminate.
Defined.

Lemma enter_from_allocator_needs_blocked_witness :
  (is_main (UserThread 0) = false -> MVMGCStatus_UNABLE = MVMGCStatus_UNABLE) /\
  (forall j w,
     [MVMGCStatus_INTERRUPT; MVMGCStatus_UNABLE] !! j = Some w ->
     is_user (UserThread 0) j = false -> w = MVMGCStatus_UNABLE).
Proof.
  apply (enter_from_allocator_needs_blocked 1 (UserThread 0)
           (Build_MVMInstance MVMGCStatus_UNABLE
              [MVMGCStatus_INTERRUPT; MVMGCStatus_UNABLE] 0 0 0)
           (Build_MVMInstance MVMGCStatus_STOLEN
              [MVMGCStatus_INTERRUPT; MVMGCStatus_STOLEN] 0 0 1)).
  - reflexivity.
  - reflexivity.
  - vm_compute. reflexivity.
  - cbn. lia.
  - vm_compute. reflexivity.
Defined.

End GCProtocol.
